(** * MACC builder: measure engine, numeric primitives, catalog resolver,
      cost normalisation and curve builder of [src/MACCApp.jsx]

    The development embeds the numeric core of the MACC application in Rocq
    and proves the properties its specification states about it.

    Numbers.  A JavaScript number is modelled by [JS.num]: an exact rational
    ([Qc], canonical fractions, so that equality is Leibniz equality) or one of
    the three special values [+Infinity], [-Infinity], [NaN].  Arithmetic
    follows IEEE-754 on the special values and is exact on the finite ones:
    rounding, overflow, underflow and the sign of zero are not modelled.
    [quadraticFit], whose result depends on rounding, is written over the
    operations it uses and read twice: in binary64 (primitive floats), as the
    source computes, and in this exact arithmetic, in which its specification
    states the result.

    Runtime.  Three built-ins of the JavaScript runtime have no exact rational
    counterpart and are taken as the fields of the class [JS.Runtime]:
    string-to-number conversion, [Math.pow] at a positive base with a
    non-integral exponent, and [String.prototype.toLowerCase]. *)

From Stdlib Require Import PrimFloat.
From Stdlib Require Import QArith Qcanon Lqa Lia ZArith List String Ascii Bool.
From Stdlib Require Import Sorted Permutation.
Import ListNotations.

Set Implicit Arguments.

(* ================================================================== *)
(** * The JavaScript values and operators the source uses              *)
(* ================================================================== *)

Module JS.

(** ** Numbers *)

Inductive num : Type :=
| Fin (q : Qc)
| PInf
| NInf
| NaN.

Definition qc (n : Z) (d : positive) : Qc := Q2Qc (n # d).
Definition of_Z (z : Z) : num := Fin (qc z 1).
Definition of_nat (n : nat) : num := of_Z (Z.of_nat n).

Definition zero : num := of_Z 0.
Definition one : num := of_Z 1.

Definition Qc_ltb (a b : Qc) : bool :=
  match (a ?= b)%Qc with Lt => true | _ => false end.
Definition Qc_eqb (a b : Qc) : bool :=
  match (a ?= b)%Qc with Eq => true | _ => false end.

(** Sign of a number: [Lt] negative, [Eq] zero, [Gt] positive; [None] for NaN. *)
Definition sign (a : num) : option comparison :=
  match a with
  | Fin q => Some (q ?= Q2Qc 0)%Qc
  | PInf => Some Gt
  | NInf => Some Lt
  | NaN => None
  end.

Definition neg (a : num) : num :=
  match a with
  | Fin q => Fin (- q)%Qc
  | PInf => NInf
  | NInf => PInf
  | NaN => NaN
  end.

Definition add (a b : num) : num :=
  match a, b with
  | NaN, _ | _, NaN => NaN
  | Fin x, Fin y => Fin (x + y)%Qc
  | PInf, NInf | NInf, PInf => NaN
  | PInf, _ | _, PInf => PInf
  | NInf, _ | _, NInf => NInf
  end.

Definition sub (a b : num) : num := add a (neg b).

(** An infinity of the given sign; an infinity times zero is NaN. *)
Definition inf_of_sign (s : comparison) : num :=
  match s with Gt => PInf | Lt => NInf | Eq => NaN end.

Definition sign_mul (s t : comparison) : comparison :=
  match s, t with
  | Eq, _ | _, Eq => Eq
  | Gt, Gt | Lt, Lt => Gt
  | _, _ => Lt
  end.

Definition mul (a b : num) : num :=
  match a, b with
  | Fin x, Fin y => Fin (x * y)%Qc
  | _, _ =>
      match sign a, sign b with
      | Some s, Some t => inf_of_sign (sign_mul s t)
      | _, _ => NaN
      end
  end.

(** Division.  A finite non-zero number over zero is the infinity of the
    numerator's sign (the zero is taken as [+0]); [0/0] and [Inf/Inf] are NaN. *)
Definition div (a b : num) : num :=
  match a, b with
  | NaN, _ | _, NaN => NaN
  | Fin x, Fin y =>
      if Qc_eqb y (Q2Qc 0) then inf_of_sign (x ?= Q2Qc 0)%Qc
      else Fin (x / y)%Qc
  | Fin _, _ => zero
  | _, Fin y =>
      match sign a with
      | Some s => inf_of_sign (sign_mul s (if Qc_ltb y (Q2Qc 0) then Lt else Gt))
      | None => NaN
      end
  | _, _ => NaN
  end.

(** [a < b]; every comparison with NaN is false. *)
Definition lt (a b : num) : bool :=
  match a, b with
  | NaN, _ | _, NaN => false
  | Fin x, Fin y => Qc_ltb x y
  | _, NInf => false
  | NInf, _ => true
  | PInf, _ => false
  | _, PInf => true
  end.

Definition gt (a b : num) : bool := lt b a.

(** [a <= b] is [a < b || a == b]. *)
Definition num_eqb (a b : num) : bool :=
  match a, b with
  | Fin x, Fin y => Qc_eqb x y
  | PInf, PInf | NInf, NInf => true
  | _, _ => false
  end.

Definition le (a b : num) : bool := lt a b || num_eqb a b.
Definition ge (a b : num) : bool := le b a.

Definition Number_isNaN (a : num) : bool :=
  match a with NaN => true | _ => false end.

Definition Number_isFinite (a : num) : bool :=
  match a with Fin _ => true | _ => false end.

Definition Math_abs (a : num) : num :=
  match a with
  | Fin q => if Qc_ltb q (Q2Qc 0) then Fin (- q)%Qc else Fin q
  | PInf | NInf => PInf
  | NaN => NaN
  end.

(** [Math.max] and [Math.min] of two arguments: NaN if either is NaN. *)
Definition Math_max (a b : num) : num :=
  match a, b with
  | NaN, _ | _, NaN => NaN
  | _, _ => if lt a b then b else a
  end.

Definition Math_min (a b : num) : num :=
  match a, b with
  | NaN, _ | _, NaN => NaN
  | _, _ => if lt b a then b else a
  end.

(** ** Powers *)

Definition is_integer (q : Qc) : bool := Pos.eqb (Qden (this q)) 1.

(** [b^k] for a finite base and an integer exponent; [0^k] with [k < 0] is
    [+Infinity]. *)
Definition pow_Z (b : Qc) (k : Z) : num :=
  match k with
  | Z0 => one
  | Zpos p => Fin (b ^ Pos.to_nat p)%Qc
  | Zneg p => div one (Fin (b ^ Pos.to_nat p)%Qc)
  end.

(** The runtime built-ins that are taken as given. *)
Class Runtime : Type := {
  (** [Number(s)] on a string [s] (StringToNumber of ECMAScript). *)
  StringToNumber : string -> num;
  (** [Math.pow(b, e)] for finite [b > 0] and finite non-integral [e]. *)
  pow_real : Qc -> Qc -> num;
  (** [s.toLowerCase()]. *)
  toLowerCase : string -> string
}.

Section WithRuntime.
Context {RT : Runtime}.

(** [Math.pow(base, e)], by the cases of Number::exponentiate. *)
Definition Math_pow (base e : num) : num :=
  match e with
  | NaN => NaN
  | Fin k =>
      if Qc_eqb k (Q2Qc 0) then one
      else
        match base with
        | NaN => NaN
        | PInf => if Qc_ltb (Q2Qc 0) k then PInf else zero
        | NInf =>
            if Qc_ltb (Q2Qc 0) k
            then if is_integer k && Z.odd (Qnum (this k)) then NInf else PInf
            else zero
        | Fin b =>
            if is_integer k then pow_Z b (Qnum (this k))
            else if Qc_eqb b (Q2Qc 0)
                 then if Qc_ltb (Q2Qc 0) k then zero else PInf
                 else if Qc_ltb b (Q2Qc 0) then NaN else pow_real b k
        end
  | PInf =>
      match Math_abs base with
      | NaN => NaN
      | m => if lt one m then PInf else if lt m one then zero else NaN
      end
  | NInf =>
      match Math_abs base with
      | NaN => NaN
      | m => if lt one m then zero else if lt m one then PInf else NaN
      end
  end.

(** ** Values *)

Inductive value : Type :=
| VUndefined
| VNull
| VBool (b : bool)
| VNum (n : num)
| VStr (s : string).

(** [Number(v)]. *)
Definition Number (v : value) : num :=
  match v with
  | VUndefined => NaN
  | VNull => zero
  | VBool b => if b then one else zero
  | VNum n => n
  | VStr s => StringToNumber s
  end.

Definition is_empty_string (s : string) : bool :=
  match s with EmptyString => true | _ => false end.

(** [Boolean(v)]: the falsy values are undefined, null, false, 0, NaN and
    the empty string. *)
Definition Boolean (v : value) : bool :=
  match v with
  | VUndefined | VNull => false
  | VBool b => b
  | VNum (Fin q) => negb (Qc_eqb q (Q2Qc 0))
  | VNum NaN => false
  | VNum _ => true
  | VStr s => negb (is_empty_string s)
  end.

(** [a || b]. *)
Definition or_else (a b : value) : value := if Boolean a then a else b.

(** [v == null]: undefined or null. *)
Definition is_nullish (v : value) : bool :=
  match v with VUndefined | VNull => true | _ => false end.

(** [a ?? b]. *)
Definition coalesce (a b : value) : value := if is_nullish a then b else a.

(** [arr[i]]: undefined out of range. *)
Definition index (arr : list value) (i : nat) : value := nth i arr VUndefined.

End WithRuntime.

End JS.

Export JS.

Declare Scope num_scope.
Delimit Scope num_scope with num.
Bind Scope num_scope with num.
Infix "+" := JS.add : num_scope.
Infix "-" := JS.sub : num_scope.
Infix "*" := JS.mul : num_scope.
Infix "/" := JS.div : num_scope.
Notation "- x" := (JS.neg x) : num_scope.
Infix "<?" := JS.lt (at level 70) : num_scope.
Infix ">?" := JS.gt (at level 70) : num_scope.
Infix "<=?" := JS.le (at level 70) : num_scope.
Notation "a ||| b" := (JS.or_else a b) (at level 50, left associativity).
Notation "a ?? b" := (JS.coalesce a b) (at level 50, left associativity).

Local Open Scope string_scope.
Local Open Scope num_scope.

(** Decimal constants of the source. *)
Definition n0 : num := JS.zero.
Definition n1 : num := JS.one.
Definition n2 : num := JS.of_Z 2.
Definition n100 : num := JS.of_Z 100.
Definition crore : num := JS.of_Z 10000000.          (* 10_000_000 *)

(* ================================================================== *)
(** * Numeric primitives                                               *)
(* ================================================================== *)

(** ** [quadraticFit] *)

(** The numbers and operations [quadraticFit] computes with.  The source
    computes in binary64; the specification states the result "in exact
    arithmetic".  The function is written once, over the operations it
    uses, and read in both arithmetics below. *)
Record Arithmetic (T : Type) : Type := mkArithmetic {
  ar_nan : T;                       (* [Number(undefined)] *)
  ar_zero : T;                      (* [0] *)
  ar_one : T;                       (* [1] *)
  ar_tiny : T;                      (* [1e-12] *)
  ar_of_nat : nat -> T;             (* [xs.length] as a number *)
  ar_add : T -> T -> T;
  ar_sub : T -> T -> T;
  ar_mul : T -> T -> T;
  ar_div : T -> T -> T;
  ar_abs : T -> T;                  (* [Math.abs] *)
  ar_lt : T -> T -> bool;           (* [<] *)
  ar_square : T -> T                (* [v ** 2] *)
}.

Record Fit (T : Type) : Type := mkFit {
  fit_a : T;
  fit_b : T;
  fit_c : T;
  fit_r2 : option T            (* [None] is [null] *)
}.

Record PowerSums (T : Type) : Type := mkSums {
  Sx : T; Sx2 : T; Sx3 : T; Sx4 : T;
  Sy : T; Sxy : T; Sx2y : T
}.

Declare Scope fit_scope.

Section QuadraticFit.
Variable T : Type.
Variable A : Arithmetic T.

Local Notation "x + y" := (ar_add A x y) : fit_scope.
Local Notation "x - y" := (ar_sub A x y) : fit_scope.
Local Notation "x * y" := (ar_mul A x y) : fit_scope.
Local Notation "x / y" := (ar_div A x y) : fit_scope.
Local Open Scope fit_scope.

(** [xs[i]] and [ys[i]] after [Number(...)]: NaN out of range. *)
Definition at_ (l : list T) (i : nat) : T := nth i l (ar_nan A).

(** One turn of the first loop of [quadraticFit]. *)
Definition sums_step (xs ys : list T) (s : PowerSums T) (i : nat) : PowerSums T :=
  let x := at_ xs i in
  let y := at_ ys i in
  let x2 := x * x in
  mkSums (Sx s + x) (Sx2 s + x2) (Sx3 s + x2 * x) (Sx4 s + x2 * x2)
         (Sy s + y) (Sxy s + x * y) (Sx2y s + x2 * y).

Definition power_sums (xs ys : list T) : PowerSums T :=
  fold_left (sums_step xs ys) (seq 0 (List.length xs))
            (mkSums (ar_zero A) (ar_zero A) (ar_zero A) (ar_zero A)
                    (ar_zero A) (ar_zero A) (ar_zero A)).

Definition row3 : Type := (T * T * T)%type.
Definition mat3 : Type := (row3 * row3 * row3)%type.

(** The 3x3 determinant, expanded along the first row as in the source. *)
Definition det (m : mat3) : T :=
  let '((m00, m01, m02), (m10, m11, m12), (m20, m21, m22)) := m in
  m00 * (m11 * m22 - m12 * m21) -
  m01 * (m10 * m22 - m12 * m20) +
  m02 * (m10 * m21 - m11 * m20).

(** One turn of the second loop: the pair (sse, sst). *)
Definition resid_step (xs ys : list T) (a b c yMean : T)
           (acc : T * T) (i : nat) : T * T :=
  let x := at_ xs i in
  let y := at_ ys i in
  let yhat := a + b * x + c * x * x in
  (fst acc + ar_square A (y - yhat), snd acc + ar_square A (y - yMean)).

Definition degenerate_fit : Fit T :=
  mkFit (ar_zero A) (ar_zero A) (ar_zero A) None.

Definition quadraticFit (xs ys : list T) : Fit T :=
  let n := List.length xs in
  if (n <? 3)%nat then degenerate_fit
  else
    let s := power_sums xs ys in
    let nn := ar_of_nat A n in
    let M  := ((nn, Sx s, Sx2 s), (Sx s, Sx2 s, Sx3 s), (Sx2 s, Sx3 s, Sx4 s)) in
    let My := ((Sy s, Sx s, Sx2 s), (Sxy s, Sx2 s, Sx3 s), (Sx2y s, Sx3 s, Sx4 s)) in
    let Mb := ((nn, Sy s, Sx2 s), (Sx s, Sxy s, Sx3 s), (Sx2 s, Sx2y s, Sx4 s)) in
    let Mc := ((nn, Sx s, Sy s), (Sx s, Sx2 s, Sxy s), (Sx2 s, Sx3 s, Sx2y s)) in
    let D := det M in
    if ar_lt A (ar_abs A D) (ar_tiny A) then degenerate_fit
    else
      let a := det My / D in
      let b := det Mb / D in
      let c := det Mc / D in
      let yMean := fold_left (fun s y => s + y) ys (ar_zero A) / nn in
      let '(sse, sst) :=
        fold_left (resid_step xs ys a b c yMean) (seq 0 n)
                  (ar_zero A, ar_zero A) in
      let r2 := if ar_lt A (ar_zero A) sst
                then Some (ar_one A - sse / sst) else None in
      mkFit a b c r2.

End QuadraticFit.

(** *** The arithmetic of the source: binary64 *)

(** A length as a binary64 number (exact below 2^53). *)
Fixpoint float_of_nat (n : nat) : float :=
  match n with
  | O => 0%float
  | S k => PrimFloat.add (float_of_nat k) 1%float
  end.

(** IEEE-754 binary64 with round to nearest even, as the source computes.
    [1e-12] is the binary64 number nearest to it.  [v ** 2] is
    implementation-approximated in ECMAScript and is taken as the argument
    [square]. *)
Definition binary64 (square : float -> float) : Arithmetic float :=
  mkArithmetic PrimFloat.nan 0%float 1%float 0x1.19799812dea11p-40%float
               float_of_nat PrimFloat.add PrimFloat.sub PrimFloat.mul
               PrimFloat.div PrimFloat.abs PrimFloat.ltb square.


Section Primitives.
Context {RT : Runtime}.

(** *** The arithmetic of the specification: exact *)

Definition tiny_det : num := Fin (JS.qc 1 1000000000000).       (* 1e-12 *)

(** [(y - yhat) ** 2]. *)
Definition sq (x : num) : num := Math_pow x n2.

(** Exact rational arithmetic with the IEEE special values: the arithmetic
    in which the specification states the result of the fit. *)
Definition exact_arithmetic : Arithmetic num :=
  mkArithmetic NaN n0 n1 tiny_det JS.of_nat JS.add JS.sub JS.mul JS.div
               Math_abs JS.lt sq.

(** ** [interpolateSeries] *)

(** The test that makes the loop skip a cell:
    [s[i] === "" || s[i] == null || !Number.isFinite(Number(s[i]))]. *)
Definition skipped (v : value) : bool :=
  match v with
  | VStr EmptyString => true
  | VUndefined | VNull => true
  | _ => negb (Number_isFinite (Number v))
  end.

(** [s[k] = v] for [k] inside the array (the loop never writes outside). *)
Fixpoint set_index (s : list value) (k : nat) (v : value) : list value :=
  match s, k with
  | [], _ => []
  | _ :: t, O => v :: t
  | x :: t, S k' => x :: set_index t k' v
  end.

(** The inner loop: [for (k = lastIdx + 1; k < i; k++) s[k] = ...]. *)
Definition fill_gap (s : list value) (lastIdx i : nat) (dv : num) : list value :=
  fold_left
    (fun s k =>
       set_index s k
         (VNum (Number (index s lastIdx) + dv * JS.of_nat (k - lastIdx))))
    (seq (S lastIdx) (i - S lastIdx)) s.

(** One turn of the outer loop on the state (s, lastIdx). *)
Definition interp_step (st : list value * option nat) (i : nat)
  : list value * option nat :=
  let '(s, lastIdx) := st in
  if skipped (index s i) then st
  else
    match lastIdx with
    | None => (s, Some i)
    | Some l =>
        let dv := (Number (index s i) - Number (index s l)) / JS.of_nat (i - l) in
        (fill_gap s l i dv, Some i)
    end.

Definition interpolateSeries (series : list value) : list value :=
  fst (fold_left interp_step (seq 0 (List.length series)) (series, None)).

(** ** [npv] and [irr] *)

(** [years[i] - baseYear]; [years[i]] is undefined out of range. *)
Definition year_offset (years : list Z) (baseYear : Z) (i : nat) : num :=
  match nth_error years i with
  | Some y => JS.of_Z y - JS.of_Z baseYear
  | None => NaN
  end.

(** One turn of the [reduce] of [npv]: the state is (acc, i). *)
Definition npv_step (r : num) (years : list Z) (baseYear : Z)
           (st : num * nat) (amt : num) : num * nat :=
  let '(acc, i) := st in
  (acc + amt / Math_pow (n1 + r) (Math_max n0 (year_offset years baseYear i)),
   S i).

Definition npv (rate : num) (amounts : list num) (years : list Z) (baseYear : Z)
  : num :=
  fst (fold_left (npv_step rate years baseYear) amounts (n0, O)).

(** The [for] loop of [irr], [it] turns left; the value after the loop is
    [(lo + hi) / 2]. *)
Fixpoint irr_loop (f : num -> num) (tol : num) (it : nat)
         (lo hi fLo fHi : num) : num :=
  match it with
  | O => (lo + hi) / n2
  | S it' =>
      let mid := (lo + hi) / n2 in
      let fMid := f mid in
      if Math_abs fMid <? tol then mid
      else if fLo * fMid <? n0
           then irr_loop f tol it' lo mid fLo fMid
           else irr_loop f tol it' mid hi fMid fHi
  end.

Definition irr_from (amounts : list num) (years : list Z) (baseYear : Z)
           (guessLow guessHigh tol : num) (maxIter : nat) : option num :=
  let f := fun r => npv r amounts years baseYear in
  let lo := guessLow in
  let hi := guessHigh in
  let fLo := f lo in
  let fHi := f hi in
  if Number_isNaN fLo || Number_isNaN fHi then None
  else if fLo * fHi >? n0 then None
  else Some (irr_loop f tol maxIter lo hi fLo fHi).

Definition guessLow_default : num := Fin (JS.qc (-9) 10).      (* -0.9 *)
Definition guessHigh_default : num := JS.of_Z 3.                (* 3.0 *)
Definition tol_default : num := Fin (JS.qc 1 1000000).          (* 1e-6 *)
Definition maxIter_default : nat := 100.

(** [irr(amounts, years, baseYear)] with the default bounds, tolerance and
    iteration count, as every call in the source has it. *)
Definition irr (amounts : list num) (years : list Z) (baseYear : Z) : option num :=
  irr_from amounts years baseYear
           guessLow_default guessHigh_default tol_default maxIter_default.

End Primitives.

(* ================================================================== *)
(** * Catalogs and the measure wizard's state                          *)
(* ================================================================== *)

(** A row of the fuel, raw-material, transport or waste catalog, with the
    fields the getters read.  A field that is absent is [VUndefined]; an
    absent name is [None]. *)
Record CatalogRow : Type := mkRow {
  name : option string;
  unit : value;
  price : value;
  price_per_unit_inr : value;
  ef_tco2_per_unit : value;
  ef_t_per_unit : value
}.

(** A row of the electricity catalog. *)
Record ElecRow : Type := mkElecRow {
  state : option string;
  price_per_mwh : value;
  price_per_mwh_inr : value;
  ef_tco2_per_mwh : value
}.

Record Catalogs : Type := mkCatalogs {
  fuels : list CatalogRow;
  raw : list CatalogRow;
  transport : list CatalogRow;
  waste : list CatalogRow;
  electricity : list ElecRow
}.

(** A fuel, raw, transport or waste line of the wizard. *)
Record DriverLine : Type := mkLine {
  ln_id : nat;
  ln_name : string;
  priceOv : value;
  efOv : value;
  priceEscPctYr : value;
  efEscPctYr : value;
  delta : list value
}.

(** An electricity line of the wizard. *)
Record ElecLine : Type := mkElecLine {
  el_id : nat;
  el_state : string;
  el_priceOv : value;
  el_priceEscPctYr : value;
  el_efEscPctYr : value;
  efOvPerYear : list value;
  deltaMWh : list value
}.

Record Stack : Type := mkStack {
  opex_cr : list value;
  savings_cr : list value;
  other_cr : list value;
  capex_upfront_cr : list value;
  capex_financed_cr : list value;
  financing_tenure_years : list value;
  interest_rate_pct : list value
}.

Record Meta : Type := mkMeta {
  project_name : string;
  sector : string;
  discount_rate : value;
  project_life_years : value
}.

(** The state and props of [MeasureWizard] that [computed] and
    [saveTemplate] read. *)
Record Wizard : Type := mkWizard {
  dataSources : Catalogs;
  carbonPrice : value;
  meta : Meta;
  adoption : list value;
  otherDirectT : list value;
  fuelLines : list DriverLine;
  rawLines : list DriverLine;
  transLines : list DriverLine;
  wasteLines : list DriverLine;
  elecLines : list ElecLine;
  stack : Stack;
  applyCarbonPriceInSave : bool
}.

(** [row?.field]: undefined when the row is. *)
Definition opt_field {A : Type} (row : option A) (f : A -> value) : value :=
  match row with Some r => f r | None => VUndefined end.

Definition getUnitPrice (row : option CatalogRow) : value :=
  opt_field row price ?? opt_field row price_per_unit_inr ?? VNum n0.

Definition getEFperUnit (row : option CatalogRow) : value :=
  opt_field row ef_tco2_per_unit ?? opt_field row ef_t_per_unit ?? VNum n0.

Definition getElecPricePerMWh (row : option ElecRow) : value :=
  opt_field row price_per_mwh ?? opt_field row price_per_mwh_inr
    ?? VNum (JS.of_Z 500).

Definition getElecEFperMWh (row : option ElecRow) : value :=
  opt_field row ef_tco2_per_mwh ?? VNum (Fin (JS.qc 710 1000)).

(** [DS.find(x => x.name === ln.name)]. *)
Definition find_name (ds : list CatalogRow) (nm : string) : option CatalogRow :=
  find (fun x => match name x with Some s => String.eqb s nm | None => false end) ds.

(** [DS.find(x => x.state === ln.state)]. *)
Definition find_state (ds : list ElecRow) (st : string) : option ElecRow :=
  find (fun x => match state x with Some s => String.eqb s st | None => false end) ds.

(** [a || b] on catalog rows: an object is truthy, undefined is not. *)
Definition or_row {A : Type} (a b : option A) : option A :=
  match a with Some _ => a | None => b end.

(* ================================================================== *)
(** * The measure computation engine: [computed]                       *)
(* ================================================================== *)

Section Engine.
Context {RT : Runtime}.

Definition annuityFactor (r n : num) : num :=
  let R := r in
  let N := n in
  if negb (Number_isFinite R) || negb (Number_isFinite N) || (N <=? n0) then n0
  else if Math_abs R <? Fin (JS.qc 1 1000000000) then n1 / N
  else (R * Math_pow (n1 + R) N) / (Math_pow (n1 + R) N - n1).

(** [Number(x || 0)]. *)
Definition num_or0 (v : value) : num := Number (v ||| VNum n0).

(** [Number(ln.priceEscPctYr || 0) / 100] and the like. *)
Definition pct (v : value) : num := num_or0 v / n100.

(** ** One line of a non-electric category *)

Definition line_basePrice (ds : list CatalogRow) (ln : DriverLine) : value :=
  priceOv ln ?? getUnitPrice (find_name ds (ln_name ln)) ?? VNum n0.

Definition line_baseEf (ds : list CatalogRow) (ln : DriverLine) : value :=
  efOv ln ?? getEFperUnit (find_name ds (ln_name ln)) ?? VNum n0.

Definition line_effPrice (ds : list CatalogRow) (ln : DriverLine)
           (yearsSinceBase : num) : num :=
  Number (line_basePrice ds ln)
  * Math_pow (n1 + pct (priceEscPctYr ln)) yearsSinceBase.

Definition line_effEf (ds : list CatalogRow) (ln : DriverLine)
           (yearsSinceBase : num) : num :=
  Number (line_baseEf ds ln)
  * Math_pow (n1 + pct (efEscPctYr ln)) yearsSinceBase.

Definition line_qty (a : num) (ln : DriverLine) (i : nat) : num :=
  a * num_or0 (index (delta ln) i).

(** The body of [for (const ln of fuelLines)] (and of the raw, transport and
    waste loops, which are the same text over their own catalog): the state is
    (category tons, driver_cr). *)
Definition line_step (ds : list CatalogRow) (a yearsSinceBase : num) (i : nat)
           (st : num * num) (ln : DriverLine) : num * num :=
  let '(cat_t, driver_cr) := st in
  let effPrice := line_effPrice ds ln yearsSinceBase in
  let effEf := line_effEf ds ln yearsSinceBase in
  let qty := line_qty a ln i in
  (cat_t + qty * effEf, driver_cr + (qty * effPrice) / crore).

(** ** One electricity line *)

Definition elec_base (ds : list ElecRow) (ln : ElecLine) : option ElecRow :=
  or_row (find_state ds (el_state ln)) (hd_error ds).

Definition elec_basePrice (ds : list ElecRow) (ln : ElecLine) : value :=
  el_priceOv ln ?? getElecPricePerMWh (elec_base ds ln) ?? VNum n0.

(** [ln.efOvPerYear[i] !== "" && ln.efOvPerYear[i] != null]. *)
Definition hasPerYearOv (ln : ElecLine) (i : nat) : bool :=
  match index (efOvPerYear ln) i with
  | VStr EmptyString => false
  | v => negb (is_nullish v)
  end.

Definition elec_baseEf (ds : list ElecRow) (ln : ElecLine) : value :=
  getElecEFperMWh (elec_base ds ln) ?? VNum n0.

Definition elec_effEf (ds : list ElecRow) (ln : ElecLine)
           (yearsSinceBase : num) (i : nat) : num :=
  if hasPerYearOv ln i then Number (index (efOvPerYear ln) i)
  else Number (elec_baseEf ds ln)
       * Math_pow (n1 + pct (el_efEscPctYr ln)) yearsSinceBase.

Definition elec_effPrice (ds : list ElecRow) (ln : ElecLine)
           (yearsSinceBase : num) : num :=
  Number (elec_basePrice ds ln)
  * Math_pow (n1 + pct (el_priceEscPctYr ln)) yearsSinceBase.

Definition elec_step (ds : list ElecRow) (a yearsSinceBase : num) (i : nat)
           (st : num * num) (ln : ElecLine) : num * num :=
  let '(elec_t, driver_cr) := st in
  let effPrice := elec_effPrice ds ln yearsSinceBase in
  let effEf := elec_effEf ds ln yearsSinceBase i in
  let mwh := a * num_or0 (index (deltaMWh ln) i) in
  (elec_t + mwh * effEf, driver_cr + (mwh * effPrice) / crore).

(** ** One year *)

Record Pieces : Type := mkPieces {
  fuel_t : num; raw_t : num; trans_t : num; waste_t : num; elec_t : num;
  other_t : num;
  driver_cr : num; p_opex_cr : num; p_other_cr : num; p_savings_cr : num;
  financedAnnual_cr : num; p_capex_upfront_cr : num
}.

Record YearResult : Type := mkYear {
  year : Z;
  direct_t : num;
  net_cost_cr : num;
  implied_cost_per_t_wo : num;
  implied_cost_per_t_w : num;
  cashflow_inr_wo_cp : num;
  cashflow_inr_w_cp : num;
  pieces : Pieces
}.

(** The callback of [YEARS.map((year, i) => ...)]. *)
Definition year_result (w : Wizard) (BASE_YEAR : Z) (yr : Z) (i : nat)
  : YearResult :=
  let ds := dataSources w in
  let a := Math_max n0 (Math_min n1 (num_or0 (index (adoption w) i))) in
  let yearsSinceBase := Math_max n0 (JS.of_Z yr - JS.of_Z BASE_YEAR) in
  let '(fuel_t, d1) :=
    fold_left (line_step (fuels ds) a yearsSinceBase i) (fuelLines w) (n0, n0) in
  let '(raw_t, d2) :=
    fold_left (line_step (raw ds) a yearsSinceBase i) (rawLines w) (n0, d1) in
  let '(trans_t, d3) :=
    fold_left (line_step (transport ds) a yearsSinceBase i) (transLines w) (n0, d2) in
  let '(waste_t, d4) :=
    fold_left (line_step (waste ds) a yearsSinceBase i) (wasteLines w) (n0, d3) in
  let '(elec_t, driver_cr) :=
    fold_left (elec_step (electricity ds) a yearsSinceBase i) (elecLines w) (n0, d4) in
  let other_t := a * num_or0 (index (otherDirectT w) i) in
  let direct_t := fuel_t + raw_t + trans_t + waste_t + elec_t + other_t in
  let st := stack w in
  let opex := num_or0 (index (opex_cr st) i) in
  let savings := num_or0 (index (savings_cr st) i) in
  let other := num_or0 (index (other_cr st) i) in
  let capex_upfront := num_or0 (index (capex_upfront_cr st) i) in
  let capex_financed := num_or0 (index (capex_financed_cr st) i) in
  let i_nominal := num_or0 (index (interest_rate_pct st) i) / n100 in
  let n_tenure := num_or0 (index (financing_tenure_years st) i) in
  let financedAnnual :=
    if (capex_financed >? n0) && (i_nominal >? n0) && (n_tenure >? n0)
    then capex_financed * annuityFactor i_nominal n_tenure
    else n0 in
  let net_cost := (driver_cr + opex + other - savings) + financedAnnual in
  let cp := num_or0 (carbonPrice w) in
  let cashflow_wo :=
    (savings - opex - driver_cr - other - financedAnnual - capex_upfront) * crore in
  let cashflow_w := cashflow_wo + cp * direct_t in
  let implied_wo :=
    if direct_t >? n0 then (net_cost * crore) / direct_t else n0 in
  let implied_w :=
    if direct_t >? n0 then ((net_cost * crore) - cp * direct_t) / direct_t else n0 in
  mkYear yr direct_t net_cost implied_wo implied_w cashflow_wo cashflow_w
         (mkPieces fuel_t raw_t trans_t waste_t elec_t other_t driver_cr
                   opex other savings financedAnnual capex_upfront).

(** [arr.map((x, i) => f x i)]. *)
Fixpoint mapi_from {A B : Type} (f : A -> nat -> B) (i : nat) (l : list A) : list B :=
  match l with
  | [] => []
  | x :: t => f x i :: mapi_from f (S i) t
  end.

Definition mapi {A B : Type} (f : A -> nat -> B) (l : list A) : list B :=
  mapi_from f 0 l.

(** [arr.findIndex(p)]: [None] is the source's -1. *)
Fixpoint findIndex {A : Type} (p : A -> bool) (l : list A) : option nat :=
  match l with
  | [] => None
  | x :: t => if p x then Some O else option_map S (findIndex p t)
  end.

(** [YEARS.indexOf(y)]. *)
Definition indexOf (l : list Z) (y : Z) : option nat := findIndex (Z.eqb y) l.

(** [let repIdx = perYear.findIndex(y => y.direct_t > 0);
     if (repIdx < 0) repIdx = YEARS.indexOf(2035) >= 0 ? YEARS.indexOf(2035)
                                                      : Math.floor(YEARS.length / 2);] *)
Definition rep_index (YEARS : list Z) (perYear : list YearResult) : nat :=
  match findIndex (fun y => direct_t y >? n0) perYear with
  | Some i => i
  | None =>
      match indexOf YEARS 2035 with
      | Some j => j
      | None => (List.length YEARS / 2)%nat
      end
  end.

Record Finance : Type := mkFinance {
  npvWO : num; npvW : num;
  irrWO : option num; irrW : option num;
  avgCostWO : num; avgCostW : num;
  sumDirect : num
}.

(** The three fields of [computed.rep] that are read; when [perYear[repIdx]]
    is undefined the source substitutes an object of three zeros. *)
Record Rep : Type := mkRep {
  rep_direct_t : num;
  rep_implied_cost_per_t_wo : num;
  rep_implied_cost_per_t_w : num
}.

Definition rep_of (perYear : list YearResult) (repIdx : nat) : Rep :=
  match nth_error perYear repIdx with
  | Some y => mkRep (direct_t y) (implied_cost_per_t_wo y) (implied_cost_per_t_w y)
  | None => mkRep n0 n0 n0
  end.

Record Computed : Type := mkComputed {
  c_YEARS : list Z;
  c_BASE_YEAR : Z;
  perYear : list YearResult;
  repIdx : nat;
  rep : Rep;
  finance : Finance
}.

(** The body of [computed] for a year list and base year. *)
Definition computed_for (YEARS : list Z) (BASE_YEAR : Z) (w : Wizard) : Computed :=
  let perYear := mapi (year_result w BASE_YEAR) YEARS in
  let repIdx := rep_index YEARS perYear in
  let years := map year perYear in
  let flowsWO := map cashflow_inr_wo_cp perYear in
  let flowsW := map cashflow_inr_w_cp perYear in
  let r := Number (discount_rate (meta w) ||| VNum (Fin (JS.qc 10 100))) in
  let cp := num_or0 (carbonPrice w) in
  let sumDirect :=
    fold_left (fun s y => s + Math_max n0 (direct_t y)) perYear n0 in
  let sumCostInrWO :=
    fold_left (fun s y => s + net_cost_cr y * crore) perYear n0 in
  let sumCostInrW :=
    fold_left (fun s y => s + (net_cost_cr y * crore - cp * direct_t y)) perYear n0 in
  mkComputed YEARS BASE_YEAR perYear repIdx (rep_of perYear repIdx)
    (mkFinance (npv r flowsWO years BASE_YEAR) (npv r flowsW years BASE_YEAR)
               (irr flowsWO years BASE_YEAR) (irr flowsW years BASE_YEAR)
               (if sumDirect >? n0 then sumCostInrWO / sumDirect else n0)
               (if sumDirect >? n0 then sumCostInrW / sumDirect else n0)
               sumDirect).

Definition YEARS : list Z := [2025; 2030; 2035; 2040; 2045; 2050]%Z.
Definition BASE_YEAR : Z := 2025%Z.

(** [computed], with the year list and base year of the source. *)
Definition computed (w : Wizard) : Computed := computed_for YEARS BASE_YEAR w.

End Engine.

(* ================================================================== *)
(** * Saved measures and [saveTemplate]                                *)
(* ================================================================== *)

Record Drivers : Type := mkDrivers {
  fuel_lines : list DriverLine;
  raw_lines : list DriverLine;
  transport_lines : list DriverLine;
  waste_lines : list DriverLine;
  electricity_lines : list ElecLine;
  other_direct_t : list value
}.

(** The part of [details] that only a template-derived measure has. *)
Record TemplateDetails : Type := mkTemplate {
  d_years : list Z;
  d_meta : Meta;
  d_adoption : list value;
  d_drivers : Drivers;
  d_stack : Stack;
  per_year : list YearResult;
  representative_index : nat;
  finance_summary : Finance
}.

(** [details]: the mode, the two carbon-price fields that the ranking reads
    (undefined on a quick or imported measure) and the template payload. *)
Record Details : Type := mkDetails {
  mode : option string;
  saved_cost_includes_carbon_price : value;
  carbon_price_at_save : value;
  template : option TemplateDetails
}.

Record Measure : Type := mkMeasure {
  m_id : value;
  m_name : string;
  m_sector : string;
  abatement_tco2 : value;
  cost_per_tco2 : value;
  selected : bool;
  details : option Details
}.

Definition template_mode : string := "template_db_multiline".

Section Save.
Context {RT : Runtime}.

(** [saveTemplate].  [initial_id] is [initialMeasure?.id]; [confirm_ok] is the
    answer of [window.confirm] ([true] where there is no window).  [None]: the
    function returns without calling [onSave]; [Some m]: it calls [onSave(m)]. *)
Definition saveTemplate (w : Wizard) (initial_id : value) (confirm_ok : bool)
  : option Measure :=
  let c := computed w in
  let repAbate := Math_max n0 (rep_direct_t (rep c)) in
  let repCost :=
    if applyCarbonPriceInSave w then rep_implied_cost_per_t_w (rep c)
    else rep_implied_cost_per_t_wo (rep c) in
  if (repAbate <=? n0) && negb confirm_ok then None
  else
    Some (mkMeasure initial_id (project_name (meta w)) (sector (meta w))
            (VNum repAbate) (VNum repCost) true
            (Some (mkDetails (Some template_mode)
                     (VBool (applyCarbonPriceInSave w))
                     (VNum (num_or0 (carbonPrice w)))
                     (Some (mkTemplate (c_YEARS c) (meta w) (adoption w)
                              (mkDrivers (fuelLines w) (rawLines w) (transLines w)
                                         (wasteLines w) (elecLines w) (otherDirectT w))
                              (stack w) (perYear c) (repIdx c) (finance c)))))).

End Save.

(* ================================================================== *)
(** * Catalog resolver: [mergedBy] and [resolvedCatalogs]              *)
(* ================================================================== *)

Section Resolver.
Context {RT : Runtime}.
Variable A : Type.
(** [x => x?.[keyName]]: the row's name or state. *)
Variable key : A -> option string.

(** A JavaScript [Map] with string keys, in insertion order. *)
Definition jsmap : Type := list (string * A).

(** [map.set(k, v)]: an existing key keeps its place and takes the new value,
    a new key goes last. *)
Fixpoint map_set (m : jsmap) (k : string) (v : A) : jsmap :=
  match m with
  | [] => [(k, v)]
  | (k', v') :: t =>
      if String.eqb k' k then (k', v) :: t else (k', v') :: map_set t k v
  end.

(** [Array.from(map.values())]. *)
Definition map_values (m : jsmap) : list A := List.map snd m.

(** The key under which a row is stored, if it is stored at all:
    [if (x?.[keyName]) ... String(x[keyName]).toLowerCase()]. *)
Definition row_key (x : A) : option string :=
  match key x with
  | Some s => if is_empty_string s then None else Some (toLowerCase s)
  | None => None
  end.

(** [arr.forEach(x => { if (x?.[keyName]) map.set(..., x); })]. *)
Definition set_all (m : jsmap) (arr : list A) : jsmap :=
  fold_left
    (fun m x => match row_key x with Some k => map_set m k x | None => m end)
    arr m.

Definition mergedBy (arrA arrB : list A) : list A :=
  map_values (set_all (set_all [] arrA) arrB).

End Resolver.



Section Resolved.
Context {RT : Runtime}.


End Resolved.

(* ================================================================== *)
(** * Cost normalisation, ranking and the curve builder                *)
(* ================================================================== *)

(** A measure with its [effective_cost], as [sorted] holds them. *)
Record Ranked : Type := mkRanked {
  measure : Measure;
  effective_cost : num
}.

Record Segment : Type := mkSegment {
  seg_id : value;
  seg_name : string;
  seg_sector : string;
  x1_plot : num;
  x2_plot : num;
  cost : num;
  abatement : num;
  color : string
}.

Definition PALETTE : list string :=
  ["#4e79a7"; "#f28e2b"; "#e15759"; "#76b7b2"; "#59a14f";
   "#edc949"; "#af7aa1"; "#ff9da7"; "#9c755f"; "#bab0ab";
   "#2f4b7c"; "#ffa600"; "#a05195"; "#003f5c"; "#d45087";
   "#1f77b4"; "#ff7f0e"; "#2ca02c"; "#d62728"; "#9467bd";
   "#8c564b"; "#e377c2"; "#7f7f7f"; "#bcbd22"; "#17becf"].

Section Curve.
Context {RT : Runtime}.

(** [measures.filter(m => m.selected &&
      (selectedSector === "All sectors" || m.sector === selectedSector))]. *)
Definition filtered (measures : list Measure) (selectedSector : string)
  : list Measure :=
  filter (fun m => selected m &&
                   (String.eqb selectedSector "All sectors"
                    || String.eqb (m_sector m) selectedSector))
         measures.

(** [m?.details?.field]. *)
Definition details_field (m : Measure) (f : Details -> value) : value :=
  opt_field (details m) f.

(** The callback of [filtered.map] in [sorted]. *)
Definition effective_cost_of (carbonPrice : value) (m : Measure) : num :=
  let baseCost := num_or0 (cost_per_tco2 m) in
  let cpNow := num_or0 carbonPrice in
  let savedIncludesCP :=
    Boolean (details_field m saved_cost_includes_carbon_price) in
  let cpAtSave := num_or0 (details_field m carbon_price_at_save) in
  if savedIncludesCP then baseCost - (cpNow - cpAtSave) else baseCost - cpNow.

Definition with_effective_cost (carbonPrice : value) (m : Measure) : Ranked :=
  mkRanked m (effective_cost_of carbonPrice m).

(** The comparator of [copy.sort]:
    [(a.effective_cost || 0) - (b.effective_cost || 0)]. *)
Definition compare_cost (a b : Ranked) : num :=
  num_or0 (VNum (effective_cost a)) - num_or0 (VNum (effective_cost b)).

(** [Array.prototype.sort] is stable: an element goes before the first one it
    is strictly smaller than.  (With a comparator that returns NaN the order is
    left to the implementation; this is the order of an insertion sort.) *)
Fixpoint insert_sorted (x : Ranked) (l : list Ranked) : list Ranked :=
  match l with
  | [] => [x]
  | y :: t =>
      if compare_cost x y <? n0 then x :: y :: t else y :: insert_sorted x t
  end.

Definition sort_by_cost (l : list Ranked) : list Ranked :=
  fold_left (fun acc x => insert_sorted x acc) l [].

Definition sorted (filtered : list Measure) (carbonPrice : value) : list Ranked :=
  sort_by_cost (map (with_effective_cost carbonPrice) filtered).

(** [mode === "capacity" ? x_cap : (denom > 0 ? (x_cap / denom) * 100 : 0)]. *)
Definition plot_x (mode : string) (denom x_cap : num) : num :=
  if String.eqb mode "capacity" then x_cap
  else if denom >? n0 then (x_cap / denom) * n100 else n0.

(** The callback of [sorted.forEach((m, idx) => ...)] on the state
    (cum, segs); [idx] is the position in [sorted]. *)
Definition segment_step (mode : string) (annual_emissions : value)
           (st : num * list Segment) (m : Ranked) (idx : nat)
  : num * list Segment :=
  let '(cum, segs) := st in
  let A := num_or0 (abatement_tco2 (measure m)) in
  let C := num_or0 (VNum (effective_cost m)) in
  if negb (Number_isFinite A) || negb (Number_isFinite C) || (A <=? n0) then st
  else
    let x1_cap := cum in
    let x2_cap := cum + Math_max n0 A in
    let denom := num_or0 annual_emissions in
    let x1 := plot_x mode denom x1_cap in
    let x2 := plot_x mode denom x2_cap in
    (x2_cap,
     (segs ++ [mkSegment (m_id (measure m)) (m_name (measure m))
                         (m_sector (measure m)) x1 x2 C A
                         (nth (idx mod List.length PALETTE) PALETTE "")])%list).

(** [forEach] with the index. *)
Fixpoint forEach_from {St B : Type} (f : St -> B -> nat -> St) (idx : nat)
         (l : list B) (st : St) : St :=
  match l with
  | [] => st
  | x :: t => forEach_from f (S idx) t (f st x idx)
  end.

Definition segments (sorted : list Ranked) (mode : string)
           (annual_emissions : value) : list Segment :=
  snd (forEach_from (segment_step mode annual_emissions) 0 sorted (n0, [])).

(** [segs.length ? segs[segs.length - 1].x2_plot : 0]. *)
Definition totalX (segs : list Segment) : num :=
  match rev segs with
  | [] => n0
  | s :: _ => x2_plot s
  end.

End Curve.

(* ================================================================== *)
(** * A reference runtime for the worked examples                      *)
(* ================================================================== *)

Module Reference.

Definition lower_ascii (c : ascii) : ascii :=
  let n := nat_of_ascii c in
  if (65 <=? n)%nat && (n <=? 90)%nat then ascii_of_nat (n + 32) else c.

(** Lower case of the ASCII letters; other bytes are kept. *)
Fixpoint lower (s : string) : string :=
  match s with
  | EmptyString => EmptyString
  | String c t => String (lower_ascii c) (lower t)
  end.

Definition digit_of (c : ascii) : option Z :=
  let n := nat_of_ascii c in
  if (48 <=? n)%nat && (n <=? 57)%nat then Some (Z.of_nat (n - 48)) else None.

(** Digits with at most one point: the numerator, the power of ten under it
    and whether a digit was seen. *)
Fixpoint digits (s : string) (acc : Z) (scale : positive) (frac seen : bool)
  : option (Z * positive * bool) :=
  match s with
  | EmptyString => Some (acc, scale, seen)
  | String c t =>
      if Ascii.eqb c "."%char
      then if frac then None else digits t acc scale true seen
      else
        match digit_of c with
        | Some d =>
            digits t (10 * acc + d)%Z (if frac then (10 * scale)%positive else scale)
                   frac true
        | None => None
        end
  end.

Definition unsigned_decimal (s : string) : num :=
  match digits s 0%Z 1%positive false false with
  | Some (n, d, true) => Fin (JS.qc n d)
  | _ => NaN
  end.

(** [Number(s)] on the plain decimal literals [-12], [3.5], [.5], [7.] and on
    the empty string; this reference gives NaN on every other string (it does
    not read blanks, exponents, radix prefixes or [Infinity]). *)
Definition decimal (s : string) : num :=
  match s with
  | EmptyString => JS.zero
  | String c t =>
      if Ascii.eqb c "-"%char then JS.neg (unsigned_decimal t)
      else if Ascii.eqb c "+"%char then unsigned_decimal t
      else unsigned_decimal s
  end.

(** The examples never raise a positive base to a non-integral exponent. *)
Definition runtime : Runtime :=
  {| StringToNumber := decimal;
     pow_real := fun _ _ => NaN;
     toLowerCase := lower |}.

End Reference.

(* ================================================================== *)
(** * Vocabulary of the statements                                     *)
(* ================================================================== *)

(** ** Worked inputs *)

(** The wizard as it opens on empty catalogs: adoption 0, 0.2, ..., 1, one
    empty line per category, a stack of zeros with tenure 10 and rate 7. *)
Definition initial_wizard : Wizard :=
  let zeros := List.map (fun _ => VNum n0) YEARS in
  let empties := List.map (fun _ => VStr "") YEARS in
  mkWizard (mkCatalogs [] [] [] [] []) (VNum n0)
    (mkMeta "Industrial Efficiency Project" "Power"
            (VNum (Fin (JS.qc 10 100))) (VNum (JS.of_Z 30)))
    (mapi (fun _ i => VNum (if Nat.eqb i 0 then n0 else Fin (JS.qc 2 10) * JS.of_nat i))
          YEARS)
    zeros
    [mkLine 1 "" VNull VNull (VNum n0) (VNum n0) zeros]
    [mkLine 1 "" VNull VNull (VNum n0) (VNum n0) zeros]
    [mkLine 1 "" VNull VNull (VNum n0) (VNum n0) zeros]
    [mkLine 1 "" VNull VNull (VNum n0) (VNum n0) zeros]
    [mkElecLine 1 "India" VNull (VNum n0) (VNum n0) empties zeros]
    (mkStack zeros zeros zeros zeros zeros
             (List.map (fun _ => VNum (JS.of_Z 10)) YEARS)
             (List.map (fun _ => VNum (JS.of_Z 7)) YEARS))
    false.

(** A wizard whose only driver is an other-direct series of -5 t in every
    year: the measure raises emissions. *)
Definition increasing_wizard : Wizard :=
  mkWizard (dataSources initial_wizard) (carbonPrice initial_wizard)
    (meta initial_wizard) (adoption initial_wizard)
    (List.map (fun _ => VNum (JS.of_Z (-5))) YEARS)
    (fuelLines initial_wizard) (rawLines initial_wizard)
    (transLines initial_wizard) (wasteLines initial_wizard)
    (elecLines initial_wizard) (stack initial_wizard) false.

(** A saved measure with the given cost and carbon-price fields. *)
Definition measure_with (cost_v : value) (flag : value) (cp_at_save : value)
  : Measure :=
  mkMeasure (VNum n1) "m" "Power" (VNum n1) cost_v true
            (Some (mkDetails (Some template_mode) flag cp_at_save None)).

(** Three ranked measures; the second one has a negative abatement. *)
Definition three_ranked : list Ranked :=
  [mkRanked (mkMeasure (VNum n1) "a" "Power" (VNum (JS.of_Z 30))
                       (VNum (JS.of_Z 5)) true None) (JS.of_Z 5);
   mkRanked (mkMeasure (VNum n2) "b" "Power" (VNum (JS.of_Z (-4)))
                       (VNum (JS.of_Z 6)) true None) (JS.of_Z 6);
   mkRanked (mkMeasure (VNum (JS.of_Z 3)) "c" "Power" (VNum (JS.of_Z 20))
                       (VNum (JS.of_Z 7)) true None) (JS.of_Z 7)].

(** A fuel row [{name, unit: "t", price}]. *)
Definition fuel_row (nm : string) (p : Z) : CatalogRow :=
  mkRow (Some nm) (VStr "t") (VNum (JS.of_Z p)) VUndefined VUndefined VUndefined.

(** An electricity line with an EF drift and per-year EF overrides. *)
Definition elec_line (drift : Z) (ov : list value) : ElecLine :=
  mkElecLine 1 "India" VNull (VNum n0) (VNum (JS.of_Z drift)) ov
             (List.map (fun _ => VNum n1) YEARS).

(** A line whose name no catalog has, without overrides. *)
Definition elec_row (st : string) (p : Z) (ef : Qc) : ElecRow :=
  mkElecRow (Some st) (VNum (JS.of_Z p)) VUndefined (VNum (Fin ef)).


(** ** Curve *)

Section CurveVocabulary.
Context {RT : Runtime}.

(** A ranked measure gets a segment when its abatement and cost are finite
    and the abatement is positive. *)
Definition plottable (m : Ranked) : bool :=
  Number_isFinite (num_or0 (abatement_tco2 (measure m)))
  && Number_isFinite (num_or0 (VNum (effective_cost m)))
  && (num_or0 (abatement_tco2 (measure m)) >? n0).

(** The segments that the walk appends from a cumulative abatement [cum]
    and a position [idx] on. *)
Fixpoint walk (mode : string) (ae : value) (cum : num) (idx : nat)
         (l : list Ranked) : list Segment :=
  match l with
  | [] => []
  | m :: t =>
      if plottable m
      then
        let A := num_or0 (abatement_tco2 (measure m)) in
        let denom := num_or0 ae in
        mkSegment (m_id (measure m)) (m_name (measure m)) (m_sector (measure m))
                  (plot_x mode denom cum) (plot_x mode denom (cum + Math_max n0 A))
                  (num_or0 (VNum (effective_cost m))) A
                  (nth (idx mod List.length PALETTE) PALETTE "")
          :: walk mode ae (cum + Math_max n0 A) (S idx) t
      else walk mode ae cum (S idx) t
  end.

(** Segments laid end to end from the cumulative abatement [c] on. *)
Inductive chain (mode : string) (denom : num) : Qc -> list Segment -> Prop :=
| chain_nil : forall c, chain mode denom c []
| chain_cons : forall c c' s t,
    (c <= c')%Qc ->
    x1_plot s = plot_x mode denom (Fin c) ->
    x2_plot s = plot_x mode denom (Fin c') ->
    chain mode denom c' t ->
    chain mode denom c (s :: t).

(** What a segment takes from the measure it is drawn for. *)
Definition drawn_for (s : Segment) (m : Ranked) : Prop :=
  seg_id s = m_id (measure m) /\ seg_name s = m_name (measure m) /\
  seg_sector s = m_sector (measure m) /\
  abatement s = num_or0 (abatement_tco2 (measure m)) /\
  cost s = num_or0 (VNum (effective_cost m)).

End CurveVocabulary.

(** ** Signs, kinds and intervals *)

(** A number above zero: a positive rational or [+Infinity]. *)
Definition positive (a : num) : Prop := (n0 <? a) = true.

(** Two numbers of strictly opposite sign: their product is below zero. *)
Definition opposite (a b : num) : Prop := (a * b <? n0) = true.

(** The kind of a number: finite, one of the infinities, or NaN. *)
Inductive kind : Type := KFin | KPInf | KNInf | KNaN.

Definition kind_of (a : num) : kind :=
  match a with Fin _ => KFin | PInf => KPInf | NInf => KNInf | NaN => KNaN end.

(** The middle of a rational interval. *)
Definition midpoint (lo hi : Qc) : Qc := ((lo + hi) / JS.qc 2 1)%Qc.

(** The half of an interval that contains the sign change: the lower half
    when [f] has strictly opposite signs at the lower end and at the middle,
    the upper half otherwise. *)
Definition halve (f : num -> num) (iv : Qc * Qc) : Qc * Qc :=
  let mid := midpoint (fst iv) (snd iv) in
  if f (Fin (fst iv)) * f (Fin mid) <? n0 then (fst iv, mid) else (mid, snd iv).

(** The interval after [k] halvings. *)
Fixpoint halved (f : num -> num) (k : nat) (iv : Qc * Qc) : Qc * Qc :=
  match k with
  | O => iv
  | S k' => halved f k' (halve f iv)
  end.

(** [|f(mid)| < tol] at the middle of an interval. *)
Definition within_tolerance (f : num -> num) (tol : num) (iv : Qc * Qc) : bool :=
  Math_abs (f (Fin (midpoint (fst iv) (snd iv)))) <? tol.

(** ** Interpolation *)

(** The value written at [k] between the filled cells [l] and [r]:
    [Number(s[l]) + (Number(s[r]) - Number(s[l])) / (r - l) * (k - l)]. *)
Definition interpolated {RT : Runtime} (s : list value) (l r k : nat) : value :=
  VNum (Number (index s l)
        + (Number (index s r) - Number (index s l)) / JS.of_nat (r - l)
          * JS.of_nat (k - l)).

Section InterpolationVocabulary.
Context {RT : Runtime}.
Variable s : list value.

Definition filled_at (k : nat) : Prop := skipped (index s k) = false.
Definition skipped_at (k : nat) : Prop := skipped (index s k) = true.

(** What holds of the state (t, last) once the outer loop has handled the
    indices below [i]. *)
Record interp_inv (i : nat) (t : list value) (last : option nat) : Prop := {
  inv_length : List.length t = List.length s;
  inv_last :
    match last with
    | None => forall j, (j < i)%nat -> skipped_at j
    | Some l => (l < i)%nat /\ filled_at l /\
                forall j, (l < j < i)%nat -> skipped_at j
    end;
  inv_untouched :
    forall k, match last with Some l => (l <= k)%nat | None => True end ->
              index t k = index s k;
  inv_filled : forall k, filled_at k -> index t k = index s k;
  inv_gaps :
    forall l r, (l < r)%nat -> (r < i)%nat -> filled_at l -> filled_at r ->
                (forall j, (l < j < r)%nat -> skipped_at j) ->
                forall k, (l < k < r)%nat -> index t k = interpolated s l r k;
  inv_rest :
    forall k, (forall l r, (l < k < r)%nat -> (r < i)%nat ->
                           filled_at l -> filled_at r -> False) ->
              index t k = index s k
}.

End InterpolationVocabulary.

(** Equality tests that decide Leibniz equality (NaN is the same as NaN). *)
Definition same_num (a b : num) : bool :=
  match a, b with
  | NaN, NaN => true
  | _, _ => JS.num_eqb a b
  end.

Definition same_value (a b : value) : bool :=
  match a, b with
  | VUndefined, VUndefined | VNull, VNull => true
  | VBool x, VBool y => Bool.eqb x y
  | VNum x, VNum y => same_num x y
  | VStr x, VStr y => String.eqb x y
  | _, _ => false
  end.

Fixpoint same_values (l l' : list value) : bool :=
  match l, l' with
  | [], [] => true
  | x :: t, y :: t' => same_value x y && same_values t t'
  | _, _ => false
  end.

(** ** Merged catalogs *)

Section MergeVocabulary.
Context {RT : Runtime}.
Variable A : Type.
Variable key : A -> option string.

Definition mem (k : string) (ks : list string) : bool :=
  existsb (String.eqb k) ks.



Definition stored_under (k : string) (x : A) : bool :=
  match row_key key x with Some k' => String.eqb k' k | None => false end.

(** The last row of [arr] that is stored under [k]. *)
Fixpoint last_with (k : string) (arr : list A) : option A :=
  match arr with
  | [] => None
  | x :: t => or_row (last_with k t) (if stored_under k x then Some x else None)
  end.

(** [map.get(k)]. *)
Fixpoint map_get (m : jsmap A) (k : string) : option A :=
  match m with
  | [] => None
  | (k', v) :: t => if String.eqb k' k then Some v else map_get t k
  end.

Definition map_keys (m : jsmap A) : list string := List.map fst m.

(** A map whose keys are distinct and whose rows sit under their own key. *)
Definition well_keyed (m : jsmap A) : Prop :=
  NoDup (map_keys m) /\ forall k x, In (k, x) m -> row_key key x = Some k.

(** The final map of [mergedBy]. *)
Definition merged_map (arrA arrB : list A) : jsmap A :=
  set_all key (set_all key [] arrA) arrB.

End MergeVocabulary.

(** ** Quadratic fit *)

(** The exact quadratic [y = 2 + 3x - x^2]. *)
Definition exact_quadratic (x : Qc) : Qc :=
  (JS.qc 2 1 + JS.qc 3 1 * x - x * x)%Qc.

(** The determinant [D] of the normal equations that [quadraticFit] tests,
    in the arithmetic [A]. *)
Definition fit_determinant {T : Type} (A : Arithmetic T) (xs ys : list T) : T :=
  let s := power_sums A xs ys in
  let nn := ar_of_nat A (List.length xs) in
  det A ((nn, Sx s, Sx2 s), (Sx s, Sx2 s, Sx3 s), (Sx2 s, Sx3 s, Sx4 s)).




(* ================================================================== *)
(** * Further functions of [src/MACCApp.jsx]                           *)
(* ================================================================== *)

(** ** CSV text: [csvToJson] and [jsonToCsv]

    A string is a list of code units below 256, so a text never starts with
    the byte order mark that [csvToJson] removes. *)

Definition dquote : ascii := "034"%char.
Definition comma : ascii := ","%char.
Definition newline : ascii := "010"%char.
Definition carriage_return : ascii := "013"%char.

(** [cur += ch]. *)
Definition push_char (cur : string) (ch : ascii) : string :=
  (cur ++ String ch EmptyString)%string.

(** [clean.split(/\r?\n/)]: the pieces between the line feeds, with [cur] the
    piece being read; a carriage return right before a line feed goes with
    it. *)
Fixpoint split_lines (s : string) (cur : string) : list string :=
  match s with
  | EmptyString => [cur]
  | String c rest =>
      if Ascii.eqb c newline then cur :: split_lines rest EmptyString
      else if Ascii.eqb c carriage_return then
        match rest with
        | String c2 rest2 =>
            if Ascii.eqb c2 newline then cur :: split_lines rest2 EmptyString
            else split_lines rest (push_char cur c)
        | EmptyString => split_lines rest (push_char cur c)
        end
      else split_lines rest (push_char cur c)
  end.


(** The [for] loop of [parseLine] on the rest of the line, with the state
    (result, cur, inQuotes); after the loop [cur] is pushed.  A quote inside
    quotes that is followed by a quote gives one quote and skips the second
    ([i++]); any other quote flips [inQuotes]. *)
Fixpoint parse_chars (line : string) (result : list string) (cur : string)
         (inQuotes : bool) : list string :=
  match line with
  | EmptyString => (result ++ [cur])%list
  | String ch rest =>
      if Ascii.eqb ch dquote then
        if inQuotes then
          match rest with
          | String ch2 rest2 =>
              if Ascii.eqb ch2 dquote
              then parse_chars rest2 result (push_char cur dquote) inQuotes
              else parse_chars rest result cur (negb inQuotes)
          | EmptyString => parse_chars rest result cur (negb inQuotes)
          end
        else parse_chars rest result cur (negb inQuotes)
      else if Ascii.eqb ch comma && negb inQuotes
           then parse_chars rest (result ++ [cur])%list EmptyString inQuotes
           else parse_chars rest result (push_char cur ch) inQuotes
  end.

Section Csv.
(** [s.trim()] of the runtime. *)
Variable trim : string -> string.

Definition parseLine (line : string) : list string :=
  List.map trim (parse_chars line [] EmptyString false).

(** [lines]: the pieces of the text that are not blank. *)
Definition csv_lines (text : string) : list string :=
  filter (fun ln => negb (Nat.eqb (String.length (trim ln)) 0))
         (split_lines text EmptyString).

(** [headers.forEach((h, i) => obj[h] = cells[i] !== undefined ? cells[i] : "")]:
    the assignments to the row object, in the order in which they are made. *)
Definition row_assignments (headers cells : list string) : list (string * string) :=
  mapi (fun h i => (h, nth i cells EmptyString)) headers.

(** The rows of [csvToJson], each as the assignments that build its object,
    before the [details] cell is handed to [JSON.parse]. *)
Definition csvToJson_rows (text : string) : list (list (string * string)) :=
  match csv_lines text with
  | [] => []
  | first :: rest =>
      let headers := parseLine first in
      List.map (fun line => row_assignments headers (parseLine line)) rest
  end.

End Csv.

(** The test of [esc]: the cell holds a quote, a comma or a line feed. *)
Fixpoint needs_quotes (s : string) : bool :=
  match s with
  | EmptyString => false
  | String c t =>
      Ascii.eqb c dquote || Ascii.eqb c comma || Ascii.eqb c newline
      || needs_quotes t
  end.

(** The [replace] of [esc]: every quote is written twice. *)
Fixpoint double_quotes (s : string) : string :=
  match s with
  | EmptyString => EmptyString
  | String c t =>
      if Ascii.eqb c dquote
      then String dquote (String dquote (double_quotes t))
      else String c (double_quotes t)
  end.

(** [esc(v)] for a cell that is a string, or null or undefined ([None]). *)
Definition esc (v : option string) : string :=
  match v with
  | None => EmptyString
  | Some s =>
      if needs_quotes s
      then String dquote (double_quotes s ++ String dquote EmptyString)%string
      else s
  end.

(** [cells.join(",")]. *)
Fixpoint join_comma (cells : list string) : string :=
  match cells with
  | [] => EmptyString
  | [x] => x
  | x :: t => (x ++ String comma (join_comma t))%string
  end.

(** [headers.map((h) => esc(row[h])).join(",")]. *)
Definition csv_line (cells : list (option string)) : string :=
  join_comma (List.map esc cells).

(** [lines.join("\n")]. *)
Fixpoint join_newline (lines : list string) : string :=
  match lines with
  | [] => EmptyString
  | [x] => x
  | x :: t => (x ++ String newline (join_newline t))%string
  end.

(** The text of [jsonToCsv] for the header names [Object.keys(processedArr[0])]
    and, for each row, the cells [row[h]] in the order of the headers, each
    cell being the string [String(v)] or null or undefined ([None]):
    [headerLine + "\n" + body], and the empty text when there is no row. *)
Definition jsonToCsv_text (headers : list string) (rows : list (list (option string)))
  : string :=
  match rows with
  | [] => EmptyString
  | _ =>
      let headerLine := csv_line (List.map Some headers) in
      let body := join_newline (List.map csv_line rows) in
      (headerLine ++ String newline body)%string
  end.


(** ** [normalizeFRTW] and [normalizeElec] *)

(** A catalog row as imported, with the alias fields the normalisers read. *)
Record RawRow : Type := mkRawRow {
  r_name : option string;
  r_fuel : option string;
  r_material : option string;
  r_transport : option string;
  r_item : option string;
  r_unit : value;
  r_price_per_unit_inr : value;
  r_price_per_unit : value;
  r_price : value;
  r_ef_tco2_per_unit : value;
  r_ef_t_per_unit : value;
  r_ef_t : value
}.

Record RawElecRow : Type := mkRawElecRow {
  r_state : option string;
  r_region : option string;
  r_grid : option string;
  r_price_per_mwh_inr : value;
  r_price_per_mwh : value;
  r_elec_price : value;
  r_ef_tco2_per_mwh : value;
  r_ef_t_per_mwh : value;
  r_elec_ef_t : value
}.

(** [a ?? b] on names. *)
Definition or_name (a b : option string) : option string :=
  match a with Some _ => a | None => b end.

Section Normalize.
Context {RT : Runtime}.

(** The result has the four properties name, unit, price_per_unit_inr and
    ef_tco2_per_unit; [price] and [ef_t_per_unit] are absent. *)
Definition normalizeFRTW (row : RawRow) : CatalogRow :=
  mkRow
    (or_name (r_name row)
       (or_name (r_fuel row)
          (or_name (r_material row)
             (or_name (r_transport row)
                (or_name (r_item row) (Some EmptyString))))))
    (r_unit row ?? VStr EmptyString)
    VUndefined
    (VNum (Number (r_price_per_unit_inr row ?? r_price_per_unit row
                   ?? r_price row ?? VNum n0)))
    (VNum (Number (r_ef_tco2_per_unit row ?? r_ef_t_per_unit row
                   ?? r_ef_t row ?? VNum n0)))
    VUndefined.

Definition normalizeElec (row : RawElecRow) : ElecRow :=
  mkElecRow
    (or_name (r_state row)
       (or_name (r_region row) (or_name (r_grid row) (Some EmptyString))))
    VUndefined
    (VNum (Number (r_price_per_mwh_inr row ?? r_price_per_mwh row
                   ?? r_elec_price row ?? VNum n0)))
    (VNum (Number (r_ef_tco2_per_mwh row ?? r_ef_t_per_mwh row
                   ?? r_elec_ef_t row ?? VNum (Fin (JS.qc 710 1000))))).

End Normalize.

(** A catalog row read as the input of a normaliser: each property under
    its own name, the aliases it does not have undefined. *)
Definition raw_of_row (r : CatalogRow) : RawRow :=
  mkRawRow (name r) None None None None (unit r)
           (price_per_unit_inr r) VUndefined (price r)
           (ef_tco2_per_unit r) (ef_t_per_unit r) VUndefined.

Definition raw_of_elec_row (r : ElecRow) : RawElecRow :=
  mkRawElecRow (state r) None None
               (price_per_mwh_inr r) (price_per_mwh r) VUndefined
               (ef_tco2_per_mwh r) VUndefined VUndefined.

(** ** Line lists of the wizard: [addLine], [removeLine], [updateLine],
       [setSeries] *)

Section LineLists.
(** The lines, the samples (lines without an id) and
    [{ id: nextId, ...sample }]. *)
Variables (L Smp : Type).
Variable line_id : L -> nat.
Variable with_id : nat -> Smp -> L.

(** [Math.max(0, ...list.map(l => l.id))]. *)
Definition max_id (lines : list L) : nat :=
  fold_left Nat.max (List.map line_id lines) 0%nat.

Definition addLine (lines : list L) (sample : Smp) : list L :=
  (lines ++ [with_id (max_id lines + 1) sample])%list.

Definition removeLine (lines : list L) (id : nat) : list L :=
  filter (fun l => negb (Nat.eqb (line_id l) id)) lines.

(** [patch] is the effect of [{ ...l, ...patch }] on a line. *)
Definition updateLine (lines : list L) (id : nat) (patch : L -> L) : list L :=
  List.map (fun l => if Nat.eqb (line_id l) id then patch l else l) lines.

End LineLists.

(** A fuel, raw, transport or waste sample with the id put in front. *)
Definition driver_with_id (id : nat) (sample : DriverLine) : DriverLine :=
  mkLine id (ln_name sample) (priceOv sample) (efOv sample)
         (priceEscPctYr sample) (efEscPctYr sample) (delta sample).

(** [const out = [...arr]; out[idx] = val]: an index past the end leaves
    holes, which read as undefined. *)
Fixpoint setSeries (arr : list value) (idx : nat) (val : value) : list value :=
  match arr, idx with
  | [], O => [val]
  | [], S i => VUndefined :: setSeries [] i val
  | _ :: t, O => val :: t
  | x :: t, S i => x :: setSeries t i val
  end.

(** ** The override inputs of a raw material line *)

(** [e.target.value === "" ? null : Number(e.target.value)]. *)
Definition override_of_input {RT : Runtime} (text : string) : value :=
  if is_empty_string text then VNull else VNum (Number (VStr text)).

(** [{ ...l, priceOv: v }] and [{ ...l, efOv: v }]. *)
Definition set_priceOv (v : value) (l : DriverLine) : DriverLine :=
  mkLine (ln_id l) (ln_name l) v (efOv l) (priceEscPctYr l) (efEscPctYr l)
         (delta l).

Definition set_efOv (v : value) (l : DriverLine) : DriverLine :=
  mkLine (ln_id l) (ln_name l) (priceOv l) v (priceEscPctYr l) (efEscPctYr l)
         (delta l).

(** [setFuelLines(lines)] on the state of the wizard. *)
Definition setFuelLines (w : Wizard) (lines : list DriverLine) : Wizard :=
  mkWizard (dataSources w) (carbonPrice w) (meta w) (adoption w) (otherDirectT w)
           lines (rawLines w) (transLines w) (wasteLines w) (elecLines w)
           (stack w) (applyCarbonPriceInSave w).

(** The [onChange] handlers of the "Price override" and "EF override"
    inputs in the block of the raw material line [ln]: both call
    [updateLine(fuelLines, setFuelLines, ln.id, ...)]. *)
Definition raw_priceOv_onChange {RT : Runtime} (w : Wizard) (ln : DriverLine)
           (text : string) : Wizard :=
  setFuelLines w (updateLine ln_id (fuelLines w) (ln_id ln)
                             (set_priceOv (override_of_input text))).

Definition raw_efOv_onChange {RT : Runtime} (w : Wizard) (ln : DriverLine)
           (text : string) : Wizard :=
  setFuelLines w (updateLine ln_id (fuelLines w) (ln_id ln)
                             (set_efOv (override_of_input text))).

(** ** [saveWizard] *)

(** [a === b]. *)
Definition strict_equal (a b : value) : bool :=
  match a, b with
  | VUndefined, VUndefined | VNull, VNull => true
  | VBool x, VBool y => Bool.eqb x y
  | VNum x, VNum y => JS.num_eqb x y
  | VStr x, VStr y => String.eqb x y
  | _, _ => false
  end.

Section SaveWizard.
Context {RT : Runtime}.

(** [Math.max(0, ...measures.map(m => m.id)) + 1]. *)
Definition next_measure_id (measures : list Measure) : num :=
  fold_left (fun acc m => Math_max acc (Number (m_id m))) measures n0 + n1.

(** [{ id, ...obj }]: the object that the wizard hands over always has an
    [id] property of its own ([id: initialMeasure?.id], undefined for a new
    measure), and a spread property replaces the one written before it. *)
Definition spread_over_id (id : num) (obj : Measure) : Measure := obj.

(** [{ ...m, ...obj }]: [obj] has every property of a measure. *)
Definition spread_over (m obj : Measure) : Measure := obj.

Definition saveWizard (measures : list Measure) (obj : Measure) : list Measure :=
  if negb (is_nullish (m_id obj))
  then List.map (fun m => if strict_equal (m_id m) (m_id obj)
                          then spread_over m obj else m) measures
  else (measures ++ [spread_over_id (next_measure_id measures) obj])%list.

End SaveWizard.

(** ** [maccData], [budgetToTarget], [totalWidth] and [yDomain] *)

Record Point : Type := mkPoint {
  pt_id : value;
  pt_name : string;
  pt_sector : string;
  pt_abatement : num;
  pt_cost : num;
  pt_cumAbate : num;
  pt_x : num
}.

Record Budget : Type := mkBudget {
  targetReached : num;
  budget : num
}.

Section Target.
Context {RT : Runtime}.

(** The body of [for (const m of sorted)] in [maccData], on the state
    (cumAbate, points). *)
Definition maccData_step (mode : string) (annual_emissions : value)
           (st : num * list Point) (m : Ranked) : num * list Point :=
  let '(cumAbate, points) := st in
  let A := num_or0 (abatement_tco2 (measure m)) in
  let C := num_or0 (VNum (effective_cost m)) in
  let cumAbate := cumAbate + Math_max n0 A in
  let xCapacity := cumAbate in
  let xIntensityPct :=
    if Number annual_emissions >? n0
    then (cumAbate / Number annual_emissions) * n100 else n0 in
  let x := if String.eqb mode "capacity" then xCapacity else xIntensityPct in
  (cumAbate,
   (points ++ [mkPoint (m_id (measure m)) (m_name (measure m))
                       (m_sector (measure m)) A C cumAbate x])%list).

Definition maccData (sorted : list Ranked) (mode : string)
           (annual_emissions : value) : list Point :=
  snd (fold_left (maccData_step mode annual_emissions) sorted (n0, [])).

(** [targetX] of [budgetToTarget]; it is only used under [targetX - cum]. *)
Definition budget_targetX (mode : string) (annual_emissions : value)
           (targetIntensityPct : value) : num :=
  if String.eqb mode "capacity"
  then Number annual_emissions * (Number targetIntensityPct / n100)
  else Number targetIntensityPct.

(** The body of [for (const p of maccData)] on the state
    (cum, budget, reached). *)
Definition budget_step (mode : string) (annual_emissions : value) (targetX : num)
           (st : num * num * num) (p : Point) : num * num * num :=
  let '(cum, budget, reached) := st in
  let remaining := Math_max n0 (targetX - cum) in
  let take := Math_min remaining (pt_abatement p) in
  if take >? n0
  then
    let budget := budget + take * pt_cost p in
    let cum := cum + take in
    (cum, budget,
     if String.eqb mode "capacity" then cum
     else cum / Number annual_emissions * n100)
  else st.

Definition budgetToTarget (maccData : list Point) (mode : string)
           (annual_emissions : value) (targetIntensityPct : value) : Budget :=
  match maccData with
  | [] => mkBudget n0 n0
  | _ =>
      let targetX := budget_targetX mode annual_emissions targetIntensityPct in
      let '(cum, budget, reached) :=
        fold_left (budget_step mode annual_emissions targetX) maccData
                  (n0, n0, n0) in
      let maxPossible :=
        if String.eqb mode "capacity" then cum
        else if Number annual_emissions >? n0
             then (cum / Number annual_emissions) * n100 else n0 in
      mkBudget (Math_min reached maxPossible) budget
  end.

(** [mode === 'capacity' ? (totalX > 0 ? totalX : 1)
                         : Math.max(100, totalX || 1)]. *)
Definition totalWidth (mode : string) (totalX : num) : num :=
  if String.eqb mode "capacity"
  then if totalX >? n0 then totalX else n1
  else Math_max n100 (Number (VNum totalX ||| VNum n1)).

(** The second point of [axisData]: [totalWidth > 0 ? totalWidth : 1]. *)
Definition axis_end (totalWidth : num) : num :=
  if totalWidth >? n0 then totalWidth else n1.

(** [Number(s.cost) || 0]. *)
Definition cost_or0 (s : Segment) : num :=
  Number (VNum (cost s) ||| VNum n0).

Definition yDomain (segments : list Segment) : num * num :=
  match segments with
  | [] => (n0, n1)
  | _ =>
      let ys := List.map cost_or0 segments in
      let minY := fold_left Math_min ys n0 in
      let maxY := fold_left Math_max ys n0 in
      if JS.num_eqb minY maxY then (minY - n1, maxY + n1) else (minY, maxY)
  end.

End Target.

(* ================================================================== *)
(** * Vocabulary of the further statements                             *)
(* ================================================================== *)

(** The balance of a loan of 1 after [k] yearly payments of [f], when the
    balance grows by the rate [R] each year before the payment is taken off. *)
Fixpoint loan_balance (R f : Qc) (k : nat) : Qc :=
  match k with
  | O => Q2Qc 1
  | S k' => (loan_balance R f k' * (Q2Qc 1 + R) - f)%Qc
  end.

(** Between any two filled cells of [s] every cell is filled. *)
Definition gap_free {RT : Runtime} (s : list value) : Prop :=
  forall l k r, (l < k < r)%nat -> filled_at s l -> filled_at s r -> filled_at s k.

(** The number that the comparator of [sorted] reads off a measure. *)
Definition cost_key {RT : Runtime} (r : Ranked) : num :=
  num_or0 (VNum (effective_cost r)).

(** [b] is not strictly cheaper than [a]. *)
Definition ascending {RT : Runtime} (a b : Ranked) : Prop :=
  (cost_key b <? cost_key a) = false.

(** The measures that have the key [k]. *)
Definition with_key {RT : Runtime} (k : num) (l : list Ranked) : list Ranked :=
  filter (fun r => same_num (cost_key r) k) l.

(** The sum of the abatements of a list of segments, from [c] on. *)
Definition abatement_from (c : num) (segs : list Segment) : num :=
  fold_left (fun acc s => acc + abatement s) segs c.

(** A point of [maccData] at the right end of a segment of the curve. *)
Definition at_segment_end (p : Point) (s : Segment) : Prop :=
  pt_id p = seg_id s /\ pt_name p = seg_name s /\ pt_sector p = seg_sector s /\
  pt_abatement p = abatement s /\ pt_cost p = cost s /\ pt_x p = x2_plot s.

(** The points that [maccData] appends from a cumulative abatement on. *)
Fixpoint points_from {RT : Runtime} (mode : string) (ae : value) (cum : num)
         (l : list Ranked) : list Point :=
  match l with
  | [] => []
  | m :: t =>
      let st := maccData_step mode ae (cum, []) m in
      (snd st ++ points_from mode ae (fst st) t)%list
  end.

(** The abatement that the points offer: the sum of [Math.max(0, abatement)]. *)
Definition offered {RT : Runtime} (pts : list Point) : num :=
  fold_left (fun s p => s + Math_max n0 (pt_abatement p)) pts n0.

(** [reached] of [budgetToTarget] as a function of [cum]. *)
Definition reached_of {RT : Runtime} (mode : string) (ae : value) (cum : num)
  : num :=
  if String.eqb mode "capacity" then cum else cum / Number ae * n100.

(** Minimum and maximum of two rationals, by the tests of [Math.min] and
    [Math.max]. *)
Definition qmin (x y : Qc) : Qc := if Qc_ltb y x then y else x.
Definition qmax (x y : Qc) : Qc := if Qc_ltb x y then y else x.

(** A number that is not NaN and not above 0, and one not below 0. *)
Definition at_most_zero (a : num) : Prop := (a <=? n0) = true.
Definition at_least_zero (a : num) : Prop := (n0 <=? a) = true.

(** The wizard with the box "include the carbon price in the saved cost"
    set to [b]. *)
Definition with_flag (w : Wizard) (b : bool) : Wizard :=
  mkWizard (dataSources w) (carbonPrice w) (meta w) (adoption w) (otherDirectT w)
           (fuelLines w) (rawLines w) (transLines w) (wasteLines w) (elecLines w)
           (stack w) b.

(** A wizard whose only driver is an other-direct series of 5 t in every
    year, with an operating cost of 2 crore a year and a carbon price of 100. *)
Definition reducing_wizard : Wizard :=
  mkWizard (dataSources initial_wizard) (VNum (JS.of_Z 100))
    (meta initial_wizard) (adoption initial_wizard)
    (List.map (fun _ => VNum (JS.of_Z 5)) YEARS)
    (fuelLines initial_wizard) (rawLines initial_wizard)
    (transLines initial_wizard) (wasteLines initial_wizard)
    (elecLines initial_wizard)
    (mkStack (List.map (fun _ => VNum (JS.of_Z 2)) YEARS)
             (savings_cr (stack initial_wizard)) (other_cr (stack initial_wizard))
             (capex_upfront_cr (stack initial_wizard))
             (capex_financed_cr (stack initial_wizard))
             (financing_tenure_years (stack initial_wizard))
             (interest_rate_pct (stack initial_wizard)))
    false.

(** The text of a cell: [String(v)], and the empty string for null and
    undefined. *)
Definition cell_text (v : option string) : string :=
  match v with Some s => s | None => EmptyString end.

(** The rest of a line after a cell: nothing, or a comma and more. *)
(** The text holds a line feed or a carriage return. *)
Fixpoint has_break (s : string) : bool :=
  match s with
  | EmptyString => false
  | String c t =>
      Ascii.eqb c newline || Ascii.eqb c carriage_return || has_break t
  end.

(** The test of the filter of [csvToJson]: nothing is left of the line when
    it is trimmed. *)
Definition blank (trim : string -> string) (line : string) : bool :=
  Nat.eqb (String.length (trim line)) 0.

(** [trim] on code units below 256: tab, line feed, vertical tab, form feed,
    carriage return, space and no-break space are white space. *)
Definition is_space (c : ascii) : bool :=
  let n := nat_of_ascii c in
  ((9 <=? n)%nat && (n <=? 13)%nat) || (n =? 32)%nat || (n =? 160)%nat.

Fixpoint trim_start (s : string) : string :=
  match s with
  | EmptyString => EmptyString
  | String c t => if is_space c then trim_start t else s
  end.

Fixpoint trim_end (s : string) : string :=
  match s with
  | EmptyString => EmptyString
  | String c t =>
      match trim_end t with
      | EmptyString => if is_space c then EmptyString else String c EmptyString
      | r => String c r
      end
  end.

Definition trim_ascii (s : string) : string := trim_end (trim_start s).

Definition cell_end (rest : string) : Prop :=
  rest = EmptyString \/ exists t, rest = String comma t.


(* ================================================================== *)
(** * Arithmetic of [num]                                              *)
(* ================================================================== *)

Section NumFacts.

Local Open Scope Qc_scope.

Lemma this_Q2Qc (q : Q) : (this (Q2Qc q) == q)%Q.
Proof. unfold Q2Qc. cbn [this]. apply Qred_correct. Qed.

Lemma this_plus (a b : Qc) : (this (a + b) == this a + this b)%Q.
Proof. apply this_Q2Qc. Qed.

Lemma this_mult (a b : Qc) : (this (a * b) == this a * this b)%Q.
Proof. apply this_Q2Qc. Qed.

Lemma this_opp (a : Qc) : (this (- a) == - this a)%Q.
Proof. apply this_Q2Qc. Qed.

Lemma this_minus (a b : Qc) : (this (a - b) == this a - this b)%Q.
Proof. unfold Qcminus. rewrite this_plus, this_opp. reflexivity. Qed.

Lemma this_inv (a : Qc) : (this (/ a) == / this a)%Q.
Proof. apply this_Q2Qc. Qed.

Lemma this_div (a b : Qc) : (this (a / b) == this a / this b)%Q.
Proof. unfold Qcdiv. rewrite this_mult, this_inv. reflexivity. Qed.

Lemma Qc_ltb_lt (a b : Qc) : Qc_ltb a b = true <-> a < b.
Proof.
  unfold Qc_ltb. rewrite Qclt_alt.
  destruct (a ?= b); split; congruence.
Qed.

Lemma Qc_ltb_ge (a b : Qc) : Qc_ltb a b = false <-> b <= a.
Proof.
  split; intro H.
  - apply Qcnot_lt_le. intro L. apply Qc_ltb_lt in L. congruence.
  - destruct (Qc_ltb a b) eqn:E; [|reflexivity].
    apply Qc_ltb_lt in E. exfalso. exact (Qcle_not_lt _ _ H E).
Qed.

Lemma Qc_eqb_eq (a b : Qc) : Qc_eqb a b = true <-> a = b.
Proof.
  unfold Qc_eqb. rewrite Qceq_alt.
  destruct (a ?= b); split; congruence.
Qed.

Lemma Qc_eqb_neq (a b : Qc) : Qc_eqb a b = false <-> a <> b.
Proof.
  split; intro H.
  - intro E. apply Qc_eqb_eq in E. congruence.
  - destruct (Qc_eqb a b) eqn:E; [|reflexivity].
    apply Qc_eqb_eq in E. contradiction.
Qed.

Lemma Qc_eqb_refl (a : Qc) : Qc_eqb a a = true.
Proof. apply Qc_eqb_eq. reflexivity. Qed.

Lemma num_eqb_eq (a b : num) : num_eqb a b = true -> a = b.
Proof.
  destruct a, b; simpl; try discriminate; try reflexivity.
  intro H. apply Qc_eqb_eq in H. now subst.
Qed.

End NumFacts.

(** Turns a goal on [Qc] into one on [Q] over the atoms [this x]. *)
Ltac qc_to_q :=
  unfold Qclt, Qcle in *;
  repeat (rewrite ?this_plus, ?this_mult, ?this_minus, ?this_opp,
            ?this_div, ?this_inv, ?this_Q2Qc in * ).

(* ================================================================== *)
(** * Representative year                                              *)
(* ================================================================== *)

Section FindIndex.
Variable A : Type.
Variable p : A -> bool.

Lemma findIndex_first (l : list A) (i : nat) (y : A) :
  nth_error l i = Some y -> p y = true ->
  (forall j y', (j < i)%nat -> nth_error l j = Some y' -> p y' = false) ->
  findIndex p l = Some i.
Proof.
  revert i. induction l as [|x t IH]; intros i Hi Hp Hbefore.
  - destruct i; discriminate.
  - destruct i as [|i]; simpl in *.
    + injection Hi as ->. now rewrite Hp.
    + rewrite (Hbefore O x) by (lia || reflexivity).
      rewrite (IH i Hi Hp); [reflexivity|].
      intros j y' Hj Hn. apply (Hbefore (S j) y'); [lia | exact Hn].
Qed.

Lemma findIndex_none (l : list A) :
  (forall y, In y l -> p y = false) -> findIndex p l = None.
Proof.
  induction l as [|x t IH]; intro H; simpl; [reflexivity|].
  rewrite (H x) by now left.
  rewrite IH; [reflexivity|]. intros y Hy. apply H. now right.
Qed.

Lemma findIndex_some (l : list A) (i : nat) :
  findIndex p l = Some i ->
  exists y, nth_error l i = Some y /\ p y = true /\
            forall j y', (j < i)%nat -> nth_error l j = Some y' -> p y' = false.
Proof.
  revert i. induction l as [|x t IH]; intros i H; simpl in H; [discriminate|].
  destruct (p x) eqn:Px.
  - injection H as <-. exists x. repeat split; auto. intros j y' Hj. lia.
  - destruct (findIndex p t) as [k|] eqn:F; [|discriminate].
    injection H as <-. destruct (IH k eq_refl) as (y & Hy & Hp & Hb).
    exists y. repeat split; auto.
    intros [|j] y' Hj Hn; simpl in Hn.
    + now injection Hn as <-.
    + apply (Hb j y'); [lia | exact Hn].
Qed.

End FindIndex.

Lemma indexOf_first (l : list Z) (y : Z) (j : nat) :
  nth_error l j = Some y ->
  (forall k, (k < j)%nat -> nth_error l k <> Some y) ->
  indexOf l y = Some j.
Proof.
  intros Hj Hb. unfold indexOf.
  apply findIndex_first with (y := y); auto.
  - apply Z.eqb_refl.
  - intros k y' Hk Hn. apply Z.eqb_neq. intro E. subst y'.
    exact (Hb k Hk Hn).
Qed.

Lemma indexOf_absent (l : list Z) (y : Z) : ~ In y l -> indexOf l y = None.
Proof.
  intro H. unfold indexOf. apply findIndex_none.
  intros z Hz. apply Z.eqb_neq. intro E. subst z. contradiction.
Qed.

(** C1.  The representative index of every computation is the first index
    whose [direct_t] is positive; when no year has a positive [direct_t] it is
    the index of 2035 in the year list if 2035 is there, and the floor of half
    the length otherwise; for the source's six years and a [direct_t] that is
    zero in every year it is 2. *)
Theorem representative_index_policy (RT : Runtime) :
  (forall (YEARS : list Z) (BASE_YEAR : Z) (w : Wizard),
     let c := computed_for YEARS BASE_YEAR w in
     (forall i y,
         nth_error (perYear c) i = Some y ->
         (direct_t y >? n0) = true ->
         (forall j y', (j < i)%nat -> nth_error (perYear c) j = Some y' ->
                       (direct_t y' >? n0) = false) ->
         repIdx c = i)
     /\ ((forall y, In y (perYear c) -> (direct_t y >? n0) = false) ->
         (forall j, nth_error YEARS j = Some 2035%Z ->
                    (forall k, (k < j)%nat -> nth_error YEARS k <> Some 2035%Z) ->
                    repIdx c = j)
         /\ (~ In 2035%Z YEARS -> repIdx c = (List.length YEARS / 2)%nat)))
  /\ (forall w : Wizard,
        (forall y, In y (perYear (computed w)) -> direct_t y = n0) ->
        repIdx (computed w) = 2%nat).
Proof.
  split.
  - intros Ys B w c. split.
    + intros i y Hi Hp Hb. unfold c, computed_for in *. cbn [repIdx perYear] in *.
      unfold rep_index.
      now rewrite (findIndex_first (fun y => direct_t y >? n0) _ Hi Hp Hb).
    + intro Hnone. unfold c, computed_for in *. cbn [repIdx perYear] in *.
      unfold rep_index.
      rewrite findIndex_none by exact Hnone.
      split.
      * intros j Hj Hb. now rewrite (indexOf_first _ Hj Hb).
      * intro Hno. now rewrite indexOf_absent.
  - intros w Hz. unfold computed, computed_for in *. cbn [repIdx perYear] in *.
    unfold rep_index.
    rewrite findIndex_none.
    + reflexivity.
    + intros y Hy. rewrite (Hz y Hy). reflexivity.
Qed.

Lemma representative_index_policy_witness :
  repIdx (@computed Reference.runtime initial_wizard) = 2%nat.
Proof.
  apply (proj2 (representative_index_policy Reference.runtime)).
  intros y Hy. apply num_eqb_eq.
  unfold computed, computed_for, mapi, YEARS in Hy.
  cbn [perYear mapi_from In] in Hy.
  repeat (destruct Hy as [<- | Hy]; [vm_compute; reflexivity|]).
  contradiction.
Defined.

(* ================================================================== *)
(** * What [saveTemplate] stores                                       *)
(* ================================================================== *)

Section SaveFacts.
Context {RT : Runtime}.

Lemma mapi_from_length (A B : Type) (f : A -> nat -> B) (l : list A) (i : nat) :
  List.length (mapi_from f i l) = List.length l.
Proof. revert i. induction l; intro i; simpl; [reflexivity | now rewrite IHl]. Qed.

Lemma perYear_length (w : Wizard) :
  List.length (perYear (computed w)) = 6%nat.
Proof.
  unfold computed, computed_for. cbn [perYear]. unfold mapi.
  now rewrite mapi_from_length.
Qed.

Lemma findIndex_lt (A : Type) (p : A -> bool) (l : list A) (i : nat) :
  findIndex p l = Some i -> (i < List.length l)%nat.
Proof.
  intro H. destruct (findIndex_some _ _ H) as (y & Hy & _).
  apply nth_error_Some. congruence.
Qed.

(** With the six years of the source the representative index always points
    into [perYear]. *)
Lemma repIdx_in_range (w : Wizard) :
  (repIdx (computed w) < List.length (perYear (computed w)))%nat.
Proof.
  rewrite perYear_length.
  unfold computed, computed_for. cbn [repIdx]. unfold rep_index.
  destruct (findIndex _ _) as [i|] eqn:F.
  - apply findIndex_lt in F. unfold mapi in F.
    rewrite mapi_from_length in F. exact F.
  - cbv. lia.
Qed.

Lemma rep_is_entry (w : Wizard) :
  exists y,
    nth_error (perYear (computed w)) (repIdx (computed w)) = Some y /\
    rep (computed w) =
      mkRep (direct_t y) (implied_cost_per_t_wo y) (implied_cost_per_t_w y).
Proof.
  destruct (nth_error (perYear (computed w)) (repIdx (computed w))) as [y|] eqn:E.
  - exists y. split; [reflexivity|].
    unfold computed, computed_for in *. cbn [rep repIdx perYear] in *.
    unfold rep_of. now rewrite E.
  - apply nth_error_None in E. pose proof (repIdx_in_range w). lia.
Qed.

End SaveFacts.

(** C2, as the code has it.  A measure saved from the template wizard stores
    the clamped abatement [Math.max(0, direct_t)] of the representative-year
    entry of its [per_year] (that entry's [direct_t] itself when it is
    positive) and, as its cost, that entry's implied cost per ton: the
    with-carbon-price variant when the save flag is set, the other one when it
    is not.  The flag and the mode are stored with it. *)
Theorem saved_template_measure (RT : Runtime) (w : Wizard) (initial_id : value)
        (confirm_ok : bool) (m : Measure) :
  saveTemplate w initial_id confirm_ok = Some m ->
  exists d td y,
    details m = Some d /\ mode d = Some template_mode /\
    template d = Some td /\
    per_year td = perYear (computed w) /\
    representative_index td = repIdx (computed w) /\
    nth_error (per_year td) (representative_index td) = Some y /\
    abatement_tco2 m = VNum (Math_max n0 (direct_t y)) /\
    ((direct_t y >? n0) = true -> abatement_tco2 m = VNum (direct_t y)) /\
    saved_cost_includes_carbon_price d = VBool (applyCarbonPriceInSave w) /\
    cost_per_tco2 m =
      VNum (if applyCarbonPriceInSave w then implied_cost_per_t_w y
            else implied_cost_per_t_wo y).
Proof.
  intro H. unfold saveTemplate in H.
  destruct (rep_is_entry w) as (y & Hy & Hrep).
  remember (computed w) as c eqn:Ec.
  destruct ((Math_max n0 (rep_direct_t (rep c)) <=? n0) && negb confirm_ok);
    [discriminate|].
  injection H as <-.
  eexists. eexists. exists y.
  cbn [details mode template per_year representative_index abatement_tco2
       cost_per_tco2 saved_cost_includes_carbon_price].
  split; [reflexivity|]. split; [reflexivity|]. split; [reflexivity|].
  cbn [per_year representative_index].
  split; [reflexivity|]. split; [reflexivity|]. split; [exact Hy|].
  rewrite Hrep. cbn [rep_direct_t rep_implied_cost_per_t_w rep_implied_cost_per_t_wo].
  split; [reflexivity|]. split; [|split; [reflexivity|]].
  - intro Hpos. f_equal.
    unfold JS.gt, JS.lt in Hpos. unfold Math_max, JS.lt.
    destruct (direct_t y) eqn:Ed; try discriminate Hpos; cbn in *.
    + now rewrite Hpos.
    + reflexivity.
  - now destruct (applyCarbonPriceInSave w).
Qed.

Lemma saved_template_measure_witness :
  (exists m y,
      saveTemplate (RT := Reference.runtime) (with_flag reducing_wizard true)
                   VUndefined false = Some m /\
      repIdx (@computed Reference.runtime (with_flag reducing_wizard true)) = 1%nat /\
      nth_error (perYear (@computed Reference.runtime (with_flag reducing_wizard true)))
                (repIdx (@computed Reference.runtime (with_flag reducing_wizard true)))
      = Some y /\
      direct_t y = n1 /\
      abatement_tco2 m = VNum n1 /\
      cost_per_tco2 m = VNum (JS.of_Z 19999900))
  /\ (exists m y,
      saveTemplate (RT := Reference.runtime) reducing_wizard VUndefined false = Some m /\
      nth_error (perYear (@computed Reference.runtime reducing_wizard))
                (repIdx (@computed Reference.runtime reducing_wizard))
      = Some y /\
      direct_t y = n1 /\
      abatement_tco2 m = VNum n1 /\
      cost_per_tco2 m = VNum (JS.of_Z 20000000))
  /\ (exists m y,
      saveTemplate (RT := Reference.runtime) increasing_wizard VUndefined true = Some m /\
      repIdx (@computed Reference.runtime increasing_wizard) = 2%nat /\
      nth_error (perYear (@computed Reference.runtime increasing_wizard))
                (repIdx (@computed Reference.runtime increasing_wizard))
      = Some y /\
      direct_t y = JS.of_Z (-2) /\
      abatement_tco2 m = VNum n0 /\
      cost_per_tco2 m = VNum n0).
Proof.
  split; [|split].
  - destruct (@saveTemplate Reference.runtime (with_flag reducing_wizard true)
                VUndefined false) as [m|] eqn:E;
      [|exfalso; vm_compute in E; discriminate E].
    destruct (@saved_template_measure Reference.runtime _ _ _ m E)
      as (d & td & y & _ & _ & _ & Hp & Hr & Hy & Ha & _ & _ & Hc).
    rewrite Hp, Hr in Hy.
    assert (K : match nth_error
                        (perYear (@computed Reference.runtime
                                    (with_flag reducing_wizard true)))
                        (repIdx (@computed Reference.runtime
                                   (with_flag reducing_wizard true))) with
                | Some z => num_eqb (direct_t z) n1
                            && num_eqb (implied_cost_per_t_w z) (JS.of_Z 19999900)
                | None => false
                end = true) by (vm_compute; reflexivity).
    rewrite Hy in K. apply andb_true_iff in K. destruct K as [K1 K2].
    apply num_eqb_eq in K1, K2.
    exists m, y. split; [reflexivity|]. split; [vm_compute; reflexivity|].
    split; [exact Hy|]. split; [exact K1|]. split.
    + rewrite Ha, K1. reflexivity.
    + rewrite Hc. cbn [applyCarbonPriceInSave with_flag]. now rewrite K2.
  - destruct (@saveTemplate Reference.runtime reducing_wizard VUndefined false)
      as [m|] eqn:E; [|exfalso; vm_compute in E; discriminate E].
    destruct (@saved_template_measure Reference.runtime _ _ _ m E)
      as (d & td & y & _ & _ & _ & Hp & Hr & Hy & Ha & _ & _ & Hc).
    rewrite Hp, Hr in Hy.
    assert (K : match nth_error
                        (perYear (@computed Reference.runtime reducing_wizard))
                        (repIdx (@computed Reference.runtime reducing_wizard)) with
                | Some z => num_eqb (direct_t z) n1
                            && num_eqb (implied_cost_per_t_wo z) (JS.of_Z 20000000)
                | None => false
                end = true) by (vm_compute; reflexivity).
    rewrite Hy in K. apply andb_true_iff in K. destruct K as [K1 K2].
    apply num_eqb_eq in K1, K2.
    exists m, y. split; [reflexivity|].
    split; [exact Hy|]. split; [exact K1|]. split.
    + rewrite Ha, K1. reflexivity.
    + rewrite Hc. cbn [applyCarbonPriceInSave reducing_wizard]. now rewrite K2.
  - destruct (@saveTemplate Reference.runtime increasing_wizard VUndefined true)
      as [m|] eqn:E; [|exfalso; vm_compute in E; discriminate E].
    destruct (@saved_template_measure Reference.runtime _ _ _ m E)
      as (d & td & y & _ & _ & _ & Hp & Hr & Hy & Ha & _ & _ & Hc).
    rewrite Hp, Hr in Hy.
    assert (K : match nth_error
                        (perYear (@computed Reference.runtime increasing_wizard))
                        (repIdx (@computed Reference.runtime increasing_wizard)) with
                | Some z => num_eqb (direct_t z) (JS.of_Z (-2))
                            && num_eqb (implied_cost_per_t_wo z) n0
                | None => false
                end = true) by (vm_compute; reflexivity).
    rewrite Hy in K. apply andb_true_iff in K. destruct K as [K1 K2].
    apply num_eqb_eq in K1, K2.
    exists m, y. split; [reflexivity|]. split; [vm_compute; reflexivity|].
    split; [exact Hy|]. split; [exact K1|]. split.
    + rewrite Ha, K1. reflexivity.
    + rewrite Hc. cbn [applyCarbonPriceInSave increasing_wizard]. now rewrite K2.
Defined.

(** C2, as the specification words it, fails: with an other-direct series of
    -5 t a year the representative entry (index 2, adoption 0.4) has
    [direct_t = -2], and the measure is saved with abatement 0. *)
Lemma saved_abatement_not_direct_t :
  exists m d td y,
    @saveTemplate Reference.runtime increasing_wizard VUndefined true = Some m /\
    details m = Some d /\ mode d = Some template_mode /\ template d = Some td /\
    nth_error (per_year td) (representative_index td) = Some y /\
    abatement_tco2 m <> VNum (direct_t y).
Proof.
  eexists. eexists. eexists. eexists.
  split; [reflexivity|].
  split; [reflexivity|].
  split; [reflexivity|].
  split; [reflexivity|].
  split; [vm_compute; reflexivity|].
  vm_compute. intro H. discriminate H.
Qed.

(* ================================================================== *)
(** * Effective cost                                                   *)
(* ================================================================== *)

Section RankingFacts.
Context {RT : Runtime}.

(** [Number(x || 0)] is [x] on every number but NaN. *)
Lemma num_or0_number (n : num) : n <> NaN -> num_or0 (VNum n) = n.
Proof.
  intro H. unfold num_or0, JS.or_else.
  destruct n as [q| | |]; cbn; try reflexivity; [|contradiction].
  destruct (Qc_eqb q (Q2Qc 0)) eqn:E; cbn; [|reflexivity].
  apply Qc_eqb_eq in E. now subst q.
Qed.

Lemma In_insert_sorted (x r : Ranked) (l : list Ranked) :
  In r (insert_sorted x l) <-> r = x \/ In r l.
Proof.
  induction l as [|y t IH]; simpl.
  - intuition.
  - destruct (compare_cost x y <? n0); simpl; rewrite ?IH; intuition.
Qed.

Lemma In_sort_by_cost (r : Ranked) (l : list Ranked) :
  In r (sort_by_cost l) <-> In r l.
Proof.
  unfold sort_by_cost.
  assert (G : forall acc, In r (fold_left (fun acc x => insert_sorted x acc) l acc)
                          <-> In r acc \/ In r l).
  { induction l as [|x t IH]; intro acc; simpl.
    - intuition.
    - rewrite IH, In_insert_sorted. intuition. }
  rewrite G. simpl. intuition.
Qed.

End RankingFacts.

(** C3.  For a measure whose stored cost and carbon prices are numbers, the
    effective cost is [cost - (cpNow - cpAtSave)] when the flag
    [saved_cost_includes_carbon_price] is set and [cost - cpNow] when it is
    not; every entry of the ranking [sorted] carries exactly this effective
    cost; the two worked cases give -100 and 50. *)
Theorem effective_cost_normalization (RT : Runtime) :
  (forall (m : Measure) (cost cpNow : num),
      cost_per_tco2 m = VNum cost -> cost <> NaN -> cpNow <> NaN ->
      (Boolean (details_field m saved_cost_includes_carbon_price) = true ->
       forall cpAtSave,
         details_field m carbon_price_at_save = VNum cpAtSave -> cpAtSave <> NaN ->
         effective_cost_of (VNum cpNow) m = cost - (cpNow - cpAtSave))
      /\ (Boolean (details_field m saved_cost_includes_carbon_price) = false ->
          effective_cost_of (VNum cpNow) m = cost - cpNow))
  /\ (forall (ms : list Measure) (carbonPrice : value) (r : Ranked),
        In r (sorted ms carbonPrice) ->
        In (measure r) ms /\
        effective_cost r = effective_cost_of carbonPrice (measure r))
  /\ effective_cost_of (VNum (JS.of_Z 700))
       (measure_with (VNum (JS.of_Z 100)) (VBool true) (VNum (JS.of_Z 500)))
     = JS.of_Z (-100)
  /\ effective_cost_of (VNum (JS.of_Z 50))
       (measure_with (VNum (JS.of_Z 100)) (VBool false) VUndefined)
     = JS.of_Z 50.
Proof.
  split; [|split; [|split]].
  - intros m cost cpNow Hc Hcost Hcp. unfold effective_cost_of. rewrite Hc.
    rewrite !num_or0_number by assumption.
    split.
    + intros Hflag cpAtSave Hs Hsn. rewrite Hflag, Hs.
      now rewrite num_or0_number by assumption.
    + intros Hflag. now rewrite Hflag.
  - intros ms cp r Hr. unfold sorted in Hr.
    apply (proj1 (In_sort_by_cost _ _)) in Hr. apply in_map_iff in Hr.
    destruct Hr as (m & <- & Hm). split; [exact Hm | reflexivity].
  - apply num_eqb_eq. vm_compute. reflexivity.
  - apply num_eqb_eq. vm_compute. reflexivity.
Qed.

Lemma effective_cost_normalization_witness :
  effective_cost_of (RT := Reference.runtime) (VNum (JS.of_Z 700))
    (measure_with (VNum (JS.of_Z 100)) (VBool true) (VNum (JS.of_Z 500)))
  = JS.of_Z 100 - (JS.of_Z 700 - JS.of_Z 500).
Proof.
  refine (proj1 (proj1 (effective_cost_normalization Reference.runtime)
                   (measure_with (VNum (JS.of_Z 100)) (VBool true) (VNum (JS.of_Z 500)))
                   (JS.of_Z 100) (JS.of_Z 700) eq_refl _ _)
                eq_refl (JS.of_Z 500) eq_refl _); discriminate.
Defined.

(* ================================================================== *)
(** * The curve builder                                                *)
(* ================================================================== *)

Section OrderFacts.
Local Open Scope Qc_scope.

Lemma le_Fin (x y : Qc) : (Fin x <=? Fin y)%num = true <-> x <= y.
Proof.
  unfold JS.le, JS.lt, JS.num_eqb. rewrite orb_true_iff, Qc_ltb_lt, Qc_eqb_eq.
  split.
  - intros [H | ->]; [now apply Qclt_le_weak | apply Qcle_refl].
  - intro H. destruct (Qcle_lt_or_eq _ _ H); auto.
Qed.

Lemma lt_Fin (x y : Qc) : (Fin x <? Fin y)%num = true <-> x < y.
Proof. unfold JS.lt. apply Qc_ltb_lt. Qed.

Lemma le_refl_finite (a : num) : Number_isFinite a = true -> (a <=? a)%num = true.
Proof. destruct a; try discriminate. intros _. apply le_Fin, Qcle_refl. Qed.

Lemma Qc_div_mul_mono (c c' d k : Qc) :
  0 < d -> 0 <= k -> c <= c' -> c / d * k <= c' / d * k.
Proof.
  intros Hd Hk Hc.
  apply Qcmult_le_compat_r; [|exact Hk].
  unfold Qcdiv. apply Qcmult_le_compat_r; [exact Hc|].
  assert (Hd' : (0 < this d)%Q) by exact Hd.
  unfold Qcle. rewrite this_inv.
  apply Qlt_le_weak, Qinv_lt_0_compat, Hd'.
Qed.

End OrderFacts.

Section CurveFacts.
Context {RT : Runtime}.

Lemma skip_test_plottable (m : Ranked) :
  negb (Number_isFinite (num_or0 (abatement_tco2 (measure m))))
  || negb (Number_isFinite (num_or0 (VNum (effective_cost m))))
  || (num_or0 (abatement_tco2 (measure m)) <=? n0)
  = negb (plottable m).
Proof.
  unfold plottable.
  destruct (num_or0 (abatement_tco2 (measure m))) as [a| | |]; cbn; try reflexivity.
  destruct (num_or0 (VNum (effective_cost m))) as [c| | |]; cbn; try reflexivity.
  unfold JS.le, JS.gt, JS.lt, JS.num_eqb, n0, JS.zero, JS.of_Z.
  destruct (Qc_ltb (JS.qc 0 1) a) eqn:E.
  - apply Qc_ltb_lt in E.
    assert (L : Qc_ltb a (JS.qc 0 1) = false).
    { apply Qc_ltb_ge. now apply Qclt_le_weak. }
    assert (N : Qc_eqb a (JS.qc 0 1) = false).
    { apply Qc_eqb_neq. intro; subst a. exact (Qclt_not_eq _ _ E eq_refl). }
    now rewrite L, N.
  - apply Qc_ltb_ge in E. cbn.
    destruct (Qcle_lt_or_eq _ _ E) as [L | ->].
    + apply Qc_ltb_lt in L. now rewrite L.
    + now rewrite Qc_eqb_refl, orb_true_r.
Qed.

Lemma segment_step_eq (mode : string) (ae : value) (cum : num)
      (segs : list Segment) (m : Ranked) (idx : nat) :
  segment_step mode ae (cum, segs) m idx =
  if plottable m
  then
    let A := num_or0 (abatement_tco2 (measure m)) in
    let denom := num_or0 ae in
    (cum + Math_max n0 A,
     (segs ++ [mkSegment (m_id (measure m)) (m_name (measure m))
                 (m_sector (measure m))
                 (plot_x mode denom cum) (plot_x mode denom (cum + Math_max n0 A))
                 (num_or0 (VNum (effective_cost m))) A
                 (nth (idx mod List.length PALETTE) PALETTE "")])%list)
  else (cum, segs).
Proof.
  unfold segment_step. rewrite skip_test_plottable.
  now destruct (plottable m).
Qed.

Lemma forEach_walk (mode : string) (ae : value) (l : list Ranked) :
  forall idx cum segs,
    snd (forEach_from (segment_step mode ae) idx l (cum, segs))
    = (segs ++ walk mode ae cum idx l)%list.
Proof.
  induction l as [|m t IH]; intros idx cum segs; cbn [forEach_from walk].
  - cbn [snd]. now rewrite app_nil_r.
  - rewrite segment_step_eq.
    destruct (plottable m).
    + cbv zeta. rewrite IH, <- app_assoc. reflexivity.
    + apply IH.
Qed.

Lemma segments_walk (ranked : list Ranked) (mode : string) (ae : value) :
  segments ranked mode ae = walk mode ae n0 0 ranked.
Proof. unfold segments. now rewrite forEach_walk. Qed.

Lemma walk_chain (mode : string) (ae : value) (l : list Ranked) :
  forall c idx, chain mode (num_or0 ae) c (walk mode ae (Fin c) idx l).
Proof.
  induction l as [|m t IH]; intros c idx; cbn [walk]; [constructor|].
  destruct (plottable m) eqn:P; [|apply IH].
  cbv zeta. unfold plottable in P.
  destruct (num_or0 (abatement_tco2 (measure m))) as [a| | |] eqn:EA;
    try discriminate P.
  rewrite !andb_true_iff in P. destruct P as [_ Hpos].
  apply lt_Fin in Hpos.
  assert (HM : Math_max n0 (Fin a) = Fin a).
  { unfold Math_max, n0, JS.zero, JS.of_Z, JS.lt.
    apply Qc_ltb_lt in Hpos. unfold JS.qc in *. now rewrite Hpos. }
  rewrite HM. cbn [JS.add].
  apply chain_cons with (c' := (c + a)%Qc); try reflexivity; [|apply IH].
  assert (H0 : (0 <= a)%Qc) by now apply Qclt_le_weak.
  rewrite <- (Qcplus_0_r c) at 1.
  apply Qcplus_le_compat; [apply Qcle_refl | exact H0].
Qed.

Lemma plot_x_mono (mode : string) (denom : num) (c c' : Qc) :
  (c <= c')%Qc ->
  (plot_x mode denom (Fin c) <=? plot_x mode denom (Fin c')) = true.
Proof.
  intro H. unfold plot_x.
  destruct (String.eqb mode "capacity"); [now apply le_Fin|].
  destruct denom as [d| | |]; cbn; try reflexivity.
  - unfold JS.gt, JS.lt, n0, JS.zero, JS.of_Z.
    destruct (Qc_ltb (JS.qc 0 1) d) eqn:E; [|reflexivity].
    apply Qc_ltb_lt in E.
    assert (N : Qc_eqb d (Q2Qc 0) = false).
    { apply Qc_eqb_neq. intro; subst d. exact (Qclt_not_eq _ _ E eq_refl). }
    cbn. rewrite N. cbn. apply le_Fin.
    apply Qc_div_mul_mono; [exact E | discriminate | exact H].
Qed.

Lemma chain_head_le (mode : string) (denom : num) (c : Qc) (s : Segment)
      (t : list Segment) :
  chain mode denom c (s :: t) ->
  exists c', (c <= c')%Qc /\ x2_plot s = plot_x mode denom (Fin c')
             /\ chain mode denom c' t.
Proof. intro H. inversion H; subst. eauto. Qed.

Lemma chain_adjacent (mode : string) (denom : num) (segs : list Segment) :
  forall c k s s',
    chain mode denom c segs ->
    nth_error segs k = Some s -> nth_error segs (S k) = Some s' ->
    x1_plot s' = x2_plot s /\ (x2_plot s <=? x2_plot s') = true.
Proof.
  induction segs as [|h t IH]; intros c k s s' Hc Hk Hk'.
  - destruct k; discriminate.
  - inversion Hc as [|c0 c' s0 t0 Hle H1 H2 Ht]; subst.
    destruct k as [|k].
    + cbn in Hk, Hk'. injection Hk as <-.
      destruct t as [|h' t']; [discriminate|]. cbn in Hk'. injection Hk' as <-.
      inversion Ht as [|c1 c'' s1 t1 Hle' H1' H2' Ht']; subst.
      rewrite H1', H2, H2'. split; [reflexivity | now apply plot_x_mono].
    + cbn in Hk, Hk'. exact (IH c' k s s' Ht Hk Hk').
Qed.

End CurveFacts.

Lemma walk_drawn_for {RT : Runtime} (mode : string) (ae : value)
      (l : list Ranked) :
  forall cum idx,
    Forall2 drawn_for (walk mode ae cum idx l) (filter plottable l).
Proof.
  induction l as [|m t IH]; intros cum idx; cbn [walk filter]; [constructor|].
  destruct (plottable m); [|apply IH].
  constructor; [|apply IH]. repeat split.
Qed.

(** C4.  The curve builder draws one segment, in order, for each ranked
    measure whose abatement is finite and positive (and whose cost is finite)
    and none for the others; consecutive segments are contiguous ([x1] of the
    next is [x2] of the previous) and the [x2] values do not decrease, whatever
    the mode (capacity or intensity) and the baseline emissions. *)
Theorem segments_contiguous_monotone (RT : Runtime) (ranked : list Ranked)
        (mode : string) (annual_emissions : value) :
  let segs := segments ranked mode annual_emissions in
  Forall2 drawn_for segs (filter plottable ranked)
  /\ (forall s, In s segs ->
        Number_isFinite (abatement s) = true /\ (abatement s >? n0) = true)
  /\ (forall k s s',
        nth_error segs k = Some s -> nth_error segs (S k) = Some s' ->
        x1_plot s' = x2_plot s /\ (x2_plot s <=? x2_plot s') = true).
Proof.
  intro segs. unfold segs. rewrite segments_walk.
  assert (D := walk_drawn_for mode annual_emissions ranked n0 0).
  split; [exact D|]. split.
  - intros s Hs.
    assert (G : forall l l', Forall2 drawn_for l l' ->
                             (forall m, In m l' -> plottable m = true) ->
                             In s l ->
                             Number_isFinite (abatement s) = true /\
                             (abatement s >? n0) = true).
    { induction 1 as [|s0 m0 l0 l0' Hd _ IH]; intros Hp Hin; [contradiction|].
      destruct Hin as [-> | Hin].
      - destruct Hd as (_ & _ & _ & Ha & _). rewrite Ha.
        specialize (Hp m0 (or_introl eq_refl)). unfold plottable in Hp.
        rewrite !andb_true_iff in Hp. tauto.
      - apply IH; [|exact Hin]. intros m Hm. apply Hp. now right. }
    apply (G _ _ D); [|exact Hs].
    intros m Hm. apply filter_In in Hm. tauto.
  - intros k s s'.
    apply (chain_adjacent (mode := mode) (denom := num_or0 annual_emissions)
             (c := Q2Qc 0)).
    exact (walk_chain mode annual_emissions ranked (Q2Qc 0) 0).
Qed.

Lemma segments_contiguous_monotone_witness :
  exists s s',
    nth_error (segments (RT := Reference.runtime) three_ranked "intensity"
                        (VNum (JS.of_Z 200))) 0 = Some s /\
    nth_error (segments (RT := Reference.runtime) three_ranked "intensity"
                        (VNum (JS.of_Z 200))) 1 = Some s' /\
    seg_name s' = "c" /\
    x1_plot s' = x2_plot s /\ (x2_plot s <=? x2_plot s') = true.
Proof.
  eexists. eexists.
  split; [vm_compute; reflexivity|].
  split; [vm_compute; reflexivity|].
  split; [reflexivity|].
  apply (proj2 (proj2 (segments_contiguous_monotone Reference.runtime three_ranked
                         "intensity" (VNum (JS.of_Z 200)))) 0%nat);
    vm_compute; reflexivity.
Defined.

(* ================================================================== *)
(** * Net present value and the internal rate of return                *)
(* ================================================================== *)

Section PowFacts.
Context {RT : Runtime}.
Local Open Scope Qc_scope.

Lemma qc_this (z : Z) : this (JS.qc z 1) = (z # 1)%Q.
Proof.
  unfold JS.qc, Q2Qc. cbn [this]. apply Qred_identity.
  cbn. apply Z.gcd_1_r.
Qed.

Lemma qc_minus (y b : Z) : JS.qc y 1 - JS.qc b 1 = JS.qc (y - b) 1.
Proof.
  apply Qc_is_canon. rewrite this_minus, !qc_this.
  unfold Qeq, Qminus, Qplus, Qopp. cbn [Qnum Qden].
  rewrite ?Pos.mul_1_r, ?Z.mul_1_r. lia.
Qed.

Lemma qc_lt (a b : Z) : JS.qc a 1 < JS.qc b 1 <-> (a < b)%Z.
Proof.
  unfold Qclt. rewrite !qc_this. unfold Qlt. cbn [Qnum Qden]. lia.
Qed.

Lemma qc_eq (a b : Z) : JS.qc a 1 = JS.qc b 1 <-> a = b.
Proof.
  split; [|now intros ->].
  intro H. apply (f_equal this) in H. rewrite !qc_this in H. congruence.
Qed.

(** [Math.max(0, z)] on an integer. *)
Lemma Math_max_0_of_Z (z : Z) : Math_max n0 (JS.of_Z z) = JS.of_Z (Z.max 0 z).
Proof.
  unfold Math_max, n0, JS.zero, JS.of_Z, JS.lt.
  destruct (Qc_ltb (JS.qc 0 1) (JS.qc z 1)) eqn:E.
  - apply (proj1 (Qc_ltb_lt _ _)) in E. apply (proj1 (qc_lt _ _)) in E.
    now rewrite Z.max_r by lia.
  - apply (proj1 (Qc_ltb_ge _ _)) in E.
    assert (z <= 0)%Z.
    { destruct (Z.le_gt_cases z 0) as [L|L]; [exact L|].
      exfalso. apply (proj2 (qc_lt 0 z)) in L. exact (Qcle_not_lt _ _ E L). }
    now rewrite Z.max_l by lia.
Qed.

(** [Math.pow] at an integer exponent is the exact power. *)
Lemma Math_pow_of_Z (b : Qc) (k : Z) :
  Math_pow (Fin b) (JS.of_Z k) = JS.pow_Z b k.
Proof.
  unfold Math_pow, JS.of_Z.
  destruct (Qc_eqb (JS.qc k 1) (Q2Qc 0)) eqn:E.
  - apply (proj1 (Qc_eqb_eq _ _)) in E. apply (proj1 (qc_eq k 0)) in E. now subst k.
  - unfold JS.is_integer. rewrite qc_this. cbn [Qden Qnum Pos.eqb]. reflexivity.
Qed.

Lemma Qcpower_positive (b : Qc) (n : nat) : 0 < b -> 0 < b ^ n.
Proof.
  intro H. induction n as [|n IH]; cbn [Qcpower].
  - reflexivity.
  - qc_to_q. nra.
Qed.

Lemma pow_Z_nonneg_exponent (b : Qc) (k : Z) :
  0 < b -> (0 <= k)%Z -> exists p, JS.pow_Z b k = Fin p /\ 0 < p.
Proof.
  intros Hb Hk. destruct k as [|p|p]; cbn [JS.pow_Z].
  - exists (JS.qc 1 1). split; reflexivity.
  - eexists. split; [reflexivity|]. now apply Qcpower_positive.
  - lia.
Qed.

(** The discount factor [Math.pow(1 + r, Math.max(0, years[i] - baseYear))]
    at a rate above -1 is a positive rational when [years[i]] exists, and NaN
    when it does not. *)
Lemma discount_factor (r : Qc) (years : list Z) (baseYear : Z) (i : nat) :
  0 < JS.qc 1 1 + r ->
  (exists p, 0 < p /\
     Math_pow (n1 + Fin r) (Math_max n0 (year_offset years baseYear i)) = Fin p
     /\ nth_error years i <> None)
  \/ (Math_pow (n1 + Fin r) (Math_max n0 (year_offset years baseYear i)) = NaN
      /\ nth_error years i = None).
Proof.
  intro Hr. unfold year_offset.
  destruct (nth_error years i) as [y|]; [left | right; split; reflexivity].
  change (JS.of_Z y - JS.of_Z baseYear)%num
    with (Fin (JS.qc y 1 - JS.qc baseYear 1)).
  rewrite qc_minus. fold (JS.of_Z (y - baseYear)).
  rewrite Math_max_0_of_Z.
  change (n1 + Fin r)%num with (Fin (JS.qc 1 1 + r)).
  rewrite Math_pow_of_Z.
  destruct (pow_Z_nonneg_exponent (k := Z.max 0 (y - baseYear)) Hr)
    as (p & Hp & Hpos);
    [lia|].
  exists p. repeat split; [exact Hpos | exact Hp | discriminate].
Qed.

End PowFacts.

Section SignFacts.
Local Open Scope Qc_scope.

Lemma positive_Fin (q : Qc) : positive (Fin q) <-> 0 < q.
Proof. unfold positive. apply lt_Fin. Qed.

Lemma positive_cases (a : num) :
  positive a -> a = PInf \/ exists q, a = Fin q /\ 0 < q.
Proof.
  destruct a as [q| | |]; intro H; try discriminate H.
  - right. exists q. split; [reflexivity | now apply positive_Fin].
  - now left.
Qed.

Lemma Qc_pos_neq0 (p : Qc) : 0 < p -> Qc_eqb p (Q2Qc 0) = false.
Proof.
  intro H. apply Qc_eqb_neq. intro E. subst p. exact (Qclt_not_eq _ _ H eq_refl).
Qed.

Lemma Qc_pos_not_neg (p : Qc) : 0 < p -> Qc_ltb p (Q2Qc 0) = false.
Proof. intro H. apply Qc_ltb_ge. now apply Qclt_le_weak. Qed.

Lemma positive_add (a b : num) : positive a -> positive b -> positive (a + b).
Proof.
  intros Ha Hb.
  destruct (positive_cases Ha) as [-> | (x & -> & Hx)];
    destruct (positive_cases Hb) as [-> | (y & -> & Hy)]; try reflexivity.
  cbn [JS.add]. apply positive_Fin. qc_to_q. lra.
Qed.

Lemma positive_mul (a b : num) : positive a -> positive b -> positive (a * b).
Proof.
  intros Ha Hb.
  destruct (positive_cases Ha) as [-> | (x & -> & Hx)];
    destruct (positive_cases Hb) as [-> | (y & -> & Hy)]; try reflexivity.
  - cbn [JS.mul JS.sign].
    apply (proj1 (Qcgt_alt _ _)) in Hy. now rewrite Hy.
  - cbn [JS.mul JS.sign].
    apply (proj1 (Qcgt_alt _ _)) in Hx. now rewrite Hx.
  - cbn [JS.mul]. apply positive_Fin. qc_to_q. nra.
Qed.

Lemma positive_div (a : num) (p : Qc) :
  positive a -> 0 < p -> positive (a / Fin p).
Proof.
  intros Ha Hp.
  destruct (positive_cases Ha) as [-> | (x & -> & Hx)].
  - cbn [JS.div JS.sign]. now rewrite (Qc_pos_not_neg Hp).
  - cbn [JS.div]. rewrite (Qc_pos_neq0 Hp). apply positive_Fin.
    unfold Qcdiv. assert (0 < / p).
    { unfold Qclt. rewrite this_inv. apply Qinv_lt_0_compat. exact Hp. }
    qc_to_q. nra.
Qed.

Lemma zero_add_positive (a : num) : positive a -> positive (n0 + a).
Proof.
  intro Ha. destruct (positive_cases Ha) as [-> | (x & -> & Hx)]; [reflexivity|].
  cbn [JS.add n0 JS.zero JS.of_Z]. apply positive_Fin.
  change (JS.qc 0 1) with (Q2Qc 0). now rewrite Qcplus_0_l.
Qed.

(** Strictly opposite signs, read off [sign]. *)
Lemma opposite_sign (a b : num) :
  opposite a b <->
  (JS.sign a = Some Lt /\ JS.sign b = Some Gt) \/
  (JS.sign a = Some Gt /\ JS.sign b = Some Lt).
Proof.
  unfold opposite.
  destruct a as [x| | |], b as [y| | |]; cbn [JS.mul JS.sign];
    try (destruct (x ?= Q2Qc 0) eqn:Ex); try (destruct (y ?= Q2Qc 0) eqn:Ey);
    cbn; try (split; [discriminate | intros [[? ?]|[? ?]]; congruence]);
    try (split; [auto | reflexivity]); try tauto.
  all: rewrite <- ?Qceq_alt, <- ?Qclt_alt, <- ?Qcgt_alt in *; subst.
  all: unfold n0, JS.zero, JS.of_Z; change (JS.qc 0 1) with (Q2Qc 0).
  all: split;
    [ intro H; apply (proj1 (lt_Fin _ _)) in H
    | intros [[H1 H2]|[H1 H2]]; try discriminate;
      apply (proj2 (lt_Fin _ _)) ].
  all: try (exfalso; qc_to_q; nra).
  all: try (qc_to_q; nra).
  all: try (rewrite ?Qcmult_0_l, ?Qcmult_0_r in *; exfalso;
            exact (Qclt_not_eq _ _ H eq_refl)).
  all: auto.
Qed.

End SignFacts.

Section NpvFacts.
Context {RT : Runtime}.
Local Open Scope Qc_scope.

Lemma kind_add (a a' b b' : num) :
  kind_of a = kind_of a' -> kind_of b = kind_of b' ->
  kind_of (a + b) = kind_of (a' + b').
Proof. destruct a, a', b, b'; cbn; congruence. Qed.

Lemma kind_div_pos (a : num) (p p' : Qc) :
  0 < p -> 0 < p' -> kind_of (a / Fin p) = kind_of (a / Fin p').
Proof.
  intros Hp Hp'.
  destruct a; cbn [JS.div JS.sign];
    rewrite ?(Qc_pos_neq0 Hp), ?(Qc_pos_neq0 Hp'),
            ?(Qc_pos_not_neg Hp), ?(Qc_pos_not_neg Hp'); reflexivity.
Qed.

(** The kind of an NPV term does not depend on the rate (above -1). *)
Lemma kind_term (r r' : Qc) (years : list Z) (baseYear : Z) (i : nat) (amt : num) :
  0 < JS.qc 1 1 + r -> 0 < JS.qc 1 1 + r' ->
  kind_of (amt / Math_pow (n1 + Fin r) (Math_max n0 (year_offset years baseYear i)))
  = kind_of (amt / Math_pow (n1 + Fin r') (Math_max n0 (year_offset years baseYear i))).
Proof.
  intros Hr Hr'.
  destruct (discount_factor years baseYear i Hr) as [(p & Hp & -> & Hy) | [-> Hy]];
    destruct (discount_factor years baseYear i Hr') as [(p' & Hp' & -> & Hy') | [-> Hy']];
    try congruence.
  now apply kind_div_pos.
Qed.

Lemma kind_npv_fold (r r' : Qc) (years : list Z) (baseYear : Z)
      (amounts : list num) :
  0 < JS.qc 1 1 + r -> 0 < JS.qc 1 1 + r' ->
  forall acc acc' i,
    kind_of acc = kind_of acc' ->
    kind_of (fst (fold_left (npv_step (Fin r) years baseYear) amounts (acc, i)))
    = kind_of (fst (fold_left (npv_step (Fin r') years baseYear) amounts (acc', i))).
Proof.
  intros Hr Hr'. induction amounts as [|amt t IH]; intros acc acc' i Hk.
  - exact Hk.
  - cbn [fold_left npv_step]. apply IH.
    apply kind_add; [exact Hk | now apply kind_term].
Qed.

(** Whether the NPV is NaN does not depend on the rate (above -1). *)
Lemma npv_kind (r r' : Qc) (amounts : list num) (years : list Z) (baseYear : Z) :
  0 < JS.qc 1 1 + r -> 0 < JS.qc 1 1 + r' ->
  kind_of (npv (Fin r) amounts years baseYear)
  = kind_of (npv (Fin r') amounts years baseYear).
Proof. intros Hr Hr'. unfold npv. now apply kind_npv_fold. Qed.

(** A positive cashflow discounted at a rate above -1: positive, or NaN when
    its year is missing. *)
Lemma positive_term (r : Qc) (years : list Z) (baseYear : Z) (i : nat) (amt : num) :
  0 < JS.qc 1 1 + r -> positive amt ->
  let t := (amt / Math_pow (n1 + Fin r)
                       (Math_max n0 (year_offset years baseYear i)))%num in
  t = NaN \/ positive t.
Proof.
  intros Hr Ha t. unfold t.
  destruct (discount_factor years baseYear i Hr) as [(p & Hp & -> & _) | [-> _]].
  - right. now apply positive_div.
  - left. destruct amt; reflexivity.
Qed.

Lemma positive_npv_fold (r : Qc) (years : list Z) (baseYear : Z)
      (amounts : list num) :
  0 < JS.qc 1 1 + r -> Forall positive amounts ->
  forall acc i,
    acc = NaN \/ positive acc ->
    let res := fst (fold_left (npv_step (Fin r) years baseYear) amounts (acc, i)) in
    res = NaN \/ positive res.
Proof.
  intros Hr Hall. induction Hall as [|amt t Ha _ IH]; intros acc i Hacc.
  - exact Hacc.
  - cbn [fold_left npv_step]. apply IH.
    destruct (positive_term years baseYear i Hr Ha) as [-> | Ht].
    + left. destruct acc; reflexivity.
    + destruct Hacc as [-> | Hacc]; [now left | right; now apply positive_add].
Qed.

(** The NPV of a non-empty series of positive cashflows at a rate above -1
    is positive or NaN. *)
Lemma positive_npv (r : Qc) (amounts : list num) (years : list Z) (baseYear : Z) :
  0 < JS.qc 1 1 + r -> amounts <> [] -> Forall positive amounts ->
  npv (Fin r) amounts years baseYear = NaN
  \/ positive (npv (Fin r) amounts years baseYear).
Proof.
  intros Hr Hne Hall. unfold npv.
  destruct amounts as [|amt t]; [contradiction|].
  inversion Hall as [|a l Ha Ht]; subst.
  cbn [fold_left npv_step]. apply positive_npv_fold; try assumption.
  destruct (positive_term years baseYear 0 Hr Ha) as [-> | Hp].
  - now left.
  - right. now apply zero_add_positive.
Qed.

End NpvFacts.

Section Bisection.
Local Open Scope Qc_scope.

Variable f : num -> num.
Variable tol : num.
Hypothesis tol_positive : positive tol.
Variables lo0 hi0 : Qc.
Hypothesis f_not_nan : forall r, lo0 <= r -> r <= hi0 -> f (Fin r) <> NaN.

Lemma mid_num (lo hi : Qc) : ((Fin lo + Fin hi) / n2)%num = Fin (midpoint lo hi).
Proof. reflexivity. Qed.

Lemma midpoint_this (lo hi : Qc) :
  (this (midpoint lo hi) == (this lo + this hi) * (1 # 2))%Q.
Proof.
  unfold midpoint, JS.qc. rewrite this_div, this_plus, this_Q2Qc.
  unfold Qdiv. now setoid_replace (/ (2 # 1))%Q with (1 # 2)%Q by reflexivity.
Qed.

Lemma midpoint_between (lo hi : Qc) :
  lo <= hi -> lo <= midpoint lo hi /\ midpoint lo hi <= hi.
Proof.
  intro H. unfold Qcle in *. rewrite midpoint_this. split; lra.
Qed.

Lemma half_width (lo hi w p : Qc) :
  w * p = midpoint lo hi - lo \/ w * p = hi - midpoint lo hi ->
  w * (JS.qc 2 1 * p) = hi - lo.
Proof.
  intro H. apply Qc_is_canon.
  assert (E : (this (w * p) == this (midpoint lo hi - lo))%Q \/
              (this (w * p) == this (hi - midpoint lo hi))%Q).
  { destruct H as [-> | ->]; [left | right]; reflexivity. }
  clear H. unfold JS.qc in *.
  rewrite ?this_mult, ?this_minus, ?this_Q2Qc, ?midpoint_this in *.
  destruct E as [E | E]; nra.
Qed.

(** A value that fails the tolerance test and is not NaN has a strict sign. *)
Lemma off_tolerance_sign (v : num) :
  (Math_abs v <? tol)%num = false -> v <> NaN ->
  JS.sign v = Some Lt \/ JS.sign v = Some Gt.
Proof.
  intros Ht Hn. destruct v as [q| | |]; cbn [JS.sign]; auto; [|contradiction].
  destruct (q ?= Q2Qc 0) eqn:E; auto.
  exfalso. apply (proj2 (Qceq_alt _ _)) in E. subst q.
  cbn [Math_abs] in Ht.
  replace (Qc_ltb (Q2Qc 0) (Q2Qc 0)) with false in Ht by reflexivity.
  unfold positive in tol_positive. unfold n0, JS.zero, JS.of_Z in tol_positive.
  change (JS.qc 0 1) with (Q2Qc 0) in tol_positive. congruence.
Qed.

(** The loop keeps a bracketing interval: it ends after [k <= it] halvings
    on the middle of the interval [lo', hi'] that these halvings leave, which
    lies inside the first one, has width [(hi - lo) / 2^k] and at whose ends
    [f] has strictly opposite signs; none of the earlier middles was within
    the tolerance, and it ends before [it] halvings only when [|f mid| < tol]. *)
Lemma irr_loop_bracket (it : nat) :
  forall lo hi,
    lo0 <= lo -> lo <= hi -> hi <= hi0 ->
    opposite (f (Fin lo)) (f (Fin hi)) ->
    exists lo' hi' k,
      (k <= it)%nat /\ lo <= lo' /\ lo' <= hi' /\ hi' <= hi /\
      (hi' - lo') * (JS.qc 2 1) ^ k = hi - lo /\
      opposite (f (Fin lo')) (f (Fin hi')) /\
      irr_loop f tol it (Fin lo) (Fin hi) (f (Fin lo)) (f (Fin hi))
      = Fin (midpoint lo' hi') /\
      ((Math_abs (f (Fin (midpoint lo' hi'))) <? tol)%num = true \/ k = it) /\
      (lo', hi') = halved f k (lo, hi) /\
      (forall j, (j < k)%nat ->
                 within_tolerance f tol (halved f j (lo, hi)) = false).
Proof.
  induction it as [|n IH]; intros lo hi Hlo Hle Hhi Hopp.
  - exists lo, hi, O. cbn [irr_loop Qcpower halved]. rewrite mid_num.
    repeat split; auto using Qcle_refl; [now rewrite Qcmult_1_r | lia].
  - cbn [irr_loop]. rewrite mid_num.
    destruct (midpoint_between Hle) as [Hm1 Hm2].
    destruct (Math_abs (f (Fin (midpoint lo hi))) <? tol)%num eqn:Ht.
    + exists lo, hi, O. cbn [Qcpower halved].
      repeat split; auto using Qcle_refl; [lia | now rewrite Qcmult_1_r | lia].
    + assert (Hn : f (Fin (midpoint lo hi)) <> NaN).
      { apply f_not_nan; eapply Qcle_trans; eauto. }
      pose proof (off_tolerance_sign Ht Hn) as Hs.
      assert (Hfirst : forall g k' j,
                 halve f (lo, hi) = g ->
                 (forall j', (j' < k')%nat ->
                             within_tolerance f tol (halved f j' g) = false) ->
                 (j < S k')%nat ->
                 within_tolerance f tol (halved f j (lo, hi)) = false).
      { intros g k' j Eg Hg Hj. destruct j as [|j'].
        - exact Ht.
        - cbn [halved]. rewrite Eg. apply Hg. lia. }
      destruct (f (Fin lo) * f (Fin (midpoint lo hi)) <? n0)%num eqn:Hl.
      * assert (Eg : halve f (lo, hi) = (lo, midpoint lo hi)).
        { unfold halve. cbn [fst snd]. now rewrite Hl. }
        destruct (IH lo (midpoint lo hi) Hlo Hm1 (Qcle_trans _ _ _ Hm2 Hhi) Hl)
          as (lo' & hi' & k & Hk & H1 & H2 & H3 & Hw & Ho & Hr & Hend & Hiv & Hj).
        exists lo', hi', (S k). cbn [Qcpower halved]. rewrite Eg.
        repeat split; auto; try lia.
        -- eapply Qcle_trans; eauto.
        -- apply half_width. now left.
        -- destruct Hend as [Hend | ->]; auto.
        -- intros j Hjk. exact (Hfirst _ k j Eg Hj Hjk).
      * assert (Eg : halve f (lo, hi) = (midpoint lo hi, hi)).
        { unfold halve. cbn [fst snd]. now rewrite Hl. }
        assert (Ho' : opposite (f (Fin (midpoint lo hi))) (f (Fin hi))).
        { apply opposite_sign. apply opposite_sign in Hopp.
          assert (Hl' : ~ opposite (f (Fin lo)) (f (Fin (midpoint lo hi)))).
          { unfold opposite. congruence. }
          rewrite opposite_sign in Hl'.
          destruct Hopp as [[A B] | [A B]], Hs as [C | C]; rewrite ?C in *; tauto. }
        destruct (IH (midpoint lo hi) hi (Qcle_trans _ _ _ Hlo Hm1) Hm2 Hhi Ho')
          as (lo' & hi' & k & Hk & H1 & H2 & H3 & Hw & Ho & Hr & Hend & Hiv & Hj).
        exists lo', hi', (S k). cbn [Qcpower halved]. rewrite Eg.
        repeat split; auto; try lia.
        -- eapply Qcle_trans; eauto.
        -- apply half_width. now right.
        -- destruct Hend as [Hend | ->]; auto.
        -- intros j Hjk. exact (Hfirst _ k j Eg Hj Hjk).
Qed.

End Bisection.

Section IrrFacts.
Context {RT : Runtime}.
Local Open Scope Qc_scope.

Lemma lt_asym (a b : num) : (a <? b)%num = true -> (b <? a)%num = false.
Proof.
  destruct a as [x| | |], b as [y| | |]; cbn; try congruence.
  intro H. apply (proj1 (Qc_ltb_lt _ _)) in H.
  apply Qc_ltb_ge. now apply Qclt_le_weak.
Qed.

Lemma opposite_not_nan (a b : num) : opposite a b -> a <> NaN /\ b <> NaN.
Proof.
  intro H. apply opposite_sign in H.
  split; intro E; subst; cbn in H; destruct H as [[? ?]|[? ?]]; discriminate.
Qed.

Lemma low_rate_above_minus_one : 0 < JS.qc 1 1 + JS.qc (-9) 10.
Proof. reflexivity. Qed.

Lemma high_rate_above_minus_one : 0 < JS.qc 1 1 + JS.qc 3 1.
Proof. reflexivity. Qed.

Lemma rate_in_range_above_minus_one (r : Qc) :
  JS.qc (-9) 10 <= r -> 0 < JS.qc 1 1 + r.
Proof.
  intro H. unfold JS.qc in *. qc_to_q. lra.
Qed.

End IrrFacts.

(** C5, as the code has it.  [irr] evaluates the NPV at -0.9 and at 3 and
    returns null when either value is NaN or their product is above zero
    (both strictly positive or both strictly negative), and a number in every
    other case; a series of positive cashflows (one that has cashflows, each
    above zero) gives null.  When the two values have strictly opposite
    signs, the result is the middle of the interval that [k <= 100] halvings
    of [-0.9, 3], each into the half with the sign change, leave; at its ends
    the NPV still has strictly opposite signs.  It is the first middle with
    [|NPV(mid)| < 1e-6]: no earlier middle was within the tolerance, and [k]
    is 100 when none of the first 100 was. *)
Theorem irr_bracketing (RT : Runtime) (amounts : list num) (years : list Z)
        (baseYear : Z) :
  let f := fun r => npv r amounts years baseYear in
  let fLo := f guessLow_default in
  let fHi := f guessHigh_default in
  (fLo = NaN \/ fHi = NaN \/ (fLo * fHi >? n0) = true ->
   irr amounts years baseYear = None)
  /\ (fLo <> NaN -> fHi <> NaN -> (fLo * fHi >? n0) = false ->
      exists x, irr amounts years baseYear = Some x)
  /\ (amounts <> [] -> Forall positive amounts ->
      irr amounts years baseYear = None)
  /\ (opposite fLo fHi ->
      exists lo' hi' k,
        (k <= 100)%nat /\
        (JS.qc (-9) 10 <= lo')%Qc /\ (lo' <= hi')%Qc /\ (hi' <= JS.qc 3 1)%Qc /\
        ((hi' - lo') * (JS.qc 2 1) ^ k = JS.qc 3 1 - JS.qc (-9) 10)%Qc /\
        opposite (f (Fin lo')) (f (Fin hi')) /\
        irr amounts years baseYear = Some (Fin (midpoint lo' hi')) /\
        ((Math_abs (f (Fin (midpoint lo' hi'))) <? tol_default) = true
         \/ k = 100%nat) /\
        (lo', hi') = halved f k (JS.qc (-9) 10, JS.qc 3 1) /\
        (forall j, (j < k)%nat ->
           within_tolerance f tol_default
             (halved f j (JS.qc (-9) 10, JS.qc 3 1)) = false)).
Proof.
  intros f fLo fHi.
  assert (Hirr : irr amounts years baseYear =
                 if Number_isNaN fLo || Number_isNaN fHi then None
                 else if fLo * fHi >? n0 then None
                      else Some (irr_loop f tol_default 100 guessLow_default
                                          guessHigh_default fLo fHi))
    by reflexivity.
  assert (Hnull : fLo = NaN \/ fHi = NaN \/ (fLo * fHi >? n0) = true ->
                  irr amounts years baseYear = None).
  { intro H. rewrite Hirr. destruct H as [E | [E | E]]; rewrite E.
    - reflexivity.
    - now rewrite orb_true_r.
    - now destruct (Number_isNaN fLo || Number_isNaN fHi). }
  split; [exact Hnull|]. split; [|split].
  - intros HLo HHi Hp. rewrite Hirr, Hp.
    replace (Number_isNaN fLo || Number_isNaN fHi) with false
      by (destruct fLo; destruct fHi; try contradiction; reflexivity).
    eexists. reflexivity.
  - intros Hne Hall. apply Hnull.
    destruct (positive_npv years baseYear low_rate_above_minus_one Hne Hall)
      as [E | PLo]; [now left|].
    destruct (positive_npv years baseYear high_rate_above_minus_one Hne Hall)
      as [E | PHi]; [right; now left|].
    right. right. exact (positive_mul PLo PHi).
  - intro Hopp.
    destruct (opposite_not_nan Hopp) as [HLo HHi].
    assert (Hf : forall r : Qc, (JS.qc (-9) 10 <= r)%Qc -> (r <= JS.qc 3 1)%Qc ->
                                f (Fin r) <> NaN).
    { intros r Hr _ E. apply HLo. unfold fLo, f, guessLow_default in *.
      pose proof (npv_kind amounts years baseYear
                    (rate_in_range_above_minus_one Hr) low_rate_above_minus_one) as K.
      rewrite E in K.
      destruct (npv (Fin (JS.qc (-9) 10)) amounts years baseYear);
        try discriminate K. reflexivity. }
    destruct (@irr_loop_bracket f tol_default eq_refl (JS.qc (-9) 10) (JS.qc 3 1)
                Hf 100 (JS.qc (-9) 10) (JS.qc 3 1)
                (Qcle_refl _) ltac:(discriminate) (Qcle_refl _) Hopp)
      as (lo' & hi' & k & Hk & H1 & H2 & H3 & Hw & Ho & Hr & Hend & Hiv & Hj).
    exists lo', hi', k. repeat split; auto.
    rewrite Hirr. unfold JS.gt. rewrite (lt_asym _ _ Hopp).
    replace (Number_isNaN fLo || Number_isNaN fHi) with false
      by (destruct fLo; destruct fHi; try contradiction; reflexivity).
    f_equal. exact Hr.
Qed.

Lemma irr_bracketing_witness :
  irr (RT := Reference.runtime) [n1; n1] [2025; 2030]%Z 2025%Z = None
  /\ exists x, irr (RT := Reference.runtime)
                 [JS.of_Z (-100); JS.of_Z 150] [2025; 2030]%Z 2025%Z = Some (Fin x).
Proof.
  split.
  - apply (proj1 (proj2 (proj2 (irr_bracketing Reference.runtime
                                  [n1; n1] [2025; 2030]%Z 2025%Z)))).
    + discriminate.
    + repeat constructor.
  - destruct (proj2 (proj2 (proj2 (irr_bracketing Reference.runtime
                [JS.of_Z (-100); JS.of_Z 150] [2025; 2030]%Z 2025%Z))))
      as (lo' & hi' & k & _ & _ & _ & _ & _ & _ & Hr & _ & _ & _).
    + vm_compute. reflexivity.
    + exists (midpoint lo' hi'). exact Hr.
Defined.

(** C5, as the specification words it, fails on a series of zeros, which is
    what [computed] passes for the wizard as it opens: both bound values are
    0, so they have the same sign and bracket no sign change, yet the guard
    [fLo * fHi > 0] does not fire and [irr] returns the first midpoint 1.05
    instead of null. *)
Lemma irr_zero_flows_not_null :
  let zeros := [n0; n0; n0; n0; n0; n0] in
  List.map cashflow_inr_wo_cp (perYear (@computed Reference.runtime initial_wizard))
  = zeros /\
  npv (RT := Reference.runtime) guessLow_default zeros YEARS BASE_YEAR = n0 /\
  npv (RT := Reference.runtime) guessHigh_default zeros YEARS BASE_YEAR = n0 /\
  irr (RT := Reference.runtime) zeros YEARS BASE_YEAR = Some (Fin (JS.qc 21 20)) /\
  irrWO (finance (@computed Reference.runtime initial_wizard))
  = Some (Fin (JS.qc 21 20)).
Proof.
  assert (L : forall l l' : list num,
             forallb (fun p => num_eqb (fst p) (snd p)) (combine l l') = true ->
             List.length l = List.length l' -> l = l').
  { induction l as [|x t IH]; intros [|y t'] H E; try discriminate E;
      [reflexivity|].
    cbn [combine forallb fst snd] in H. apply andb_true_iff in H.
    destruct H as [A B]. apply num_eqb_eq in A. subst y. f_equal.
    apply IH; [exact B | now injection E]. }
  assert (O : forall (o : option num) (q : Qc),
             match o with Some x => num_eqb x (Fin q) | None => false end = true ->
             o = Some (Fin q)).
  { intros [x|] q H; [|discriminate]. apply num_eqb_eq in H. now subst. }
  cbv zeta. split; [apply L; vm_compute; reflexivity|].
  split; [apply num_eqb_eq; vm_compute; reflexivity|].
  split; [apply num_eqb_eq; vm_compute; reflexivity|].
  split; apply O; vm_compute; reflexivity.
Qed.

(* ================================================================== *)
(** * Interpolation                                                    *)
(* ================================================================== *)

Section SetIndex.

Lemma set_index_length (s : list value) (k : nat) (v : value) :
  List.length (set_index s k v) = List.length s.
Proof.
  revert k. induction s as [|x t IH]; intros [|k]; simpl; auto.
Qed.

Lemma index_set_index (s : list value) (k j : nat) (v : value) :
  (k < List.length s)%nat ->
  index (set_index s k v) j = if Nat.eqb j k then v else index s j.
Proof.
  revert k j. induction s as [|x t IH]; intros k j Hk; [simpl in Hk; lia|].
  destruct k as [|k], j as [|j]; simpl; try reflexivity.
  unfold index in IH. apply IH. simpl in Hk. lia.
Qed.

Lemma index_out_of_range (s : list value) (k : nat) :
  (List.length s <= k)%nat -> index s k = VUndefined.
Proof. intro H. unfold index. now apply nth_overflow. Qed.

End SetIndex.

Section InterpolationFacts.
Context {RT : Runtime}.

(** The inner loop writes the interpolated values strictly between
    [lastIdx] and [i] and nothing else. *)
Lemma fill_gap_fold (l : nat) (dv : num) (n : nat) :
  forall (s : list value) (start : nat),
    (l < start)%nat -> (start + n <= List.length s)%nat ->
    let s' :=
      fold_left
        (fun s k => set_index s k (VNum (Number (index s l) + dv * JS.of_nat (k - l))))
        (seq start n) s in
    List.length s' = List.length s /\
    forall j,
      index s' j =
      if ((start <=? j) && (j <? start + n))%nat
      then VNum (Number (index s l) + dv * JS.of_nat (j - l))
      else index s j.
Proof.
  induction n as [|n IH]; intros s start Hl Hlen; cbn [seq fold_left].
  - split; [reflexivity|]. intro j.
    replace ((start <=? j) && (j <? start + 0))%nat with false; [reflexivity|].
    symmetry. apply andb_false_iff.
    destruct (Nat.leb_spec start j); [right | now left].
    apply Nat.ltb_ge. lia.
  - set (s1 := set_index s start (VNum (Number (index s l) + dv * JS.of_nat (start - l)))).
    assert (Hlen1 : List.length s1 = List.length s) by apply set_index_length.
    assert (Hl1 : index s1 l = index s l).
    { unfold s1. rewrite index_set_index by lia.
      destruct (Nat.eqb_spec l start); [lia | reflexivity]. }
    destruct (IH s1 (S start)) as [HL HI]; [lia | lia |].
    split; [now rewrite HL|].
    intro j. rewrite HI, Hl1.
    destruct (Nat.leb_spec (S start) j) as [A|A];
      destruct (Nat.ltb_spec j (S start + n)) as [B|B];
      destruct (Nat.leb_spec start j) as [C|C];
      destruct (Nat.ltb_spec j (start + S n)) as [D|D];
      cbn [andb]; try lia; try reflexivity.
    all: unfold s1; rewrite index_set_index by lia.
    all: destruct (Nat.eqb_spec j start); try lia; subst; reflexivity.
Qed.

Lemma fill_gap_spec (s : list value) (l i : nat) (dv : num) :
  (l < i)%nat -> (i <= List.length s)%nat ->
  List.length (fill_gap s l i dv) = List.length s /\
  forall j,
    index (fill_gap s l i dv) j =
    if ((l <? j) && (j <? i))%nat
    then VNum (Number (index s l) + dv * JS.of_nat (j - l))
    else index s j.
Proof.
  intros Hl Hi. unfold fill_gap.
  destruct (@fill_gap_fold l dv (i - S l) s (S l)) as [HL HI]; [lia | lia |].
  split; [exact HL|]. intro j. rewrite HI.
  replace (S l + (i - S l))%nat with i by lia.
  reflexivity.
Qed.

End InterpolationFacts.

Section InterpolationInvariant.
Context {RT : Runtime}.
Variable s : list value.

Lemma skipped_out_of_range (k : nat) : (List.length s <= k)%nat -> skipped_at s k.
Proof. intro H. unfold skipped_at. now rewrite index_out_of_range. Qed.

Lemma interp_inv_init : interp_inv s 0 s None.
Proof.
  constructor.
  - reflexivity.
  - intros j Hj. lia.
  - reflexivity.
  - reflexivity.
  - intros l r _ Hr. lia.
  - reflexivity.
Qed.

Lemma interp_inv_step (i : nat) (t : list value) (last : option nat) :
  (i < List.length s)%nat ->
  interp_inv s i t last ->
  let '(t', last') := interp_step (t, last) i in
  interp_inv s (S i) t' last'.
Proof.
  intros Hi [HL Hlast HU HF HG HR].
  assert (Hti : index t i = index s i).
  { apply HU. destruct last as [l|]; [|exact I]. destruct Hlast; lia. }
  unfold interp_step. rewrite Hti.
  destruct (skipped (index s i)) eqn:Sk.
  - (* the cell is skipped: nothing changes *)
    constructor.
    + exact HL.
    + destruct last as [l|].
      * destruct Hlast as (A & B & C). repeat split; auto.
        intros j Hj. destruct (Nat.eq_dec j i) as [->|]; [exact Sk | apply C; lia].
      * intros j Hj. destruct (Nat.eq_dec j i) as [->|]; [exact Sk | apply Hlast; lia].
    + exact HU.
    + exact HF.
    + intros l r Hlr Hr Fl Fr Hb k Hk.
      assert (r <> i) by (intro; subst r; unfold filled_at in Fr; congruence).
      apply (HG l r); auto; lia.
    + intros k Hk. apply HR. intros l r Hlk Hr Fl Fr.
      apply (Hk l r); auto; lia.
  - destruct last as [l|].
    + (* a gap from l to i is filled *)
      destruct Hlast as (Hli & Fl & Hbetween).
      assert (Htl : index t l = index s l) by (apply HU; lia).
      rewrite Htl.
      destruct (@fill_gap_spec RT t l i
                  ((Number (index s i) - Number (index s l)) / JS.of_nat (i - l)))
        as [FL FI]; [lia | lia |].
      constructor.
      * now rewrite FL.
      * repeat split; auto. intros j Hj. lia.
      * intros k Hk. rewrite FI.
        replace ((l <? k) && (k <? i))%nat with false; [apply HU; lia|].
        symmetry. apply andb_false_iff. right. apply Nat.ltb_ge. lia.
      * intros k Fk. rewrite FI.
        destruct ((l <? k) && (k <? i))%nat eqn:E; [|now apply HF].
        apply andb_true_iff in E. destruct E as [A B].
        apply Nat.ltb_lt in A, B.
        specialize (Hbetween k ltac:(lia)).
        unfold skipped_at, filled_at in *. congruence.
      * intros l' r Hlr Hr Fl' Fr Hb k Hk. rewrite FI.
        destruct (Nat.eq_dec r i) as [->|Hne].
        -- assert (l' = l).
           { destruct (Nat.lt_trichotomy l' l) as [A|[A|A]]; [|exact A|].
             - specialize (Hb l ltac:(lia)). unfold skipped_at, filled_at in *. congruence.
             - specialize (Hbetween l' ltac:(lia)).
               unfold skipped_at, filled_at in *. congruence. }
           subst l'.
           replace ((l <? k) && (k <? i))%nat with true.
           ++ unfold interpolated. now rewrite Htl.
           ++ symmetry. apply andb_true_iff. split; apply Nat.ltb_lt; lia.
        -- assert (r <= l)%nat.
           { destruct (Nat.le_gt_cases r l) as [A|A]; [exact A|].
             specialize (Hbetween r ltac:(lia)).
             unfold skipped_at, filled_at in *. congruence. }
           replace ((l <? k) && (k <? i))%nat with false.
           ++ apply (HG l' r); auto; lia.
           ++ symmetry. apply andb_false_iff. left. apply Nat.ltb_ge. lia.
      * intros k Hk. rewrite FI.
        destruct ((l <? k) && (k <? i))%nat eqn:E.
        -- apply andb_true_iff in E. destruct E as [A B].
           apply Nat.ltb_lt in A, B.
           exfalso. apply (Hk l i); auto; lia.
        -- apply HR. intros l' r Hlk Hr Fl' Fr. apply (Hk l' r); auto; lia.
    + (* the first filled cell *)
      constructor.
      * exact HL.
      * repeat split; auto. intros j Hj. lia.
      * intros k _. now apply HU.
      * exact HF.
      * intros l r Hlr Hr Fl Fr Hb k Hk.
        destruct (Nat.eq_dec r i) as [->|Hne].
        -- specialize (Hlast l Hlr). unfold skipped_at, filled_at in *. congruence.
        -- apply (HG l r); auto; lia.
      * intros k Hk. apply HU. exact I.
Qed.

Lemma interp_inv_run (n : nat) :
  (n <= List.length s)%nat ->
  let '(t, last) := fold_left interp_step (seq 0 n) (s, None) in
  interp_inv s n t last.
Proof.
  induction n as [|n IH]; intro Hn.
  - exact interp_inv_init.
  - rewrite seq_S, fold_left_app. cbn [fold_left Nat.add].
    specialize (IH ltac:(lia)).
    destruct (fold_left interp_step (seq 0 n) (s, None)) as [t last].
    apply (interp_inv_step (i := n)); [lia | exact IH].
Qed.

End InterpolationInvariant.

Lemma same_num_eq (a b : num) : same_num a b = true -> a = b.
Proof.
  destruct a, b; cbn; try discriminate; try reflexivity.
  intro H. apply (proj1 (Qc_eqb_eq _ _)) in H. now subst.
Qed.

Lemma same_value_eq (a b : value) : same_value a b = true -> a = b.
Proof.
  destruct a, b; cbn; try discriminate; try reflexivity; intro H.
  - apply Bool.eqb_prop in H. now subst.
  - apply same_num_eq in H. now subst.
  - apply String.eqb_eq in H. now subst.
Qed.

Lemma same_values_eq (l l' : list value) : same_values l l' = true -> l = l'.
Proof.
  revert l'. induction l as [|x t IH]; intros [|y t']; cbn; try discriminate;
    [reflexivity|].
  intro H. apply andb_true_iff in H. destruct H as [A B].
  apply same_value_eq in A. apply IH in B. now subst.
Qed.

(** C6.  [interpolateSeries] keeps the length and every filled cell; a
    skipped (blank or non-numeric) cell [k] between the nearest filled cells
    [l < k < r] gets the value of the straight line through them; the cells
    before the first filled cell and after the last one are left as they are;
    and [5, blank, blank, 20, blank] becomes [5, 10, 15, 20, blank]. *)
Theorem interpolation_fills_interior_gaps (RT : Runtime) :
  (forall s : list value,
     let out := interpolateSeries s in
     List.length out = List.length s
     /\ (forall k, skipped (index s k) = false -> index out k = index s k)
     /\ (forall l r k,
           (l < k < r)%nat ->
           skipped (index s l) = false -> skipped (index s r) = false ->
           (forall j, (l < j < r)%nat -> skipped (index s j) = true) ->
           index out k = interpolated s l r k)
     /\ (forall k, (forall j, (j < k)%nat -> skipped (index s j) = true) ->
                   index out k = index s k)
     /\ (forall k, (forall j, (k < j)%nat -> skipped (index s j) = true) ->
                   index out k = index s k))
  /\ interpolateSeries
       [VNum (JS.of_Z 5); VStr ""; VStr ""; VNum (JS.of_Z 20); VStr ""]
     = [VNum (JS.of_Z 5); VNum (JS.of_Z 10); VNum (JS.of_Z 15);
        VNum (JS.of_Z 20); VStr ""].
Proof.
  split.
  - intros s out.
    pose proof (@interp_inv_run RT s (List.length s) (Nat.le_refl _)) as Inv.
    unfold out, interpolateSeries.
    destruct (fold_left interp_step (seq 0 (List.length s)) (s, None)) as [t last].
    cbn [fst]. destruct Inv as [HL Hlast HU HF HG HR].
    split; [exact HL|]. split; [exact HF|]. split; [|split].
    + intros l r k Hk Fl Fr Hb.
      assert (r < List.length s)%nat.
      { destruct (Nat.lt_ge_cases r (List.length s)) as [A|A]; [exact A|].
        pose proof (skipped_out_of_range s A) as B. unfold skipped_at in B.
        congruence. }
      apply (HG l r); auto; lia.
    + intros k Hk. apply HR. intros l r Hlk _ Fl _.
      specialize (Hk l ltac:(lia)). unfold filled_at in Fl. congruence.
    + intros k Hk. apply HR. intros l r Hlk _ _ Fr.
      specialize (Hk r ltac:(lia)). unfold filled_at in Fr. congruence.
  - apply same_values_eq. vm_compute. reflexivity.
Qed.

Lemma interpolation_fills_interior_gaps_witness :
  index (interpolateSeries (RT := Reference.runtime)
           [VStr "5"; VStr ""; VStr ""; VStr "20"; VStr ""]) 2
  = interpolated (RT := Reference.runtime)
      [VStr "5"; VStr ""; VStr ""; VStr "20"; VStr ""] 0 3 2.
Proof.
  apply (proj1 (proj2 (proj2 (proj1 (interpolation_fills_interior_gaps
                                       Reference.runtime) _)))).
  - lia.
  - reflexivity.
  - reflexivity.
  - intros j Hj. assert (j = 1 \/ j = 2)%nat as [-> | ->] by lia; reflexivity.
Defined.

(* ================================================================== *)
(** * Merged catalogs                                                  *)
(* ================================================================== *)

Section MergeFacts.
Context {RT : Runtime}.
Variable A : Type.
Variable key : A -> option string.


Lemma mem_In (k : string) (l : list string) : mem k l = true <-> In k l.
Proof.
  unfold mem. rewrite existsb_exists. split.
  - intros (x & Hx & E). apply String.eqb_eq in E. now subst.
  - intro H. exists k. split; [exact H | apply String.eqb_refl].
Qed.

Lemma map_keys_set (m : jsmap A) (k : string) (v : A) :
  map_keys (map_set m k v) =
  if mem k (map_keys m) then map_keys m else (map_keys m ++ [k])%list.
Proof.
  induction m as [|[k' v'] t IH]; cbn; [reflexivity|].
  rewrite (String.eqb_sym k k').
  destruct (String.eqb k' k) eqn:E; cbn; [reflexivity|].
  unfold map_keys, mem in IH. rewrite IH.
  now destruct (existsb (String.eqb k) (List.map fst t)).
Qed.

Lemma map_get_set (m : jsmap A) (k k' : string) (v : A) :
  map_get (map_set m k' v) k = if String.eqb k' k then Some v else map_get m k.
Proof.
  induction m as [|[k0 v0] t IH]; cbn.
  - reflexivity.
  - destruct (String.eqb k0 k') eqn:E; cbn.
    + apply String.eqb_eq in E. subst k0.
      now destruct (String.eqb k' k).
    + destruct (String.eqb k0 k) eqn:E0.
      * apply String.eqb_eq in E0. subst k0.
        rewrite String.eqb_sym in E. now rewrite E.
      * exact IH.
Qed.




End MergeFacts.

Section MergeTheory.
Context {RT : Runtime}.
Variable A : Type.
Variable key : A -> option string.


Lemma set_all_get (k : string) (arr : list A) :
  forall m : jsmap A,
    map_get (set_all key m arr) k = or_row (last_with key k arr) (map_get m k).
Proof.
  induction arr as [|x t IH]; intro m; [reflexivity|].
  unfold set_all in *. cbn [fold_left last_with].
  rewrite IH. unfold stored_under.
  destruct (last_with key k t) as [y|]; [reflexivity|]. cbn [or_row].
  destruct (row_key key x) as [k'|]; [|reflexivity].
  rewrite map_get_set. now destruct (String.eqb k' k).
Qed.

Lemma well_keyed_set (m : jsmap A) (k : string) (x : A) :
  row_key key x = Some k -> well_keyed key m -> well_keyed key (map_set m k x).
Proof.
  intros Hk [Hnd Hrows]. split.
  - rewrite map_keys_set. destruct (mem k (map_keys m)) eqn:E; [exact Hnd|].
    apply NoDup_app; [exact Hnd | repeat constructor; intros [] | ].
    intros y Hy [<- | []]. apply mem_In in Hy. congruence.
  - clear Hnd. induction m as [|[k0 v0] t IH]; cbn.
    + intros k' x' [H | []]. now injection H as <- <-.
    + destruct (String.eqb k0 k) eqn:E.
      * apply String.eqb_eq in E. subst k0.
        intros k' x' [H | H]; [now injection H as <- <- | apply Hrows; now right].
      * intros k' x' [H | H]; [apply Hrows; now left|].
        apply IH; [|exact H]. intros k1 x1 H1. apply Hrows. now right.
Qed.

Lemma well_keyed_set_all (arr : list A) :
  forall m, well_keyed key m -> well_keyed key (set_all key m arr).
Proof.
  induction arr as [|x t IH]; intros m Hm; [exact Hm|].
  unfold set_all in *. cbn [fold_left]. apply IH.
  destruct (row_key key x) as [k|] eqn:E; [|exact Hm].
  now apply well_keyed_set.
Qed.

Lemma well_keyed_get (m : jsmap A) (k : string) (x : A) :
  well_keyed key m -> In (k, x) m -> map_get m k = Some x.
Proof.
  intros [Hnd _]. induction m as [|[k0 v0] t IH]; intro Hin; [contradiction|].
  cbn in *. inversion Hnd as [|? ? Hnot Hnd']; subst.
  destruct Hin as [H | H].
  - injection H as -> ->. now rewrite String.eqb_refl.
  - destruct (String.eqb k0 k) eqn:E; [|now apply IH].
    apply String.eqb_eq in E. subst k0. exfalso. apply Hnot.
    change (In (fst (k, x)) (List.map fst t)). now apply in_map.
Qed.



Lemma last_with_key (k : string) (arr : list A) (x : A) :
  last_with key k arr = Some x -> row_key key x = Some k /\ In x arr.
Proof.
  induction arr as [|y t IH]; [discriminate|].
  cbn [last_with]. destruct (last_with key k t) as [z|]; cbn [or_row].
  - intro H. injection H as ->. destruct (IH eq_refl). split; [assumption | now right].
  - unfold stored_under. destruct (row_key key y) as [k'|] eqn:E; [|discriminate].
    destruct (String.eqb k' k) eqn:Ek; [|discriminate].
    intro H. injection H as ->. apply String.eqb_eq in Ek. subst k'.
    split; [exact E | now left].
Qed.

Lemma merged_map_well_keyed (arrA arrB : list A) :
  well_keyed key (merged_map key arrA arrB).
Proof.
  apply well_keyed_set_all, well_keyed_set_all.
  split; [constructor | intros k x []].
Qed.


Lemma merged_map_get (arrA arrB : list A) (k : string) :
  map_get (merged_map key arrA arrB) k
  = or_row (last_with key k arrB) (last_with key k arrA).
Proof.
  unfold merged_map. rewrite !set_all_get. cbn [map_get].
  now destruct (last_with key k arrA).
Qed.

End MergeTheory.




(* ================================================================== *)
(** * Emission factor of an electricity line                           *)
(* ================================================================== *)

Section ElectricityFacts.
Context {RT : Runtime}.

(** The electricity total of a year is the electricity loop run from 0. *)
Lemma year_result_elec_t (w : Wizard) (B yr : Z) (i : nat) :
  exists d4,
    elec_t (pieces (year_result w B yr i))
    = fst (fold_left
             (elec_step (electricity (dataSources w))
                (Math_max n0 (Math_min n1 (num_or0 (index (adoption w) i))))
                (Math_max n0 (JS.of_Z yr - JS.of_Z B)) i)
             (elecLines w) (n0, d4)).
Proof.
  unfold year_result.
  destruct (fold_left _ (fuelLines w) _) as [f1 d1].
  destruct (fold_left _ (rawLines w) _) as [f2 d2].
  destruct (fold_left _ (transLines w) _) as [f3 d3].
  destruct (fold_left _ (wasteLines w) _) as [f4 d4].
  exists d4.
  destruct (fold_left _ (elecLines w) _) as [f5 d5].
  reflexivity.
Qed.

(** [find] returns the first row with the state. *)
Lemma find_state_row (pre post : list ElecRow) (row : ElecRow) (st : string) :
  state row = Some st ->
  (forall r, In r pre -> state r <> Some st) ->
  find_state (pre ++ row :: post) st = Some row.
Proof.
  intros Hrow. unfold find_state.
  induction pre as [|x t IH]; intro Hpre; cbn [app find].
  - rewrite Hrow, String.eqb_refl. reflexivity.
  - destruct (state x) as [s|] eqn:Ex.
    + destruct (String.eqb s st) eqn:Es.
      * apply String.eqb_eq in Es. subst s.
        exfalso. apply (Hpre x); [now left | exact Ex].
      * apply IH. intros r Hr. apply Hpre. now right.
    + apply IH. intros r Hr. apply Hpre. now right.
Qed.

(** A default that is a number ends a chain of [??]. *)
Lemma coalesce_default (a b : value) (q : num) :
  (a ?? VNum q) ?? b = a ?? VNum q.
Proof. destruct a; reflexivity. Qed.


(** The tons of the electricity loop, line by line. *)
Lemma elec_total (ds : list ElecRow) (a y : num) (i : nat) (l : list ElecLine) :
  forall t d,
    fst (fold_left (elec_step ds a y i) l (t, d))
    = fold_left (fun s ln =>
                   s + a * Number (index (deltaMWh ln) i ||| VNum n0)
                       * elec_effEf ds ln y i) l t.
Proof.
  induction l as [|ln l IH]; intros t d; [reflexivity|].
  cbn [fold_left]. unfold elec_step at 2. apply IH.
Qed.

Lemma year_result_elec_total (w : Wizard) (B yr : Z) (i : nat) :
  elec_t (pieces (year_result w B yr i))
  = fold_left (fun s ln =>
                 s + Math_max n0 (Math_min n1 (num_or0 (index (adoption w) i)))
                     * Number (index (deltaMWh ln) i ||| VNum n0)
                     * elec_effEf (electricity (dataSources w)) ln
                         (Math_max n0 (JS.of_Z yr - JS.of_Z B)) i)
              (elecLines w) n0.
Proof.
  destruct (year_result_elec_t w B yr i) as [d4 ->]. apply elec_total.
Qed.


End ElectricityFacts.

(** C8.  For an electricity line and a year index [i], the entry
    [efOvPerYear[i]] counts as an override exactly when it is neither the
    empty string nor null or undefined.  With an override the effective
    emission factor is that entry (as a number), whatever the catalog, the
    drift and the year; without one it is the catalog factor of the line's
    state times [(1 + efEscPctYr/100) ^ yearsSinceBase], the catalog factor
    being the [ef_tco2_per_mwh] of the first catalog row with the line's state
    (0.710 when that row has none).  The electricity tons of a year are the
    sum over the electricity lines of adoption times MWh times this factor. *)
Theorem electricity_ef_override (RT : Runtime) :
  (forall (ln : ElecLine) (i : nat),
      hasPerYearOv ln i = true <->
      index (efOvPerYear ln) i <> VStr "" /\
      index (efOvPerYear ln) i <> VNull /\
      index (efOvPerYear ln) i <> VUndefined)
  /\ (forall (ds : list ElecRow) (ln : ElecLine) (yearsSinceBase : num) (i : nat),
        hasPerYearOv ln i = true ->
        elec_effEf ds ln yearsSinceBase i = Number (index (efOvPerYear ln) i))
  /\ (forall (ds ds' : list ElecRow) (ln ln' : ElecLine) (y y' : num) (i : nat),
        hasPerYearOv ln i = true ->
        index (efOvPerYear ln') i = index (efOvPerYear ln) i ->
        elec_effEf ds' ln' y' i = elec_effEf ds ln y i)
  /\ (forall (ds : list ElecRow) (ln : ElecLine) (yearsSinceBase : num) (i : nat),
        hasPerYearOv ln i = false ->
        elec_effEf ds ln yearsSinceBase i
        = Number (getElecEFperMWh (elec_base ds ln) ?? VNum n0)
          * Math_pow (n1 + Number (el_efEscPctYr ln ||| VNum n0) / n100)
                     yearsSinceBase)
  /\ (forall (pre post : list ElecRow) (row : ElecRow) (ln : ElecLine)
             (yearsSinceBase : num) (i : nat),
        state row = Some (el_state ln) ->
        (forall r, In r pre -> state r <> Some (el_state ln)) ->
        hasPerYearOv ln i = false ->
        elec_effEf (pre ++ row :: post) ln yearsSinceBase i
        = Number (ef_tco2_per_mwh row ?? VNum (Fin (JS.qc 710 1000)))
          * Math_pow (n1 + Number (el_efEscPctYr ln ||| VNum n0) / n100)
                     yearsSinceBase)
  /\ (forall (ds : list ElecRow) (a y : num) (i : nat) (t d : num) (ln : ElecLine),
        fst (elec_step ds a y i (t, d) ln)
        = t + a * Number (index (deltaMWh ln) i ||| VNum n0) * elec_effEf ds ln y i)
  /\ (forall (w : Wizard) (B yr : Z) (i : nat),
        exists d4,
          elec_t (pieces (year_result w B yr i))
          = fst (fold_left
                   (elec_step (electricity (dataSources w))
                      (Math_max n0 (Math_min n1 (num_or0 (index (adoption w) i))))
                      (Math_max n0 (JS.of_Z yr - JS.of_Z B)) i)
                   (elecLines w) (n0, d4)))
  /\ (forall (w : Wizard) (B yr : Z) (i : nat),
        elec_t (pieces (year_result w B yr i))
        = fold_left
            (fun s ln =>
               s + Math_max n0 (Math_min n1 (Number (index (adoption w) i ||| VNum n0)))
                   * Number (index (deltaMWh ln) i ||| VNum n0)
                   * elec_effEf (electricity (dataSources w)) ln
                       (Math_max n0 (JS.of_Z yr - JS.of_Z B)) i)
            (elecLines w) n0).
Proof.
  assert (Hov : forall (ln : ElecLine) (i : nat),
             hasPerYearOv ln i = true <->
             index (efOvPerYear ln) i <> VStr "" /\
             index (efOvPerYear ln) i <> VNull /\
             index (efOvPerYear ln) i <> VUndefined).
  { intros ln i. unfold hasPerYearOv.
    destruct (index (efOvPerYear ln) i) as [| |b|n|s]; cbn.
    - split; [discriminate | intros (_ & _ & H); now contradiction H].
    - split; [discriminate | intros (_ & H & _); now contradiction H].
    - split; [intros _; repeat split; discriminate | reflexivity].
    - split; [intros _; repeat split; discriminate | reflexivity].
    - destruct s; cbn.
      + split; [discriminate | intros (H & _); now contradiction H].
      + split; [intros _; repeat split; discriminate | reflexivity]. }
  split; [exact Hov|].
  split; [|split; [|split; [|split; [|split; [|split]]]]].
  - intros ds ln y i H. unfold elec_effEf. now rewrite H.
  - intros ds ds' ln ln' y y' i H E. unfold elec_effEf.
    assert (H' : hasPerYearOv ln' i = true).
    { apply Hov. rewrite E. now apply Hov. }
    now rewrite H, H', E.
  - intros ds ln y i H. unfold elec_effEf. now rewrite H.
  - intros pre post row ln y i Hrow Hpre H.
    unfold elec_effEf, elec_baseEf, elec_base. rewrite H.
    rewrite (find_state_row pre post row Hrow Hpre).
    cbn [or_row]. unfold getElecEFperMWh, opt_field.
    now rewrite coalesce_default.
  - intros. reflexivity.
  - intros. apply year_result_elec_t.
  - intros. apply year_result_elec_total.
Qed.

Lemma electricity_ef_override_witness :
  let ds := [elec_row "Goa" 400 (JS.qc 9 10); elec_row "India" 500 (JS.qc 8 10)] in
  let ln := elec_line 10 [VStr ""; VStr "0.5"; VNum n2] in
  elec_effEf (RT := Reference.runtime) ds ln (JS.of_Z 5) 1
  = Number (RT := Reference.runtime) (VStr "0.5")
  /\ elec_effEf (RT := Reference.runtime) ds ln (JS.of_Z 5) 2 = n2
  /\ elec_effEf (RT := Reference.runtime) ds ln (JS.of_Z 2) 0 = Fin (JS.qc 968 1000).
Proof.
  cbv zeta. split; [|split].
  - apply (proj1 (proj2 (electricity_ef_override Reference.runtime))).
    reflexivity.
  - apply (proj1 (proj2 (electricity_ef_override Reference.runtime))).
    reflexivity.
  - assert (H : forall r, In r [elec_row "Goa" 400 (JS.qc 9 10)] ->
                       state r <> Some "India").
    { intros r [<- | []]. discriminate. }
    pose proof (proj1 (proj2 (proj2 (proj2 (proj2
                  (electricity_ef_override Reference.runtime)))))
                  [elec_row "Goa" 400 (JS.qc 9 10)] []
                  (elec_row "India" 500 (JS.qc 8 10))
                  (elec_line 10 [VStr ""; VStr "0.5"; VNum n2]) (JS.of_Z 2) 0%nat
                  eq_refl H eq_refl) as E.
    cbn [app] in E. rewrite E. apply num_eqb_eq. vm_compute. reflexivity.
Defined.

(* ================================================================== *)
(** * Catalog fallbacks                                                *)
(* ================================================================== *)

Section FallbackFacts.
Context {RT : Runtime}.
Local Open Scope Qc_scope.

Lemma coalesce_nullish (a b : value) : is_nullish a = true -> a ?? b = b.
Proof. intro H. unfold JS.coalesce. now rewrite H. Qed.






End FallbackFacts.



(* ================================================================== *)
(** * Quadratic fit                                                    *)
(* ================================================================== *)

Section IndexLoops.
Variables (St E : Type) (g : St -> E -> St) (d : E).



End IndexLoops.

Section QsumFacts.
Local Open Scope Qc_scope.












End QsumFacts.

Section FitLoops.
Context {RT : Runtime}.
Local Open Scope Qc_scope.

Variable p : Qc -> Qc.







End FitLoops.

Section ExactFit.
Context {RT : Runtime}.
Local Open Scope Qc_scope.







End ExactFit.


Section ExactFitTheorem.
Local Open Scope Qc_scope.


End ExactFitTheorem.




(* ================================================================== *)
(** * Further properties: quadratic fit in binary64                    *)
(* ================================================================== *)

(** X6.  In binary64 the determinants of the fit cancel.  For x = 1000,
    1001, 1002 on [y = 2 + 3x - x^2] (all numbers are integers below 2^53;
    the exact determinant is 4) the source computes D = -4766, which passes
    the guard, and returns a = 111938.28..., b = -1246.76..., c = 0.1368...
    instead of 2, 3 and -1, whatever the engine computes for [v ** 2]. *)
Theorem quadratic_fit_cancellation (square : float -> float) :
  let xs := [1000; 1001; 1002]%float in
  let ys := [-996998; -998996; -1000996]%float in
  let xsQ := [JS.qc 1000 1; JS.qc 1001 1; JS.qc 1002 1] in
  let fit := quadraticFit (binary64 square) xs ys in
  fit_determinant (exact_arithmetic (RT := Reference.runtime))
    (List.map Fin xsQ) (List.map (fun x => Fin (exact_quadratic x)) xsQ)
  = JS.of_Z 4 /\
  List.map (fun x => Fin (exact_quadratic x)) xsQ
  = [JS.of_Z (-996998); JS.of_Z (-998996); JS.of_Z (-1000996)] /\
  fit_determinant (binary64 square) xs ys = (-4766)%float /\
  fit_a fit = 0x1.b5424867fd6bfp+16%float /\
  fit_b fit = (-0x1.37b0eeeb44377p+10)%float /\
  fit_c fit = 0x1.182bd4996818fp-3%float /\
  PrimFloat.ltb 100000%float (fit_a fit) = true.
Proof.
  cbv zeta. split; [apply num_eqb_eq; vm_compute; reflexivity|].
  split.
  { cbn [List.map]. repeat (f_equal; [apply num_eqb_eq; vm_compute; reflexivity|]).
    reflexivity. }
  vm_compute. repeat split.
Qed.



(* ================================================================== *)
(** * Further properties: net present value and rate of return *)
(* ================================================================== *)

Section NpvSums.
Context {RT : Runtime}.
Local Open Scope Qc_scope.

Lemma div_one (a : num) : (a / n1)%num = a.
Proof.
  destruct a as [q| | |]; try reflexivity.
  cbn [JS.div n1 JS.one JS.of_Z].
  replace (Qc_eqb (JS.qc 1 1) (Q2Qc 0)) with false by reflexivity.
  f_equal. apply Qc_is_canon. rewrite this_div.
  change (this (JS.qc 1 1)) with 1%Q. field.
Qed.

Lemma Qcpower_one (n : nat) : (JS.qc 1 1) ^ n = JS.qc 1 1.
Proof.
  induction n as [|n IH]; [reflexivity|].
  cbn [Qcpower]. rewrite IH. reflexivity.
Qed.

(** When every discount factor that the fold meets is 1, the net present
    value is the running sum. *)
Lemma npv_fold_undiscounted (r : num) (years : list Z) (baseYear : Z)
      (amounts : list num) :
  forall acc i,
    (forall k, (i <= k < i + List.length amounts)%nat ->
               Math_pow (n1 + r) (Math_max n0 (year_offset years baseYear k)) = n1) ->
    fst (fold_left (npv_step r years baseYear) amounts (acc, i))
    = fold_left JS.add amounts acc.
Proof.
  induction amounts as [|amt t IH]; intros acc i H; [reflexivity|].
  cbn [fold_left npv_step]. rewrite H by (cbn [List.length]; lia).
  rewrite div_one. apply IH. intros k Hk. apply H. cbn [List.length]. lia.
Qed.

Lemma year_offset_at (years : list Z) (baseYear : Z) (k : nat) :
  (k < List.length years)%nat ->
  exists y, In y years /\
            Math_max n0 (year_offset years baseYear k)
            = JS.of_Z (Z.max 0 (y - baseYear)).
Proof.
  intro Hk. unfold year_offset.
  destruct (nth_error years k) as [y|] eqn:E.
  - exists y. split; [eapply nth_error_In; eauto|].
    change (JS.of_Z y - JS.of_Z baseYear)%num
      with (Fin (JS.qc y 1 - JS.qc baseYear 1)).
    rewrite qc_minus. fold (JS.of_Z (y - baseYear)).
    apply Math_max_0_of_Z.
  - apply nth_error_None in E. lia.
Qed.

Lemma nan_add (a : num) : (a + NaN)%num = NaN.
Proof. now destruct a. Qed.

Lemma npv_fold_nan (r : num) (years : list Z) (baseYear : Z) (amounts : list num) :
  forall i, fst (fold_left (npv_step r years baseYear) amounts (NaN, i)) = NaN.
Proof.
  induction amounts as [|amt t IH]; intro i; [reflexivity|].
  cbn [fold_left npv_step]. apply IH.
Qed.

Lemma npv_fold_missing_year (r : num) (years : list Z) (baseYear : Z)
      (amounts : list num) :
  forall acc i,
    (i <= List.length years)%nat ->
    (List.length years < i + List.length amounts)%nat ->
    fst (fold_left (npv_step r years baseYear) amounts (acc, i)) = NaN.
Proof.
  induction amounts as [|amt t IH]; intros acc i Hi Hlen.
  - cbn [List.length] in Hlen. lia.
  - cbn [fold_left npv_step].
    destruct (Nat.eq_dec i (List.length years)) as [E | NE].
    + assert (Hy : year_offset years baseYear i = NaN).
      { unfold year_offset.
        replace (nth_error years i) with (@None Z); [reflexivity|].
        symmetry. apply nth_error_None. lia. }
      rewrite Hy.
      replace (Math_max n0 NaN) with NaN by reflexivity.
      replace (Math_pow (n1 + r) NaN) with NaN by reflexivity.
      replace (amt / NaN)%num with NaN by (now destruct amt).
      rewrite nan_add. apply npv_fold_nan.
    + apply IH; [lia|]. cbn [List.length] in Hlen. lia.
Qed.

End NpvSums.

(** X1.  [npv] does not discount a flow whose year is at or before the base
    year: [Math.max(0, years[i] - baseYear)] is 0 and [Math.pow(1 + rate, 0)]
    is 1 for every rate, NaN included.  When each amount has a year and no year
    is after the base year, the result is the plain left-to-right sum of the
    amounts. *)
Theorem npv_base_year_flows_undiscounted (RT : Runtime) (rate : num)
        (amounts : list num) (years : list Z) (baseYear : Z) :
  (List.length amounts <= List.length years)%nat ->
  (forall y, In y years -> (y <= baseYear)%Z) ->
  npv rate amounts years baseYear = fold_left JS.add amounts n0.
Proof.
  intros Hlen Hy. unfold npv. apply npv_fold_undiscounted.
  intros k Hk.
  destruct (@year_offset_at years baseYear k) as (y & Hin & E); [lia|].
  rewrite E. rewrite Z.max_l by (specialize (Hy y Hin); lia).
  destruct (n1 + rate)%num; reflexivity.
Qed.

Lemma npv_base_year_flows_undiscounted_witness :
  npv (RT := Reference.runtime) NaN [JS.of_Z 5; JS.of_Z 7] [2020; 2025]%Z 2025%Z
  = fold_left JS.add [JS.of_Z 5; JS.of_Z 7] n0.
Proof.
  apply npv_base_year_flows_undiscounted.
  - cbn. lia.
  - intros y [<- | [<- | []]]; lia.
Defined.

(** X2.  At a rate of 0 every discount factor [Math.pow(1, k)] is 1, so the
    net present value of amounts that all have a year is their plain sum. *)
Theorem npv_zero_rate_is_sum (RT : Runtime) (amounts : list num)
        (years : list Z) (baseYear : Z) :
  (List.length amounts <= List.length years)%nat ->
  npv n0 amounts years baseYear = fold_left JS.add amounts n0.
Proof.
  intros Hlen. unfold npv. apply npv_fold_undiscounted.
  intros k Hk.
  destruct (@year_offset_at years baseYear k) as (y & Hin & E); [lia|].
  rewrite E.
  change (n1 + n0)%num with (Fin (JS.qc 1 1)).
  rewrite Math_pow_of_Z.
  destruct (Z.max 0 (y - baseYear)) as [|p|p] eqn:Ez; cbn [JS.pow_Z].
  - reflexivity.
  - now rewrite Qcpower_one.
  - lia.
Qed.

Lemma npv_zero_rate_is_sum_witness :
  npv (RT := Reference.runtime) n0 [JS.of_Z (-100); JS.of_Z 150] [2025; 2030]%Z 2025%Z
  = fold_left JS.add [JS.of_Z (-100); JS.of_Z 150] n0.
Proof.
  apply npv_zero_rate_is_sum. cbn. lia.
Defined.

(** X3.  [npv] reads [years[i]] for every amount; an amount without a year
    gives [undefined - baseYear], which is NaN, and the sum stays NaN.  With
    fewer years than amounts the result is NaN for every rate. *)
Theorem npv_missing_year_is_nan (RT : Runtime) (rate : num) (amounts : list num)
        (years : list Z) (baseYear : Z) :
  (List.length years < List.length amounts)%nat ->
  npv rate amounts years baseYear = NaN.
Proof.
  intro Hlen. unfold npv. apply npv_fold_missing_year; lia.
Qed.

Lemma npv_missing_year_is_nan_witness :
  npv (RT := Reference.runtime) n0 [JS.of_Z 1; JS.of_Z 2] [2025]%Z 2025%Z = NaN.
Proof.
  apply npv_missing_year_is_nan. cbn. lia.
Defined.

Section IrrRange.
Context {RT : Runtime}.
Local Open Scope Qc_scope.

(** Whatever the signs of [f], the loop returns the middle of an interval
    inside the one it started from. *)
Lemma irr_loop_in_interval (f : num -> num) (tol : num) (it : nat) :
  forall (lo hi : Qc) (fLo fHi : num),
    lo <= hi ->
    exists q, irr_loop f tol it (Fin lo) (Fin hi) fLo fHi = Fin q
              /\ lo <= q /\ q <= hi.
Proof.
  induction it as [|it IH]; intros lo hi fLo fHi Hle;
    cbn [irr_loop]; rewrite mid_num;
    destruct (midpoint_between Hle) as [H1 H2].
  - eexists. split; [reflexivity|]. split; assumption.
  - destruct (Math_abs (f (Fin (midpoint lo hi))) <? tol)%num.
    + eexists. split; [reflexivity|]. split; assumption.
    + destruct (fLo * f (Fin (midpoint lo hi)) <? n0)%num.
      * destruct (IH lo (midpoint lo hi) fLo (f (Fin (midpoint lo hi))) H1)
          as (q & E & A & B).
        exists q. split; [exact E|]. split; [exact A|].
        eapply Qcle_trans; eassumption.
      * destruct (IH (midpoint lo hi) hi (f (Fin (midpoint lo hi))) fHi H2)
          as (q & E & A & B).
        exists q. split; [exact E|]. split; [|exact B].
        eapply Qcle_trans; eassumption.
Qed.

End IrrRange.

Lemma some_eq (A : Type) (a b : A) : Some a = Some b -> a = b.
Proof. intro H. now injection H. Qed.

(** X4.  Whenever [irr] returns a rate, it is a finite number between the two
    guesses -0.9 and 3: the loop only ever returns the middle of a
    sub-interval of the guesses, also when the end values do not bracket a
    root (a product of exactly 0). *)
Theorem irr_between_guesses (RT : Runtime) (amounts : list num) (years : list Z)
        (baseYear : Z) (x : num) :
  irr amounts years baseYear = Some x ->
  exists q : Qc, x = Fin q /\ (JS.qc (-9) 10 <= q)%Qc /\ (q <= JS.qc 3 1)%Qc.
Proof.
  unfold irr, irr_from.
  destruct (Number_isNaN _ || Number_isNaN _); [discriminate|].
  destruct (_ >? n0); [discriminate|].
  intro H. apply some_eq in H. subst x.
  unfold guessLow_default, guessHigh_default, JS.of_Z.
  apply irr_loop_in_interval.
  unfold Qcle. cbn. unfold Qle. cbn. lia.
Qed.

Lemma irr_between_guesses_witness :
  exists q : Qc,
    Fin (JS.qc 134217729 268435456) = Fin q
    /\ (JS.qc (-9) 10 <= q)%Qc /\ (q <= JS.qc 3 1)%Qc.
Proof.
  apply (@irr_between_guesses Reference.runtime
           [JS.of_Z (-100); JS.of_Z 150] [2025; 2026]%Z 2025%Z).
  vm_compute. reflexivity.
Defined.

(* ================================================================== *)
(** * Further properties: annuity factor *)
(* ================================================================== *)

Section AnnuityFacts.
Context {RT : Runtime}.
Local Open Scope Qc_scope.

Lemma Qcpower_gt_one (R : Qc) (n : nat) : 0 < R -> 1 < (1 + R) ^ (S n).
Proof.
  intro H. induction n as [|n IH].
  - cbn [Qcpower]. qc_to_q. change (this 1) with 1%Q. lra.
  - change ((1 + R) ^ S (S n)) with ((1 + R) * (1 + R) ^ S n).
    set (g := (1 + R) ^ S n) in *.
    qc_to_q. change (this 1) with 1%Q in *. nra.
Qed.

Lemma loan_balance_closed (R g : Qc) (k : nat) :
  g <> 1 ->
  loan_balance R (R * g / (g - 1)) k * (g - 1) = g - (1 + R) ^ k.
Proof.
  intro Hg.
  assert (Hg' : g - 1 <> 0).
  { intro E. apply Hg. transitivity (g - 1 + 1); [ring | rewrite E; ring]. }
  induction k as [|k IH].
  - cbn [loan_balance Qcpower]. ring.
  - cbn [loan_balance Qcpower].
    transitivity (loan_balance R (R * g / (g - 1)) k * (g - 1) * (1 + R)
                  - R * g / (g - 1) * (g - 1)); [ring|].
    rewrite IH. unfold Qcdiv. rewrite <- !Qcmult_assoc.
    rewrite (Qcmult_comm (/ (g - 1))), Qcmult_inv_r by exact Hg'. ring.
Qed.

Lemma annuityFactor_formula (R : Qc) (N : nat) :
  JS.qc 1 1000000000 <= R ->
  annuityFactor (Fin R) (JS.of_nat (S N))
  = Fin (R * (1 + R) ^ S N / ((1 + R) ^ S N - 1)).
Proof.
  intro HR.
  assert (HR0 : 0 < R).
  { eapply Qclt_le_trans; [|exact HR]. reflexivity. }
  unfold annuityFactor, JS.of_nat. cbn [Number_isFinite JS.of_Z negb orb].
  replace (JS.of_Z (Z.of_nat (S N)) <=? n0)%num with false.
  2:{ symmetry. destruct (_ <=? _)%num eqn:E; [|reflexivity].
      apply le_Fin in E. exfalso.
      assert (L : JS.qc 0 1 < JS.qc (Z.of_nat (S N)) 1) by (apply qc_lt; lia).
      exact (Qcle_not_lt _ _ E L). }
  cbn [Math_abs]. rewrite (Qc_pos_not_neg HR0).
  replace (Fin R <? Fin (JS.qc 1 1000000000))%num with false.
  2:{ symmetry. cbn [JS.lt]. apply Qc_ltb_ge. exact HR. }
  change (n1 + Fin R)%num with (Fin (1 + R)).
  rewrite Math_pow_of_Z.
  cbn [Z.of_nat JS.pow_Z]. rewrite SuccNat2Pos.id_succ.
  pose proof (@Qcpower_gt_one R N HR0) as Hg.
  set (g := (1 + R) ^ S N) in *.
  change (Fin g - n1)%num with (Fin (g - 1)).
  cbn [JS.mul JS.div].
  replace (Qc_eqb (g - 1) (Q2Qc 0)) with false; [reflexivity|].
  symmetry. apply Qc_eqb_neq. intro E.
  assert (g = 1) by (transitivity (g - 1 + 1); [ring | rewrite E; ring]).
  subst g. rewrite H in Hg. discriminate Hg.
Qed.

End AnnuityFacts.

(** X5.  For a whole number of years [N >= 1] and a rate of at least 1e-9,
    [annuityFactor] is the yearly payment that repays a loan of 1 exactly:
    if the balance grows by the rate each year and the payment is taken off,
    nothing is left after the [N]-th payment. *)
Theorem annuity_repays_loan (RT : Runtime) (R : Qc) (N : nat) :
  (1 <= N)%nat -> (JS.qc 1 1000000000 <= R)%Qc ->
  exists f : Qc,
    annuityFactor (Fin R) (JS.of_nat N) = Fin f /\ loan_balance R f N = Q2Qc 0.
Proof.
  intros HN HR. destruct N as [|N]; [lia|].
  rewrite (annuityFactor_formula N HR).
  eexists. split; [reflexivity|].
  assert (HR0 : (0 < R)%Qc).
  { eapply Qclt_le_trans; [|exact HR]. reflexivity. }
  pose proof (@Qcpower_gt_one R N HR0) as Hg.
  set (g := ((1 + R) ^ S N)%Qc) in *.
  assert (Hg1 : g <> 1%Qc).
  { intro E. rewrite E in Hg. discriminate Hg. }
  pose proof (@loan_balance_closed R g (S N) Hg1) as Hc.
  fold g in Hc.
  replace (g - g)%Qc with (Q2Qc 0) in Hc by ring.
  apply Qcmult_integral in Hc. destruct Hc as [Hc | Hc]; [exact Hc|].
  exfalso. apply Hg1. transitivity (g - 1 + 1)%Qc; [ring | rewrite Hc; ring].
Qed.

Lemma annuity_repays_loan_witness :
  exists f : Qc,
    annuityFactor (RT := Reference.runtime) (Fin (JS.qc 7 100)) (JS.of_nat 10) = Fin f
    /\ loan_balance (JS.qc 7 100) f 10 = Q2Qc 0.
Proof.
  apply annuity_repays_loan.
  - lia.
  - unfold Qcle. cbn. unfold Qle. cbn. lia.
Defined.

(* ================================================================== *)
(** * Further properties: interpolation *)
(* ================================================================== *)


Section InterpolationMore.
Context {RT : Runtime}.
Local Open Scope Qc_scope.

Lemma interpolateSeries_inv (s : list value) :
  exists last, interp_inv s (List.length s) (interpolateSeries s) last.
Proof.
  pose proof (@interp_inv_run RT s (List.length s) (Nat.le_refl _)) as Inv.
  unfold interpolateSeries.
  destruct (fold_left interp_step (seq 0 (List.length s)) (s, None)) as [t last].
  exists last. exact Inv.
Qed.

Lemma filled_in_range (s : list value) (k : nat) :
  filled_at s k -> (k < List.length s)%nat.
Proof.
  intro F. destruct (Nat.lt_ge_cases k (List.length s)) as [A|A]; [exact A|].
  pose proof (skipped_out_of_range s A) as B.
  unfold skipped_at in B. unfold filled_at in F. congruence.
Qed.

Lemma filled_finite (s : list value) (k : nat) :
  filled_at s k -> exists a, Number (index s k) = Fin a.
Proof.
  unfold filled_at, skipped. intro F.
  destruct (index s k) as [| | b | n | str]; try discriminate.
  - destruct (Number (VBool b)) as [a| | |] eqn:E; try discriminate. now exists a.
  - destruct (Number (VNum n)) as [a| | |] eqn:E; try discriminate. now exists a.
  - destruct str; [discriminate|].
    destruct (Number (VStr (String a str))) as [q| | |] eqn:E; try discriminate.
    now exists q.
Qed.

Lemma skipped_or_filled (s : list value) (k : nat) :
  skipped_at s k \/ filled_at s k.
Proof.
  unfold skipped_at, filled_at. destruct (skipped (index s k)); auto.
Qed.

Lemma of_nat_pos (n : nat) : (0 < n)%nat -> 0 < JS.qc (Z.of_nat n) 1.
Proof. intro H. apply (qc_lt 0 (Z.of_nat n)). lia. Qed.

(** The line through [(l, a)] and [(r, b)] at [k]. *)
Lemma interpolated_value (s : list value) (l r k : nat) (a b : Qc) :
  (l < k < r)%nat ->
  Number (index s l) = Fin a -> Number (index s r) = Fin b ->
  interpolated s l r k
  = VNum (Fin (a + (b - a) / JS.qc (Z.of_nat (r - l)) 1
                   * JS.qc (Z.of_nat (k - l)) 1)).
Proof.
  intros Hk Ea Eb. unfold interpolated. rewrite Ea, Eb.
  unfold JS.of_nat, JS.of_Z.
  change (Fin b - Fin a)%num with (Fin (b - a)).
  cbn [JS.div].
  rewrite (Qc_pos_neq0 (of_nat_pos (n := r - l) ltac:(lia))).
  reflexivity.
Qed.

Lemma line_between (a b n m : Qc) :
  0 < m -> m < n ->
  (a <= b -> a <= a + (b - a) / n * m /\ a + (b - a) / n * m <= b) /\
  (b <= a -> b <= a + (b - a) / n * m /\ a + (b - a) / n * m <= a).
Proof.
  intros Hm Hn.
  assert (Hn0 : n <> 0).
  { intro E. subst n. apply (Qclt_not_le _ _ Hm). apply Qclt_le_weak. exact Hn. }
  set (d := (b - a) / n).
  assert (Hd : d * n = b - a).
  { unfold d. unfold Qcdiv. rewrite <- Qcmult_assoc, (Qcmult_comm (/ n)),
      Qcmult_inv_r by exact Hn0. ring. }
  clearbody d.
  assert (Hd' : (this d * this n == this b - this a)%Q).
  { rewrite <- this_mult, <- this_minus, Hd. reflexivity. }
  clear Hd.
  split; intro Hab.
  - assert (D0 : 0 <= d).
    { apply Qcnot_lt_le. intro L. qc_to_q. change (this 0) with 0%Q in *. nra. }
    qc_to_q. change (this 0) with 0%Q in *. split; nra.
  - assert (D0 : d <= 0).
    { apply Qcnot_lt_le. intro L. qc_to_q. change (this 0) with 0%Q in *. nra. }
    qc_to_q. change (this 0) with 0%Q in *. split; nra.
Qed.

End InterpolationMore.

Section InterpolationFixpoint.
Context {RT : Runtime}.

Lemma nearest_filled_left (s : list value) (k : nat) :
  (forall j, (j < k)%nat -> skipped_at s j) \/
  exists l, (l < k)%nat /\ filled_at s l /\
            forall j, (l < j < k)%nat -> skipped_at s j.
Proof.
  induction k as [|k IH].
  - left. intros j Hj. lia.
  - destruct (skipped_or_filled s k) as [Sk | Fk].
    + destruct IH as [IH | (l & Hl & Fl & Hb)].
      * left. intros j Hj.
        destruct (Nat.eq_dec j k) as [-> | NE]; [exact Sk | apply IH; lia].
      * right. exists l. split; [lia|]. split; [exact Fl|].
        intros j Hj.
        destruct (Nat.eq_dec j k) as [-> | NE]; [exact Sk | apply Hb; lia].
    + right. exists k. split; [lia|]. split; [exact Fk|]. intros j Hj. lia.
Qed.

Lemma nearest_filled_right_upto (s : list value) (k d : nat) :
  (forall j, (k < j <= k + d)%nat -> skipped_at s j) \/
  exists r, (k < r)%nat /\ filled_at s r /\
            forall j, (k < j < r)%nat -> skipped_at s j.
Proof.
  induction d as [|d IH].
  - left. intros j Hj. lia.
  - destruct IH as [IH | IH]; [|right; exact IH].
    destruct (skipped_or_filled s (k + S d)) as [Sk | Fk].
    + left. intros j Hj.
      destruct (Nat.eq_dec j (k + S d)) as [-> | NE]; [exact Sk | apply IH; lia].
    + right. exists (k + S d)%nat. split; [lia|]. split; [exact Fk|].
      intros j Hj. apply IH. lia.
Qed.

Lemma nearest_filled_right (s : list value) (k : nat) :
  (forall j, (k < j)%nat -> skipped_at s j) \/
  exists r, (k < r)%nat /\ filled_at s r /\
            forall j, (k < j < r)%nat -> skipped_at s j.
Proof.
  destruct (nearest_filled_right_upto s k (List.length s)) as [H | H];
    [left | right; exact H].
  intros j Hj.
  destruct (Nat.le_gt_cases j (k + List.length s)) as [A | A].
  - apply H. lia.
  - apply skipped_out_of_range. lia.
Qed.

(** A cell of the output: kept, or on the line between the nearest filled
    cells of the input. *)
Lemma interpolateSeries_cell (s : list value) (k : nat) :
  index (interpolateSeries s) k = index s k \/
  exists l r, (l < k < r)%nat /\ filled_at s l /\ filled_at s r /\
              (forall j, (l < j < r)%nat -> skipped_at s j) /\
              index (interpolateSeries s) k = interpolated s l r k.
Proof.
  destruct (interpolateSeries_inv s) as (last & [HL Hlast HU HF HG HR]).
  destruct (skipped_or_filled s k) as [Sk | Fk]; [|left; apply HF; exact Fk].
  destruct (nearest_filled_left s k) as [NL | (l & Hl & Fl & Bl)].
  { left. apply HR. intros l r Hlk _ Fl _.
    specialize (NL l ltac:(lia)). unfold skipped_at, filled_at in *. congruence. }
  destruct (nearest_filled_right s k) as [NR | (r & Hr & Fr & Br)].
  { left. apply HR. intros l' r Hlk _ _ Fr.
    specialize (NR r ltac:(lia)). unfold skipped_at, filled_at in *. congruence. }
  right. exists l, r. split; [lia|]. split; [exact Fl|]. split; [exact Fr|].
  assert (B : forall j, (l < j < r)%nat -> skipped_at s j).
  { intros j Hj. destruct (Nat.lt_trichotomy j k) as [A | [-> | A]];
      [apply Bl; lia | exact Sk | apply Br; lia]. }
  split; [exact B|].
  apply (HG l r); auto; try lia; apply filled_in_range; assumption.
Qed.

Lemma interpolated_filled (s : list value) (l r k : nat) :
  (l < k < r)%nat -> filled_at s l -> filled_at s r ->
  skipped (interpolated s l r k) = false.
Proof.
  intros Hk Fl Fr.
  destruct (filled_finite Fl) as (a & Ea).
  destruct (filled_finite Fr) as (b & Eb).
  rewrite (@interpolated_value RT s l r k a b Hk Ea Eb). reflexivity.
Qed.

(** A series without interior gaps comes back as it is. *)
Lemma interpolateSeries_gap_free (s : list value) :
  gap_free s -> interpolateSeries s = s.
Proof.
  intro G.
  destruct (interpolateSeries_inv s) as (last & [HL Hlast HU HF HG HR]).
  apply (nth_ext _ _ VUndefined VUndefined HL).
  intros k _. change (index (interpolateSeries s) k = index s k).
  destruct (interpolateSeries_cell s k) as [E | (l & r & Hk & Fl & Fr & B & _)];
    [exact E|].
  exfalso. specialize (G l k r Hk Fl Fr). specialize (B k Hk).
  unfold skipped_at, filled_at in *. congruence.
Qed.

(** The output has no interior gaps. *)
Lemma interpolateSeries_output_gap_free (s : list value) :
  gap_free (interpolateSeries s).
Proof.
  intros l k r Hk Fl Fr. unfold filled_at in *.
  destruct (interpolateSeries_cell s k) as [E | (l' & r' & Hk' & Fl' & Fr' & B & E)].
  2:{ rewrite E. now apply interpolated_filled. }
  rewrite E.
  destruct (skipped_or_filled s k) as [Sk | Fk]; [exfalso | exact Fk].
  (* a filled cell of the output on each side comes from a filled cell of the
     input on that side *)
  assert (L : exists l0, (l0 < k)%nat /\ filled_at s l0).
  { destruct (interpolateSeries_cell s l) as [El | (l' & r' & Hl' & Fl' & _)].
    - exists l. split; [lia|]. unfold filled_at. now rewrite <- El.
    - exists l'. split; [lia | exact Fl']. }
  assert (R : exists r0, (k < r0)%nat /\ filled_at s r0).
  { destruct (interpolateSeries_cell s r) as [Er | (l' & r' & Hr' & _ & Fr' & _)].
    - exists r. split; [lia|]. unfold filled_at. now rewrite <- Er.
    - exists r'. split; [lia | exact Fr']. }
  destruct L as (l0 & Hl0 & Fl0). destruct R as (r0 & Hr0 & Fr0).
  destruct (nearest_filled_left s k) as [NL | (l1 & Hl1 & Fl1 & Bl)].
  { specialize (NL l0 Hl0). unfold skipped_at, filled_at in *. congruence. }
  destruct (nearest_filled_right s k) as [NR | (r1 & Hr1 & Fr1 & Br)].
  { specialize (NR r0 Hr0). unfold skipped_at, filled_at in *. congruence. }
  destruct (interpolateSeries_inv s) as (last & [HL Hlast HU HF HG HR]).
  assert (B : forall j, (l1 < j < r1)%nat -> skipped_at s j).
  { intros j Hj. destruct (Nat.lt_trichotomy j k) as [A | [-> | A]];
      [apply Bl; lia | exact Sk | apply Br; lia]. }
  assert (E' : index (interpolateSeries s) k = interpolated s l1 r1 k).
  { apply (HG l1 r1); auto; try lia; apply filled_in_range; assumption. }
  assert (F : skipped (interpolated s l1 r1 k) = false)
    by (apply interpolated_filled; auto; lia).
  rewrite <- E', E in F. unfold skipped_at in Sk. congruence.
Qed.

End InterpolationFixpoint.

(** X8.  A cell that [interpolateSeries] fills between the nearest filled
    cells [l < k < r] holds a finite number that lies between the numbers of
    those two cells: the interpolation never overshoots its neighbours. *)
Theorem interpolation_between_neighbours (RT : Runtime) (s : list value)
        (l r k : nat) (a b : Qc) :
  (l < k < r)%nat ->
  skipped (index s l) = false -> skipped (index s r) = false ->
  (forall j, (l < j < r)%nat -> skipped (index s j) = true) ->
  Number (index s l) = Fin a -> Number (index s r) = Fin b ->
  exists q : Qc,
    index (interpolateSeries s) k = VNum (Fin q) /\
    ((a <= b)%Qc -> (a <= q)%Qc /\ (q <= b)%Qc) /\
    ((b <= a)%Qc -> (b <= q)%Qc /\ (q <= a)%Qc).
Proof.
  intros Hk Fl Fr B Ea Eb.
  destruct (interpolateSeries_inv s) as (last & [HL Hlast HU HF HG HR]).
  assert (E : index (interpolateSeries s) k = interpolated s l r k).
  { apply (HG l r); auto; try lia; apply filled_in_range; assumption. }
  rewrite E, (@interpolated_value RT s l r k a b Hk Ea Eb).
  eexists. split; [reflexivity|].
  apply line_between.
  - apply of_nat_pos. lia.
  - apply qc_lt. lia.
Qed.

Lemma interpolation_between_neighbours_witness :
  exists q : Qc,
    index (interpolateSeries (RT := Reference.runtime)
             [VStr "5"; VStr ""; VStr ""; VStr "20"; VStr ""]) 2 = VNum (Fin q) /\
    ((JS.qc 5 1 <= JS.qc 20 1)%Qc -> (JS.qc 5 1 <= q)%Qc /\ (q <= JS.qc 20 1)%Qc) /\
    ((JS.qc 20 1 <= JS.qc 5 1)%Qc -> (JS.qc 20 1 <= q)%Qc /\ (q <= JS.qc 5 1)%Qc).
Proof.
  apply (@interpolation_between_neighbours Reference.runtime
           [VStr "5"; VStr ""; VStr ""; VStr "20"; VStr ""] 0 3 2).
  - lia.
  - reflexivity.
  - reflexivity.
  - intros j Hj. assert (j = 1 \/ j = 2)%nat as [-> | ->] by lia; reflexivity.
  - reflexivity.
  - reflexivity.
Defined.

(** X9.  A series in which no skipped cell lies between two filled ones (all
    cells filled, or the blanks only at the two ends) is returned unchanged. *)
Theorem interpolation_keeps_gap_free_series (RT : Runtime) (s : list value) :
  (forall l k r, (l < k < r)%nat ->
     skipped (index s l) = false -> skipped (index s r) = false ->
     skipped (index s k) = false) ->
  interpolateSeries s = s.
Proof.
  intro G. apply interpolateSeries_gap_free.
  intros l k r Hk Fl Fr. exact (G l k r Hk Fl Fr).
Qed.

Lemma interpolation_keeps_gap_free_series_witness :
  interpolateSeries (RT := Reference.runtime) [VStr ""; VStr "5"; VNum (JS.of_Z 7); VNull]
  = [VStr ""; VStr "5"; VNum (JS.of_Z 7); VNull].
Proof.
  apply interpolation_keeps_gap_free_series.
  intros l k r Hk Fl Fr.
  assert (Hr : (r < 4)%nat) by (apply (filled_in_range Fr)).
  destruct l as [|[|[|l]]]; try discriminate Fl;
    destruct r as [|[|[|[|r]]]]; try discriminate Fr; try lia.
Defined.

(** X10.  [interpolateSeries] is idempotent: interpolating an interpolated
    series changes nothing. *)
Theorem interpolation_idempotent (RT : Runtime) (s : list value) :
  interpolateSeries (interpolateSeries s) = interpolateSeries s.
Proof.
  apply interpolateSeries_gap_free, interpolateSeries_output_gap_free.
Qed.

(* ================================================================== *)
(** * Further properties: ranking *)
(* ================================================================== *)


Section SortFacts.
Context {RT : Runtime}.
Local Open Scope Qc_scope.

Lemma cost_key_not_nan (r : Ranked) : cost_key r <> NaN.
Proof.
  unfold cost_key, num_or0, or_else. cbn [Boolean].
  destruct (effective_cost r) as [q| | |]; cbn [Number]; try discriminate.
  destruct (negb (Qc_eqb q (Q2Qc 0))); discriminate.
Qed.

Lemma sub_lt_zero (a b : num) :
  a <> NaN -> b <> NaN -> (a - b <? n0)%num = (a <? b)%num.
Proof.
  intros Ha Hb. destruct a as [x| | |], b as [y| | |];
    try reflexivity; try congruence.
  change (Fin x - Fin y)%num with (Fin (x - y)).
  cbn [JS.lt n0 JS.zero JS.of_Z].
  destruct (Qc_ltb x y) eqn:E.
  - apply Qc_ltb_lt in E. apply Qc_ltb_lt.
    qc_to_q. change (this (JS.qc 0 1)) with 0%Q. lra.
  - apply Qc_ltb_ge in E. apply Qc_ltb_ge.
    qc_to_q. change (this (JS.qc 0 1)) with 0%Q. lra.
Qed.

(** The comparator is negative exactly when the first key is below the
    second. *)
Lemma compare_cost_lt (x y : Ranked) :
  (compare_cost x y <? n0)%num = (cost_key x <? cost_key y)%num.
Proof. apply sub_lt_zero; apply cost_key_not_nan. Qed.

Lemma lt_trans_num (a b c : num) :
  (a <? b)%num = true -> (b <? c)%num = true -> (a <? c)%num = true.
Proof.
  destruct a as [x| | |], b as [y| | |], c as [z| | |];
    cbn [JS.lt]; try discriminate; try reflexivity.
  intros H1 H2. apply Qc_ltb_lt in H1, H2. apply Qc_ltb_lt.
  eapply Qclt_trans; eassumption.
Qed.

Lemma insert_sorted_eq (x y : Ranked) (t : list Ranked) :
  insert_sorted x (y :: t)
  = if (cost_key x <? cost_key y)%num then x :: y :: t else y :: insert_sorted x t.
Proof. cbn [insert_sorted]. now rewrite compare_cost_lt. Qed.

Lemma insert_sorted_perm (x : Ranked) (l : list Ranked) :
  Permutation (insert_sorted x l) (x :: l).
Proof.
  induction l as [|y t IH]; [reflexivity|].
  rewrite insert_sorted_eq. destruct (_ <? _)%num; [reflexivity|].
  rewrite IH. apply perm_swap.
Qed.

Lemma insert_sorted_sorted (x : Ranked) (l : list Ranked) :
  StronglySorted ascending l -> StronglySorted ascending (insert_sorted x l).
Proof.
  induction l as [|y t IH]; intro S.
  - cbn [insert_sorted]. repeat constructor.
  - rewrite insert_sorted_eq. inversion S as [|? ? St Ft]; subst.
    destruct (cost_key x <? cost_key y)%num eqn:E.
    + constructor; [exact S|].
      constructor; [exact (lt_asym _ _ E)|].
      rewrite Forall_forall in *. intros z Hz. specialize (Ft z Hz).
      unfold ascending in *.
      destruct (cost_key z <? cost_key x)%num eqn:Ez; [|reflexivity].
      rewrite (lt_trans_num _ _ _ Ez E) in Ft. discriminate.
    + constructor; [apply IH; exact St|].
      rewrite Forall_forall in *. intros z Hz.
      apply In_insert_sorted in Hz. destruct Hz as [-> | Hz]; [exact E | auto].
Qed.

Lemma sort_fold_perm (l : list Ranked) :
  forall acc,
    Permutation (fold_left (fun acc x => insert_sorted x acc) l acc) (acc ++ l)%list.
Proof.
  induction l as [|x t IH]; intro acc; cbn [fold_left].
  - now rewrite app_nil_r.
  - rewrite IH, insert_sorted_perm. apply Permutation_middle.
Qed.

Lemma sort_fold_sorted (l : list Ranked) :
  forall acc, StronglySorted ascending acc ->
    StronglySorted ascending (fold_left (fun acc x => insert_sorted x acc) l acc).
Proof.
  induction l as [|x t IH]; intros acc S; cbn [fold_left]; [exact S|].
  apply IH, insert_sorted_sorted, S.
Qed.

Lemma sort_by_cost_sorted (l : list Ranked) :
  StronglySorted ascending (sort_by_cost l).
Proof. apply sort_fold_sorted. constructor. Qed.

Lemma filter_none (A : Type) (f : A -> bool) (l : list A) :
  (forall z, In z l -> f z = false) -> filter f l = [].
Proof.
  induction l as [|y t IH]; intro H; [reflexivity|].
  cbn [filter]. rewrite (H y (or_introl eq_refl)). apply IH.
  intros z Hz. apply H. now right.
Qed.

Lemma with_key_cons (k : num) (x : Ranked) (l : list Ranked) :
  with_key k (x :: l)
  = if same_num (cost_key x) k then x :: with_key k l else with_key k l.
Proof. reflexivity. Qed.

(** Stability: a new element goes behind the elements of its own key. *)
Lemma with_key_insert (k : num) (x : Ranked) (l : list Ranked) :
  StronglySorted ascending l ->
  with_key k (insert_sorted x l)
  = (with_key k l ++ if same_num (cost_key x) k then [x] else [])%list.
Proof.
  induction l as [|y t IH]; intro S.
  - cbn [insert_sorted]. rewrite with_key_cons.
    destruct (same_num _ _); reflexivity.
  - rewrite insert_sorted_eq. inversion S as [|? ? St Ft]; subst.
    destruct (cost_key x <? cost_key y)%num eqn:E.
    + rewrite (with_key_cons k x).
      destruct (same_num (cost_key x) k) eqn:Ek; [|now rewrite app_nil_r].
      apply same_num_eq in Ek.
      assert (N : with_key k (y :: t) = []).
      { unfold with_key. apply filter_none. intros z Hz.
        destruct (same_num (cost_key z) k) eqn:Ez; [|reflexivity].
        apply same_num_eq in Ez. exfalso.
        assert (Hzy : (cost_key z <? cost_key y)%num = true)
          by (rewrite Ez, <- Ek; exact E).
        destruct Hz as [-> | Hz].
        - rewrite (lt_asym _ _ Hzy) in Hzy. discriminate.
        - rewrite Forall_forall in Ft. specialize (Ft z Hz). unfold ascending in Ft.
          congruence. }
      rewrite N. reflexivity.
    + rewrite !(with_key_cons k y), (IH St).
      destruct (same_num (cost_key y) k); reflexivity.
Qed.

Lemma with_key_app (k : num) (l l' : list Ranked) :
  with_key k (l ++ l') = (with_key k l ++ with_key k l')%list.
Proof. apply filter_app. Qed.

Lemma with_key_fold (k : num) (l : list Ranked) :
  forall acc, StronglySorted ascending acc ->
    with_key k (fold_left (fun acc x => insert_sorted x acc) l acc)
    = (with_key k acc ++ with_key k l)%list.
Proof.
  induction l as [|x t IH]; intros acc S; cbn [fold_left].
  - change (with_key k []) with (@nil Ranked). now rewrite app_nil_r.
  - rewrite IH by (apply insert_sorted_sorted, S).
    rewrite (with_key_insert k x S), <- app_assoc. f_equal.
    rewrite with_key_cons. destruct (same_num _ _); reflexivity.
Qed.

End SortFacts.

(** X11.  [sorted] is a rearrangement of the selected measures, each with its
    effective cost, and it is in ascending order of the comparator's key
    [effective_cost || 0]: no measure is strictly cheaper than one before it.
    This holds for every input, since the key is never NaN. *)
Theorem sorted_is_ascending_permutation (RT : Runtime) (ms : list Measure)
        (carbonPrice : value) :
  Permutation (sorted ms carbonPrice)
              (List.map (with_effective_cost carbonPrice) ms)
  /\ StronglySorted ascending (sorted ms carbonPrice).
Proof.
  split.
  - unfold sorted, sort_by_cost.
    exact (sort_fold_perm (List.map (with_effective_cost carbonPrice) ms) []).
  - apply sort_by_cost_sorted.
Qed.

(** X12.  The ranking is stable: the measures that share one key come out of
    [sorted] in the order in which they went in. *)
Theorem sorted_is_stable (RT : Runtime) (ms : list Measure) (carbonPrice : value)
        (k : num) :
  with_key k (sorted ms carbonPrice)
  = with_key k (List.map (with_effective_cost carbonPrice) ms).
Proof.
  unfold sorted, sort_by_cost. rewrite with_key_fold by constructor. reflexivity.
Qed.

(* ================================================================== *)
(** * Further properties: curve, points and budget *)
(* ================================================================== *)


Section WidthFacts.
Context {RT : Runtime}.
Local Open Scope Qc_scope.

Lemma plottable_abatement (m : Ranked) :
  plottable m = true ->
  exists a, num_or0 (abatement_tco2 (measure m)) = Fin a /\ 0 < a.
Proof.
  unfold plottable. intro H.
  apply andb_true_iff in H. destruct H as [H Hpos].
  apply andb_true_iff in H. destruct H as [Hfin _].
  destruct (num_or0 (abatement_tco2 (measure m))) as [a| | |]; try discriminate.
  exists a. split; [reflexivity|]. now apply lt_Fin.
Qed.

Lemma Math_max_0_pos (a : Qc) : 0 < a -> Math_max n0 (Fin a) = Fin a.
Proof.
  intro H. apply (proj2 (lt_Fin _ _)) in H.
  change (Math_max n0 (Fin a)) with (if (Fin (Q2Qc 0) <? Fin a)%num then Fin a else n0).
  now rewrite H.
Qed.

(** The x2 of the last segment, or [c] when there is none. *)
Lemma totalX_cons (s : Segment) (t : list Segment) :
  totalX (s :: t) = match t with [] => x2_plot s | _ => totalX t end.
Proof.
  unfold totalX. cbn [rev].
  destruct t as [|s' t']; [reflexivity|].
  destruct (rev (s' :: t')) as [|z r] eqn:E; [|reflexivity].
  apply (f_equal (@List.length _)) in E. rewrite length_rev in E. discriminate.
Qed.

Lemma walk_capacity (ae : value) (l : list Ranked) :
  forall cum idx,
    let segs := walk "capacity" ae cum idx l in
    (forall s, In s segs -> x2_plot s = (x1_plot s + abatement s)%num) /\
    match segs with
    | [] => True
    | s :: _ => x1_plot s = cum /\ totalX segs = abatement_from cum segs
    end.
Proof.
  induction l as [|m t IH]; intros cum idx; cbn [walk].
  - split; [intros s []|exact I].
  - destruct (plottable m) eqn:P; [|apply IH].
    destruct (plottable_abatement m P) as (a & Ea & Ha).
    rewrite Ea, (Math_max_0_pos Ha).
    specialize (IH (cum + Fin a)%num (S idx)). cbv zeta in IH.
    destruct IH as [IH1 IH2].
    cbv zeta. split.
    + intros s [<- | Hs]; [reflexivity | now apply IH1].
    + split; [reflexivity|].
      rewrite totalX_cons. unfold abatement_from. cbn [fold_left abatement].
      fold (abatement_from (cum + Fin a)%num (walk "capacity" ae (cum + Fin a)%num (S idx) t)).
      destruct (walk "capacity" ae (cum + Fin a)%num (S idx) t) as [|s' r].
      * reflexivity.
      * now destruct IH2.
Qed.

End WidthFacts.

(** X13.  In capacity mode every segment is exactly as wide as its
    abatement ([x2 = x1 + abatement]), and the total width of the curve is
    the sum of the abatements of its segments. *)
Theorem capacity_curve_widths (RT : Runtime) (ranked : list Ranked)
        (annual_emissions : value) :
  let segs := segments ranked "capacity" annual_emissions in
  (forall s, In s segs -> x2_plot s = x1_plot s + abatement s)
  /\ totalX segs = abatement_from n0 segs.
Proof.
  intro segs. subst segs. rewrite segments_walk.
  pose proof (walk_capacity annual_emissions ranked n0 0) as H. cbv zeta in H.
  destruct H as [H1 H2]. split; [exact H1|].
  destruct (walk "capacity" annual_emissions n0 0 ranked); [reflexivity|].
  now destruct H2.
Qed.


Section PointFacts.
Context {RT : Runtime}.
Local Open Scope Qc_scope.

Lemma maccData_step_app (mode : string) (ae : value) (cum : num)
      (pts : list Point) (m : Ranked) :
  maccData_step mode ae (cum, pts) m
  = (fst (maccData_step mode ae (cum, []) m),
     (pts ++ snd (maccData_step mode ae (cum, []) m))%list).
Proof. reflexivity. Qed.

Lemma maccData_fold (mode : string) (ae : value) (l : list Ranked) :
  forall cum pts,
    snd (fold_left (maccData_step mode ae) l (cum, pts))
    = (pts ++ points_from mode ae cum l)%list.
Proof.
  induction l as [|m t IH]; intros cum pts; cbn [fold_left points_from].
  - now rewrite app_nil_r.
  - rewrite maccData_step_app, IH, app_assoc. reflexivity.
Qed.

(** On a number the two tests of the baseline agree, and past them so do the
    two denominators. *)
Lemma baseline_tests_agree (n : num) :
  (Number (VNum n) >? n0)%num = (num_or0 (VNum n) >? n0)%num /\
  ((Number (VNum n) >? n0)%num = true -> num_or0 (VNum n) = Number (VNum n)).
Proof.
  unfold num_or0, or_else. cbn [Number Boolean].
  destruct n as [q| | |]; cbn [Number]; try (split; [reflexivity | auto; discriminate]).
  destruct (Qc_eqb q (Q2Qc 0)) eqn:E; cbn [negb Number].
  - apply Qc_eqb_eq in E. subst q. split; [reflexivity | discriminate].
  - split; reflexivity.
Qed.

Lemma point_x_plot_x (mode : string) (n cum : num) :
  (if String.eqb mode "capacity" then cum
   else if (Number (VNum n) >? n0)%num
        then (cum / Number (VNum n) * n100)%num else n0)
  = plot_x mode (num_or0 (VNum n)) cum.
Proof.
  unfold plot_x. destruct (String.eqb mode "capacity"); [reflexivity|].
  destruct (baseline_tests_agree n) as [A B]. rewrite <- A.
  destruct (Number (VNum n) >? n0)%num; [|reflexivity].
  now rewrite B.
Qed.

Lemma points_at_segment_ends (mode : string) (n : num) (l : list Ranked) :
  Forall (fun m => plottable m = true) l ->
  forall cum idx,
    Forall2 at_segment_end (points_from mode (VNum n) cum l)
            (walk mode (VNum n) cum idx l).
Proof.
  induction 1 as [|m t P _ IH]; intros cum idx; cbn [points_from walk].
  - constructor.
  - rewrite P. cbn [maccData_step snd fst app].
    constructor; [|apply IH].
    unfold at_segment_end.
    cbn [pt_id pt_name pt_sector pt_abatement pt_cost pt_x
         seg_id seg_name seg_sector abatement cost x2_plot].
    repeat split. apply point_x_plot_x.
Qed.

End PointFacts.

(** X14.  When every ranked measure is plottable (finite positive abatement,
    finite cost) and the baseline emissions are a number, [maccData] and
    [segments] walk in step: the k-th point carries the id, name, sector,
    abatement and cost of the k-th segment and sits at its right end. *)
Theorem points_sit_at_segment_ends (RT : Runtime) (ranked : list Ranked)
        (mode : string) (annual_emissions : num) :
  Forall (fun m => plottable m = true) ranked ->
  Forall2 at_segment_end
          (maccData ranked mode (VNum annual_emissions))
          (segments ranked mode (VNum annual_emissions)).
Proof.
  intro H. unfold maccData. rewrite maccData_fold, segments_walk.
  cbn [app]. now apply points_at_segment_ends.
Qed.

Lemma points_sit_at_segment_ends_witness :
  Forall2 at_segment_end
          (maccData (RT := Reference.runtime)
                    [mkRanked (mkMeasure (VNum n1) "a" "Power" (VNum (JS.of_Z 30))
                                         (VNum (JS.of_Z 5)) true None) (JS.of_Z 5);
                     mkRanked (mkMeasure (VNum n2) "c" "Power" (VNum (JS.of_Z 20))
                                         (VNum (JS.of_Z 7)) true None) (JS.of_Z 7)]
                    "intensity" (VNum (JS.of_Z 200)))
          (segments (RT := Reference.runtime)
                    [mkRanked (mkMeasure (VNum n1) "a" "Power" (VNum (JS.of_Z 30))
                                         (VNum (JS.of_Z 5)) true None) (JS.of_Z 5);
                     mkRanked (mkMeasure (VNum n2) "c" "Power" (VNum (JS.of_Z 20))
                                         (VNum (JS.of_Z 7)) true None) (JS.of_Z 7)]
                    "intensity" (VNum (JS.of_Z 200))).
Proof.
  apply points_sit_at_segment_ends.
  repeat constructor.
Defined.


Section BudgetFacts.
Context {RT : Runtime}.
Local Open Scope Qc_scope.

Lemma Math_min_Fin (x y : Qc) : Math_min (Fin x) (Fin y) = Fin (qmin x y).
Proof. unfold Math_min, qmin. cbn [JS.lt]. now destruct (Qc_ltb y x). Qed.

Lemma Math_max_Fin (x y : Qc) : Math_max (Fin x) (Fin y) = Fin (qmax x y).
Proof. unfold Math_max, qmax. cbn [JS.lt]. now destruct (Qc_ltb x y). Qed.

Ltac split_tests :=
  repeat match goal with
         | |- context [Qc_ltb ?a ?b] =>
             let E := fresh "E" in
             destruct (Qc_ltb a b) eqn:E;
             [apply (proj1 (Qc_ltb_lt _ _)) in E | apply (proj1 (Qc_ltb_ge _ _)) in E]
         | H : context [Qc_ltb ?a ?b] |- _ =>
             let E := fresh "E" in
             destruct (Qc_ltb a b) eqn:E;
             [apply (proj1 (Qc_ltb_lt _ _)) in E | apply (proj1 (Qc_ltb_ge _ _)) in E]
         end.

(** One turn of the greedy loop on rationals: the amount taken so far stays
    the smaller of the target and the amount offered so far. *)
Lemma greedy_step (t c S a : Qc) :
  0 <= S -> c = qmin (qmax 0 t) S ->
  (if Qc_ltb 0 (qmin (qmax 0 (t - c)) a)
   then c + qmin (qmax 0 (t - c)) a else c)
  = qmin (qmax 0 t) (S + qmax 0 a).
Proof.
  intros HS Hc. unfold qmin, qmax in *.
  split_tests; subst c; apply Qc_is_canon; qc_to_q;
    change (this 0) with 0%Q in *; lra.
Qed.

End BudgetFacts.

Section BudgetLoop.
Context {RT : Runtime}.
Local Open Scope Qc_scope.
Variables (mode : string) (ae : value) (t : Qc).

Lemma budget_step_finite (c a : Qc) (b r : num) (p : Point) :
  pt_abatement p = Fin a ->
  exists b',
    budget_step mode ae (Fin t) (Fin c, b, r) p
    = if Qc_ltb 0 (qmin (qmax 0 (t - c)) a)
      then (Fin (c + qmin (qmax 0 (t - c)) a), b',
            reached_of mode ae (Fin (c + qmin (qmax 0 (t - c)) a)))
      else (Fin c, b, r).
Proof.
  intro Ea. unfold budget_step. rewrite Ea.
  change (Fin t - Fin c)%num with (Fin (t - c)).
  change n0 with (Fin 0).
  rewrite Math_max_Fin, Math_min_Fin.
  change (Fin (qmin (qmax 0 (t - c)) a) >? Fin 0)%num
    with (Qc_ltb 0 (qmin (qmax 0 (t - c)) a)).
  destruct (Qc_ltb 0 (qmin (qmax 0 (t - c)) a)).
  - eexists. unfold reached_of. reflexivity.
  - exists b. reflexivity.
Qed.

Lemma budget_loop (pts : list Point) :
  Forall (fun p => Number_isFinite (pt_abatement p) = true) pts ->
  forall (c S : Qc) (b : num),
    0 <= S -> c = qmin (qmax 0 t) S ->
    exists (c' S' : Qc) (b' : num),
      fold_left (budget_step mode ae (Fin t)) pts (Fin c, b, reached_of mode ae (Fin c))
      = (Fin c', b', reached_of mode ae (Fin c'))
      /\ fold_left (fun s p => (s + Math_max n0 (pt_abatement p))%num) pts (Fin S)
         = Fin S'
      /\ 0 <= S' /\ c' = qmin (qmax 0 t) S'.
Proof.
  induction 1 as [|p pts Hp _ IH]; intros c S b HS Hc.
  - exists c, S, b. repeat split; assumption.
  - cbn [fold_left].
    destruct (pt_abatement p) as [a| | |] eqn:Ea; try discriminate Hp.
    destruct (budget_step_finite c b (reached_of mode ae (Fin c)) p Ea) as (b1 & E1).
    rewrite E1.
    change n0 with (Fin 0). rewrite Math_max_Fin.
    change (Fin S + Fin (qmax 0 a))%num with (Fin (S + qmax 0 a)).
    pose proof (greedy_step t a HS Hc) as G.
    assert (HS' : 0 <= S + qmax 0 a).
    { unfold qmax. destruct (Qc_ltb 0 a) eqn:E.
      - apply Qc_ltb_lt in E. qc_to_q. change (this 0) with 0%Q in *. lra.
      - qc_to_q. change (this 0) with 0%Q in *. lra. }
    destruct (Qc_ltb 0 (qmin (qmax 0 (t - c)) a)).
    + apply (IH _ _ b1 HS' G).
    + apply (IH _ _ b HS' G).
Qed.

Lemma qmin_target_zero : qmin (qmax 0 t) 0 = 0.
Proof.
  unfold qmin, qmax.
  destruct (Qc_ltb 0 t) eqn:E; [|reflexivity].
  now rewrite (proj2 (Qc_ltb_lt _ _) (proj1 (Qc_ltb_lt _ _) E)).
Qed.

(** The loop of [budgetToTarget] from its initial state. *)
Lemma budget_run (pts : list Point) :
  Forall (fun p => Number_isFinite (pt_abatement p) = true) pts ->
  reached_of mode ae (Fin 0) = n0 ->
  exists (c : Qc) (b : num),
    fold_left (budget_step mode ae (Fin t)) pts (n0, n0, n0)
    = (Fin c, b, reached_of mode ae (Fin c))
    /\ Fin c = Math_min (Math_max n0 (Fin t)) (offered pts).
Proof.
  intros Hf H0.
  pose (S0 := Q2Qc 0).
  destruct (@budget_loop pts Hf 0 S0 n0) as (c & S & b & E & ES & HS & Hc).
  - apply Qcle_refl.
  - symmetry. apply qmin_target_zero.
  - exists c, b. rewrite H0 in E. split; [exact E|].
    change (Fin c = Math_min (Math_max (Fin 0) (Fin t))
                      (fold_left (fun s p => (s + Math_max n0 (pt_abatement p))%num)
                                 pts (Fin S0))) in |- *.
    rewrite ES, Math_max_Fin, Math_min_Fin. now rewrite Hc.
Qed.

End BudgetLoop.

Lemma qmin_same (x : Qc) : qmin x x = x.
Proof. unfold qmin. now destruct (Qc_ltb x x). Qed.

(** X15.  In capacity mode, with finite abatements and a finite target in
    tonnes, [budgetToTarget] reaches the smaller of the target (not below 0)
    and the abatement on offer (the sum of [Math.max(0, abatement)]): the
    greedy walk never takes more than the target and never leaves abatement
    unused below it. *)
Theorem budget_reaches_target_or_offer (RT : Runtime) (pts : list Point)
        (annual_emissions targetIntensityPct : value) (t : Qc) :
  Forall (fun p => Number_isFinite (pt_abatement p) = true) pts ->
  budget_targetX "capacity" annual_emissions targetIntensityPct = Fin t ->
  targetReached (budgetToTarget pts "capacity" annual_emissions targetIntensityPct)
  = Math_min (Math_max n0 (Fin t)) (offered pts).
Proof.
  intros Hf Ht.
  destruct (@budget_run RT "capacity" annual_emissions t pts Hf eq_refl)
    as (c & b & E & Hc).
  unfold budgetToTarget. rewrite Ht.
  destruct pts as [|p pts].
  - cbn [targetReached]. rewrite <- Hc.
    cbn [fold_left] in E. now injection E as <-.
  - rewrite E. unfold reached_of.
    cbn [String.eqb Ascii.eqb Bool.eqb targetReached].
    rewrite <- Hc, Math_min_Fin, qmin_same. reflexivity.
Qed.

Lemma budget_reaches_target_or_offer_witness :
  targetReached
    (budgetToTarget (RT := Reference.runtime)
       [mkPoint (VNum n1) "a" "Power" (JS.of_Z 30) (JS.of_Z 5) (JS.of_Z 30) (JS.of_Z 30);
        mkPoint (VNum n2) "b" "Power" (JS.of_Z 20) (JS.of_Z 7) (JS.of_Z 50) (JS.of_Z 50)]
       "capacity" (VNum (JS.of_Z 200)) (VNum (JS.of_Z 20)))
  = Math_min (Math_max n0 (Fin (JS.qc 40 1)))
      (offered (RT := Reference.runtime)
         [mkPoint (VNum n1) "a" "Power" (JS.of_Z 30) (JS.of_Z 5) (JS.of_Z 30) (JS.of_Z 30);
          mkPoint (VNum n2) "b" "Power" (JS.of_Z 20) (JS.of_Z 7) (JS.of_Z 50) (JS.of_Z 50)]).
Proof.
  apply budget_reaches_target_or_offer.
  - repeat constructor.
  - change (Fin (JS.qc 200 1 * (JS.qc 20 1 / JS.qc 100 1)) = Fin (JS.qc 40 1)).
    f_equal. apply Qc_is_canon. reflexivity.
Defined.

(** X16.  In intensity mode the target percentage is compared with tonnes:
    with finite abatements, a finite target [t] and positive finite baseline
    emissions [e], the tonnes taken are the smaller of [t] itself (not below
    0) and the abatement on offer, and [targetReached] is that amount as a
    percentage of [e]. *)
Theorem budget_intensity_target_in_tonnes (RT : Runtime) (pts : list Point)
        (mode : string) (annual_emissions targetIntensityPct : value) (t e : Qc) :
  String.eqb mode "capacity" = false ->
  Forall (fun p => Number_isFinite (pt_abatement p) = true) pts ->
  Number targetIntensityPct = Fin t ->
  Number annual_emissions = Fin e -> (0 < e)%Qc ->
  targetReached (budgetToTarget pts mode annual_emissions targetIntensityPct)
  = Math_min (Math_max n0 (Fin t)) (offered pts) / Fin e * n100.
Proof.
  intros Hm Hf Ht He Hpos.
  assert (Hz : (Fin (Q2Qc 0) / Fin e * n100)%num = n0).
  { cbn [JS.div]. rewrite (Qc_pos_neq0 Hpos). cbn [JS.mul n100 JS.of_Z].
    unfold n0, JS.zero, JS.of_Z. f_equal; try (unfold Qcdiv; ring). }
  assert (H0 : reached_of mode annual_emissions (Fin (Q2Qc 0)) = n0).
  { unfold reached_of. rewrite Hm, He. exact Hz. }
  destruct (@budget_run RT mode annual_emissions t pts Hf H0) as (c & b & E & Hc).
  unfold budgetToTarget, budget_targetX. rewrite Hm, Ht.
  destruct pts as [|p pts].
  - cbn [targetReached]. rewrite <- Hc.
    cbn [fold_left] in E. injection E as <-. symmetry. exact Hz.
  - rewrite E. unfold reached_of. rewrite Hm, He. cbn [targetReached].
    replace (Fin e >? n0)%num with true by (symmetry; apply lt_Fin; exact Hpos).
    rewrite <- Hc.
    cbn [JS.div]. rewrite (Qc_pos_neq0 Hpos). cbn [JS.mul n100 JS.of_Z].
    rewrite Math_min_Fin, qmin_same. reflexivity.
Qed.

Lemma budget_intensity_target_in_tonnes_witness :
  targetReached
    (budgetToTarget (RT := Reference.runtime)
       [mkPoint (VNum n1) "a" "Power" (JS.of_Z 500) (JS.of_Z 5) (JS.of_Z 500) (JS.of_Z 50)]
       "intensity" (VNum (JS.of_Z 1000)) (VNum (JS.of_Z 20)))
  = Math_min (Math_max n0 (Fin (JS.qc 20 1)))
      (offered (RT := Reference.runtime)
         [mkPoint (VNum n1) "a" "Power" (JS.of_Z 500) (JS.of_Z 5) (JS.of_Z 500) (JS.of_Z 50)])
    / Fin (JS.qc 1000 1) * n100.
Proof.
  apply budget_intensity_target_in_tonnes.
  - reflexivity.
  - repeat constructor.
  - reflexivity.
  - reflexivity.
  - reflexivity.
Defined.


Section AxisFacts.
Context {RT : Runtime}.
Local Open Scope Qc_scope.

Lemma cost_or0_not_nan (s : Segment) : cost_or0 s <> NaN.
Proof.
  unfold cost_or0, or_else. cbn [Number Boolean].
  destruct (cost s) as [q| | |]; cbn [Number]; try discriminate.
  destruct (negb (Qc_eqb q (Q2Qc 0))); discriminate.
Qed.

Lemma at_most_zero_cases (a : num) :
  at_most_zero a <-> a = NInf \/ exists x, a = Fin x /\ x <= 0.
Proof.
  unfold at_most_zero. split.
  - destruct a as [x| | |]; try discriminate; [|now left].
    intro H. right. exists x. split; [reflexivity|]. now apply le_Fin.
  - intros [-> | (x & -> & H)]; [reflexivity|]. now apply le_Fin.
Qed.

Lemma at_least_zero_cases (a : num) :
  at_least_zero a <-> a = PInf \/ exists x, a = Fin x /\ 0 <= x.
Proof.
  unfold at_least_zero. split.
  - destruct a as [x| | |]; try discriminate; [|now left].
    intro H. right. exists x. split; [reflexivity|]. now apply le_Fin.
  - intros [-> | (x & -> & H)]; [reflexivity|]. now apply le_Fin.
Qed.

Lemma Math_min_at_most_zero (a y : num) :
  at_most_zero a -> y <> NaN -> at_most_zero (Math_min a y).
Proof.
  intros Ha Hy. apply at_most_zero_cases in Ha. apply at_most_zero_cases.
  destruct Ha as [-> | (x & -> & Hx)].
  - left. destruct y; try reflexivity. congruence.
  - destruct y as [q| | |]; try congruence.
    + right. rewrite Math_min_Fin. eexists. split; [reflexivity|].
      unfold qmin. destruct (Qc_ltb q x) eqn:E; [|exact Hx].
      apply Qc_ltb_lt in E. apply Qclt_le_weak. eapply Qclt_le_trans; eassumption.
    + right. exists x. split; [reflexivity | exact Hx].
    + now left.
Qed.

Lemma Math_max_at_least_zero (a y : num) :
  at_least_zero a -> y <> NaN -> at_least_zero (Math_max a y).
Proof.
  intros Ha Hy. apply at_least_zero_cases in Ha. apply at_least_zero_cases.
  destruct Ha as [-> | (x & -> & Hx)].
  - left. destruct y; try reflexivity. congruence.
  - destruct y as [q| | |]; try congruence.
    + right. rewrite Math_max_Fin. eexists. split; [reflexivity|].
      unfold qmax. destruct (Qc_ltb x q) eqn:E; [|exact Hx].
      apply Qc_ltb_lt in E. apply Qclt_le_weak. eapply Qcle_lt_trans; eassumption.
    + now left.
    + right. exists x. split; [reflexivity | exact Hx].
Qed.

Lemma fold_min_at_most_zero (ys : list num) :
  Forall (fun y => y <> NaN) ys ->
  forall a, at_most_zero a -> at_most_zero (fold_left Math_min ys a).
Proof.
  induction 1 as [|y ys Hy _ IH]; intros a Ha; [exact Ha|].
  cbn [fold_left]. apply IH. now apply Math_min_at_most_zero.
Qed.

Lemma fold_max_at_least_zero (ys : list num) :
  Forall (fun y => y <> NaN) ys ->
  forall a, at_least_zero a -> at_least_zero (fold_left Math_max ys a).
Proof.
  induction 1 as [|y ys Hy _ IH]; intros a Ha; [exact Ha|].
  cbn [fold_left]. apply IH. now apply Math_max_at_least_zero.
Qed.

Lemma costs_not_nan (segs : list Segment) :
  Forall (fun y => y <> NaN) (List.map cost_or0 segs).
Proof.
  apply Forall_forall. intros y Hy. apply in_map_iff in Hy.
  destruct Hy as (s & <- & _). apply cost_or0_not_nan.
Qed.

(** A lower end at most 0 and an upper end at least 0, made apart by 1 on
    each side when they coincide. *)
Lemma domain_ends (lo hi : num) :
  at_most_zero lo -> at_least_zero hi ->
  let d := if JS.num_eqb lo hi then ((lo - n1)%num, (hi + n1)%num) else (lo, hi) in
  (fst d <? snd d)%num = true /\ at_most_zero (fst d) /\ at_least_zero (snd d).
Proof.
  intros Hlo Hhi.
  apply at_most_zero_cases in Hlo. apply at_least_zero_cases in Hhi.
  destruct Hlo as [-> | (x & -> & Hx)], Hhi as [-> | (y & -> & Hy)];
    cbn [JS.num_eqb]; cbv zeta; cbn [fst snd].
  - repeat split.
  - repeat split. unfold at_least_zero. now apply le_Fin.
  - repeat split. unfold at_most_zero. now apply le_Fin.
  - destruct (Qc_eqb x y) eqn:E; cbn [fst snd].
    + apply Qc_eqb_eq in E. subst y.
      change (Fin x - n1)%num with (Fin (x - 1)).
      change (Fin x + n1)%num with (Fin (x + 1)).
      unfold at_most_zero, at_least_zero. change n0 with (Fin 0).
      rewrite lt_Fin, !le_Fin.
      qc_to_q. change (this 0) with 0%Q in *. change (this 1) with 1%Q.
      repeat split; lra.
    + apply Qc_eqb_neq in E.
      unfold at_most_zero, at_least_zero. change n0 with (Fin 0).
      rewrite lt_Fin, !le_Fin.
      repeat split; try assumption.
      destruct (Qcle_lt_or_eq _ _ (Qcle_trans _ _ _ Hx Hy)) as [L | Eq];
        [exact L|].
      exfalso. apply E. exact Eq.
Qed.

End AxisFacts.

(** X17.  [yDomain] is always a proper interval around zero: its lower end
    is strictly below its upper end, the lower end is at most 0 and the upper
    end at least 0, for every list of segments (costs that are NaN count as
    0, infinite costs give an infinite end). *)
Theorem yDomain_is_interval_around_zero (RT : Runtime) (segs : list Segment) :
  (fst (yDomain segs) <? snd (yDomain segs)) = true
  /\ at_most_zero (fst (yDomain segs))
  /\ at_least_zero (snd (yDomain segs)).
Proof.
  unfold yDomain. destruct segs as [|s t].
  - cbn [fst snd]. repeat split.
  - apply domain_ends.
    + apply fold_min_at_most_zero; [apply costs_not_nan | reflexivity].
    + apply fold_max_at_least_zero; [apply costs_not_nan | reflexivity].
Qed.

(** X18.  [totalWidth] is always above 0 (and at least 100 outside capacity
    mode), whatever [totalX] is, NaN included; so the fallback
    [totalWidth > 0 ? totalWidth : 1] of [axisData] is never taken. *)
Theorem totalWidth_positive (RT : Runtime) (mode : string) (totalX : num) :
  (n0 <? totalWidth mode totalX) = true
  /\ axis_end (totalWidth mode totalX) = totalWidth mode totalX
  /\ (String.eqb mode "capacity" = false ->
      (n100 <=? totalWidth mode totalX) = true).
Proof.
  assert (P : (n0 <? totalWidth mode totalX) = true
              /\ (String.eqb mode "capacity" = false ->
                  (n100 <=? totalWidth mode totalX) = true)).
  { unfold totalWidth. destruct (String.eqb mode "capacity").
    - split; [|discriminate].
      destruct (totalX >? n0) eqn:E; [exact E | reflexivity].
    - assert (Q : (n100 <=? Math_max n100 (Number (VNum totalX ||| VNum n1))) = true).
      { unfold or_else. cbn [Boolean Number].
        destruct totalX as [q| | |]; cbn [Number]; try reflexivity.
        destruct (negb (Qc_eqb q (Q2Qc 0))); cbn [Number]; [|reflexivity].
        unfold n100, JS.of_Z. rewrite Math_max_Fin. apply le_Fin.
        unfold qmax. destruct (Qc_ltb (JS.qc 100 1) q) eqn:E.
        - apply Qc_ltb_lt in E. now apply Qclt_le_weak.
        - apply Qcle_refl. }
      split; [|intros _; exact Q].
      destruct (Math_max n100 (Number (VNum totalX ||| VNum n1))) as [w| | |];
        try discriminate Q; [|reflexivity].
      unfold n100, JS.of_Z in Q. apply le_Fin in Q. apply lt_Fin.
      eapply Qclt_le_trans; [|exact Q]. reflexivity. }
  destruct P as [P1 P2]. split; [exact P1|]. split; [|exact P2].
  unfold axis_end. unfold JS.gt. now rewrite P1.
Qed.

(* ================================================================== *)
(** * Further properties: line lists and series *)
(* ================================================================== *)

Section LineListFacts.
Variables (L Smp : Type).
Variable line_id : L -> nat.
Variable with_id : nat -> Smp -> L.
Hypothesis id_of_with_id : forall n s, line_id (with_id n s) = n.

Lemma fold_max_ge (l : list nat) :
  forall a, (a <= fold_left Nat.max l a)%nat /\
            forall x, In x l -> (x <= fold_left Nat.max l a)%nat.
Proof.
  induction l as [|y t IH]; intro a; cbn [fold_left].
  - split; [lia | intros x []].
  - destruct (IH (Nat.max a y)) as [A B]. split; [lia|].
    intros x [<- | Hx]; [lia | now apply B].
Qed.

Lemma max_id_ge (lines : list L) (l : L) :
  In l lines -> (line_id l <= max_id line_id lines)%nat.
Proof.
  intro H. unfold max_id.
  apply (proj2 (fold_max_ge (List.map line_id lines) 0)).
  now apply in_map.
Qed.

Lemma removeLine_absent (lines : list L) (id : nat) :
  (forall l, In l lines -> line_id l <> id) -> removeLine line_id lines id = lines.
Proof.
  induction lines as [|x t IH]; intro H; [reflexivity|].
  unfold removeLine in *. cbn [filter].
  replace (line_id x =? id)%nat with false.
  2:{ symmetry. apply Nat.eqb_neq. apply H. now left. }
  cbn [negb]. f_equal. apply IH. intros l Hl. apply H. now right.
Qed.

Lemma addLine_ids (lines : list L) (sample : Smp) :
  List.map line_id (addLine line_id with_id lines sample)
  = (List.map line_id lines ++ [(max_id line_id lines + 1)%nat])%list.
Proof.
  unfold addLine. rewrite map_app. cbn [List.map]. now rewrite id_of_with_id.
Qed.

End LineListFacts.

(** X19.  [addLine] gives the new line an id that no line of the list has
    (one more than the largest), so a list with pairwise distinct ids keeps
    pairwise distinct ids. *)
Theorem added_line_has_fresh_id (L Smp : Type) (line_id : L -> nat)
        (with_id : nat -> Smp -> L) (lines : list L) (sample : Smp) :
  (forall n s, line_id (with_id n s) = n) ->
  (forall l, In l lines -> (line_id l < max_id line_id lines + 1)%nat)
  /\ List.map line_id (addLine line_id with_id lines sample)
     = (List.map line_id lines ++ [(max_id line_id lines + 1)%nat])%list
  /\ (NoDup (List.map line_id lines) ->
      NoDup (List.map line_id (addLine line_id with_id lines sample))).
Proof.
  intro Hid.
  assert (Hlt : forall l, In l lines -> (line_id l < max_id line_id lines + 1)%nat).
  { intros l Hl. pose proof (max_id_ge line_id lines l Hl). lia. }
  split; [exact Hlt|]. split; [now apply addLine_ids|].
  intro Hnd. rewrite (addLine_ids line_id with_id Hid).
  apply NoDup_app; [exact Hnd | repeat constructor; intros [] |].
  intros x Hx [<- | []].
  apply in_map_iff in Hx. destruct Hx as (l & E & Hl).
  specialize (Hlt l Hl). lia.
Qed.

Lemma added_line_has_fresh_id_witness :
  let lines := [mkLine 1 "Coal" VNull VNull (VNum n0) (VNum n0) [];
                mkLine 4 "Gas" VNull VNull (VNum n0) (VNum n0) []] in
  let sample := mkLine 0 "" VNull VNull (VNum n0) (VNum n0) [] in
  (forall l, In l lines -> (ln_id l < max_id ln_id lines + 1)%nat)
  /\ List.map ln_id (addLine ln_id driver_with_id lines sample)
     = (List.map ln_id lines ++ [(max_id ln_id lines + 1)%nat])%list
  /\ (NoDup (List.map ln_id lines) ->
      NoDup (List.map ln_id (addLine ln_id driver_with_id lines sample))).
Proof.
  apply added_line_has_fresh_id. intros n s. reflexivity.
Defined.

(** X20.  Removing the line that [addLine] has just added gives the list
    back: [removeLine] takes out exactly the new line. *)
Theorem remove_undoes_add (L Smp : Type) (line_id : L -> nat)
        (with_id : nat -> Smp -> L) (lines : list L) (sample : Smp) :
  (forall n s, line_id (with_id n s) = n) ->
  removeLine line_id (addLine line_id with_id lines sample)
             (max_id line_id lines + 1)%nat
  = lines.
Proof.
  intro Hid. unfold addLine, removeLine. rewrite filter_app. cbn [filter].
  rewrite Hid, Nat.eqb_refl. cbn [negb]. rewrite app_nil_r.
  apply (removeLine_absent line_id).
  intros l Hl. pose proof (max_id_ge line_id lines l Hl). lia.
Qed.

Lemma remove_undoes_add_witness :
  let lines := [mkLine 1 "Coal" VNull VNull (VNum n0) (VNum n0) [];
                mkLine 4 "Gas" VNull VNull (VNum n0) (VNum n0) []] in
  removeLine ln_id
             (addLine ln_id driver_with_id lines
                      (mkLine 0 "" VNull VNull (VNum n0) (VNum n0) []))
             (max_id ln_id lines + 1)%nat
  = lines.
Proof.
  apply remove_undoes_add. intros n s. reflexivity.
Defined.

(** X21.  [setSeries] writes one cell and keeps the others: reading the new
    array at [k] gives the value at [k = idx] and the old cell elsewhere
    (undefined in a hole left by a write past the end), and the length
    becomes the larger of the old length and [idx + 1]. *)
Theorem setSeries_lookup (arr : list value) (idx : nat) (val : value) :
  (forall k, index (setSeries arr idx val) k
             = if Nat.eqb k idx then val else index arr k)
  /\ List.length (setSeries arr idx val) = Nat.max (List.length arr) (S idx).
Proof.
  revert idx. induction arr as [|x t IH]; intro idx.
  - induction idx as [|i IHi].
    + split; [|reflexivity].
      intros [|[|k]]; reflexivity.
    + destruct IHi as [A B]. split.
      * intros [|k]; [reflexivity|].
        cbn [setSeries]. unfold index in *. cbn [nth Nat.eqb].
        rewrite A. destruct (Nat.eqb k i); [reflexivity|]. now destruct k.
      * cbn [setSeries List.length]. rewrite B. reflexivity.
  - destruct idx as [|i].
    + split.
      * intros [|k]; reflexivity.
      * cbn [setSeries List.length]. lia.
    + destruct (IH i) as [A B]. split.
      * intros [|k]; [reflexivity|].
        cbn [setSeries]. unfold index in *. cbn [nth Nat.eqb]. apply A.
      * cbn [setSeries List.length]. rewrite B. lia.
Qed.


Section HandlerFacts.

Lemma updateLine_absent (L : Type) (line_id : L -> nat) (lines : list L)
      (id : nat) (patch : L -> L) :
  (forall l, In l lines -> line_id l <> id) ->
  updateLine line_id lines id patch = lines.
Proof.
  induction lines as [|x t IH]; intro H; [reflexivity|].
  unfold updateLine in *. cbn [List.map].
  replace (line_id x =? id)%nat with false.
  2:{ symmetry. apply Nat.eqb_neq. apply H. now left. }
  f_equal. apply IH. intros l Hl. apply H. now right.
Qed.

Lemma updateLine_patched (L : Type) (line_id : L -> nat) (lines : list L)
      (id : nat) (patch : L -> L) (l : L) :
  (forall x, line_id (patch x) = line_id x) ->
  In l (updateLine line_id lines id patch) -> line_id l = id ->
  exists x, In x lines /\ l = patch x.
Proof.
  intros Hp Hin Hid. unfold updateLine in Hin. apply in_map_iff in Hin.
  destruct Hin as (x & E & Hx). exists x. split; [exact Hx|].
  destruct (line_id x =? id)%nat eqn:T; [now symmetry|].
  subst l. apply Nat.eqb_neq in T. contradiction.
Qed.

Lemma setFuelLines_same (w : Wizard) : setFuelLines w (fuelLines w) = w.
Proof. now destruct w. Qed.

End HandlerFacts.

(** X30.  Typing into the price or EF override of a raw material line never
    changes the raw material lines: the handlers update the fuel lines.  Every
    fuel line with the id of the raw line takes the override, and when no
    fuel line has that id the state of the wizard is left as it was. *)
Theorem raw_override_goes_to_fuel_lines (RT : Runtime) (w : Wizard)
        (ln : DriverLine) (text : string) :
  (rawLines (raw_priceOv_onChange w ln text) = rawLines w
   /\ rawLines (raw_efOv_onChange w ln text) = rawLines w)
  /\ (forall l, ln_id l = ln_id ln ->
        (In l (fuelLines (raw_priceOv_onChange w ln text)) ->
         priceOv l = override_of_input text)
        /\ (In l (fuelLines (raw_efOv_onChange w ln text)) ->
            efOv l = override_of_input text))
  /\ ((forall l, In l (fuelLines w) -> ln_id l <> ln_id ln) ->
      raw_priceOv_onChange w ln text = w /\ raw_efOv_onChange w ln text = w).
Proof.
  split; [split; reflexivity|]. split.
  - intros l Hid. split; intro Hin; cbn [raw_priceOv_onChange raw_efOv_onChange
                                          setFuelLines fuelLines] in Hin.
    + unfold raw_priceOv_onChange, setFuelLines in Hin. cbn [fuelLines] in Hin.
      destruct (@updateLine_patched DriverLine ln_id (fuelLines w) (ln_id ln)
                  (set_priceOv (override_of_input text)) l
                  (fun _ => eq_refl) Hin Hid) as (x & _ & ->).
      reflexivity.
    + unfold raw_efOv_onChange, setFuelLines in Hin. cbn [fuelLines] in Hin.
      destruct (@updateLine_patched DriverLine ln_id (fuelLines w) (ln_id ln)
                  (set_efOv (override_of_input text)) l
                  (fun _ => eq_refl) Hin Hid) as (x & _ & ->).
      reflexivity.
  - intro H. unfold raw_priceOv_onChange, raw_efOv_onChange.
    rewrite !(@updateLine_absent DriverLine ln_id (fuelLines w) (ln_id ln) _ H).
    split; apply setFuelLines_same.
Qed.

(* ================================================================== *)
(** * Further properties: catalogs *)
(* ================================================================== *)

Section NormalizeFacts.
Context {RT : Runtime}.

Lemma coalesce_number (n : num) (v : value) : VNum n ?? v = VNum n.
Proof. reflexivity. Qed.

(** The row that [find] returns from a mapped catalog: the image of the
    first row whose image has the state. *)
Lemma find_state_map (A : Type) (f : A -> ElecRow) (st : string) (rows : list A) :
  match find_state (List.map f rows) st with
  | Some x =>
      exists pre row post,
        rows = (pre ++ row :: post)%list /\ x = f row /\
        state (f row) = Some st /\
        (forall r, In r pre -> state (f r) <> Some st)
  | None => forall r, In r rows -> state (f r) <> Some st
  end.
Proof.
  unfold find_state. induction rows as [|a t IH]; cbn [List.map find].
  - intros r [].
  - destruct (state (f a)) as [s|] eqn:Ea.
    + destruct (String.eqb s st) eqn:Es.
      * apply String.eqb_eq in Es. subst s.
        exists [], a, t. repeat split; auto.
      * assert (Ha : state (f a) <> Some st).
        { rewrite Ea. intro H. injection H as ->.
          rewrite String.eqb_refl in Es. discriminate Es. }
        destruct (find _ (List.map f t)) as [x|].
        -- destruct IH as (pre & row & post & -> & -> & Hs & Hpre).
           exists (a :: pre), row, post. repeat split; auto.
           intros r [<- | Hr]; [exact Ha | now apply Hpre].
        -- intros r [<- | Hr]; [exact Ha | now apply IH].
    + assert (Ha : state (f a) <> Some st) by (rewrite Ea; discriminate).
      destruct (find _ (List.map f t)) as [x|].
      * destruct IH as (pre & row & post & -> & -> & Hs & Hpre).
        exists (a :: pre), row, post. repeat split; auto.
        intros r [<- | Hr]; [exact Ha | now apply Hpre].
      * intros r [<- | Hr]; [exact Ha | now apply IH].
Qed.

End NormalizeFacts.

(** X22.  The two catalog normalisers are idempotent: a row that has been
    normalised is returned as it is when it is normalised again. *)
Theorem normalisers_are_idempotent (RT : Runtime) :
  (forall row : RawRow,
      normalizeFRTW (raw_of_row (normalizeFRTW row)) = normalizeFRTW row)
  /\ (forall row : RawElecRow,
        normalizeElec (raw_of_elec_row (normalizeElec row)) = normalizeElec row).
Proof.
  split; intro row.
  - unfold normalizeFRTW at 1. unfold raw_of_row.
    cbn [r_name r_fuel r_material r_transport r_item r_unit r_price_per_unit_inr
         r_price_per_unit r_price r_ef_tco2_per_unit r_ef_t_per_unit r_ef_t].
    unfold normalizeFRTW.
    cbn [name unit price price_per_unit_inr ef_tco2_per_unit ef_t_per_unit].
    rewrite !coalesce_number. cbn [Number].
    f_equal.
    + destruct (r_name row), (r_fuel row), (r_material row), (r_transport row),
        (r_item row); reflexivity.
    + destruct (r_unit row); reflexivity.
  - unfold normalizeElec at 1. unfold raw_of_elec_row.
    cbn [r_state r_region r_grid r_price_per_mwh_inr r_price_per_mwh r_elec_price
         r_ef_tco2_per_mwh r_ef_t_per_mwh r_elec_ef_t].
    unfold normalizeElec.
    cbn [state price_per_mwh price_per_mwh_inr ef_tco2_per_mwh].
    rewrite !coalesce_number. cbn [Number].
    f_equal.
    destruct (r_state row), (r_region row), (r_grid row); reflexivity.
Qed.

(** X23.  With a non-empty electricity catalog of normalised rows, the base
    price of a line without a price override is the number that
    [normalizeElec] stored in the row used: the first row whose normalised
    state is the line's state, or, when no row has it, the first row of the
    catalog.  A row imported without any price counts as 0, and the default
    of 500 of [getElecPricePerMWh] is not used. *)
Theorem normalised_electricity_price (RT : Runtime) (rows : list RawElecRow)
        (ln : ElecLine) :
  rows <> [] -> is_nullish (el_priceOv ln) = true ->
  exists row,
    In row rows /\
    ((state (normalizeElec row) = Some (el_state ln) /\
      exists pre post,
        rows = (pre ++ row :: post)%list /\
        forall r, In r pre -> state (normalizeElec r) <> Some (el_state ln))
     \/ ((forall r, In r rows -> state (normalizeElec r) <> Some (el_state ln)) /\
         exists rest, rows = row :: rest)) /\
    elec_basePrice (List.map normalizeElec rows) ln
    = VNum (Number (r_price_per_mwh_inr row ?? r_price_per_mwh row
                    ?? r_elec_price row ?? VNum n0)).
Proof.
  intros Hne Hov.
  pose proof (find_state_map normalizeElec (el_state ln) rows) as Hfind.
  unfold elec_basePrice, elec_base.
  destruct (find_state (List.map normalizeElec rows) (el_state ln)) as [x|].
  - destruct Hfind as (pre & row & post & E & -> & Hs & Hpre).
    exists row. split; [rewrite E; apply in_elt|].
    split; [left; split; [exact Hs | now exists pre, post]|].
    cbn [or_row]. rewrite (@coalesce_nullish _ _ Hov). reflexivity.
  - destruct rows as [|row rest]; [congruence|].
    exists row. split; [now left|].
    split; [right; split; [exact Hfind | now exists rest]|].
    cbn [or_row List.map hd_error]. rewrite (@coalesce_nullish _ _ Hov). reflexivity.
Qed.

Lemma normalised_electricity_price_witness :
  let goa := mkRawElecRow None (Some "Goa") None VUndefined VUndefined
                          (VNum (JS.of_Z 400)) VUndefined VUndefined VUndefined in
  let india := mkRawElecRow (Some "India") None None VUndefined VUndefined VUndefined
                            (VNum (Fin (JS.qc 82 100))) VUndefined VUndefined in
  exists row,
    In row [goa; india] /\
    ((state (normalizeElec (RT := Reference.runtime) row) = Some "India" /\
      exists pre post,
        [goa; india] = (pre ++ row :: post)%list /\
        forall r, In r pre ->
                  state (normalizeElec (RT := Reference.runtime) r) <> Some "India")
     \/ ((forall r, In r [goa; india] ->
                    state (normalizeElec (RT := Reference.runtime) r) <> Some "India") /\
         exists rest, [goa; india] = row :: rest)) /\
    elec_basePrice
      (List.map (normalizeElec (RT := Reference.runtime)) [goa; india])
      (elec_line 0 [])
    = VNum (Number (RT := Reference.runtime)
              (r_price_per_mwh_inr row ?? r_price_per_mwh row
               ?? r_elec_price row ?? VNum n0)).
Proof.
  cbv zeta.
  apply (@normalised_electricity_price Reference.runtime
           [mkRawElecRow None (Some "Goa") None VUndefined VUndefined
                         (VNum (JS.of_Z 400)) VUndefined VUndefined VUndefined;
            mkRawElecRow (Some "India") None None VUndefined VUndefined VUndefined
                         (VNum (Fin (JS.qc 82 100))) VUndefined VUndefined]
           (elec_line 0 [])).
  - discriminate.
  - reflexivity.
Defined.

Section MergedLookup.
Context {RT : Runtime}.

Lemma In_map_values (A : Type) (m : jsmap A) (x : A) :
  In x (map_values m) -> exists k, In (k, x) m.
Proof.
  unfold map_values. intro H. apply in_map_iff in H.
  destruct H as ([k y] & E & H). cbn [snd] in E. subst y. now exists k.
Qed.

(** What the engine's lookup by name finds in a merged catalog. *)
Lemma find_name_merged (arrA arrB : list CatalogRow) (nm : string) (x : CatalogRow) :
  find_name (mergedBy name arrA arrB) nm = Some x ->
  name x = Some nm /\
  Some x = or_row (last_with name (toLowerCase nm) arrB)
                  (last_with name (toLowerCase nm) arrA).
Proof.
  unfold find_name. intro H. apply find_some in H. destruct H as [Hin Hp].
  destruct (name x) as [s|] eqn:En; [|discriminate].
  apply String.eqb_eq in Hp. subst s. split; [reflexivity|].
  unfold mergedBy in Hin. fold (merged_map name arrA arrB) in Hin.
  apply In_map_values in Hin. destruct Hin as (k & Hk).
  pose proof (merged_map_well_keyed name arrA arrB) as W.
  pose proof (@well_keyed_get RT _ name _ k x W Hk) as G.
  destruct W as [_ W]. specialize (W k x Hk).
  unfold row_key in W. rewrite En in W.
  destruct (is_empty_string nm); [discriminate|]. injection W as <-.
  rewrite merged_map_get in G. now rewrite G.
Qed.

End MergedLookup.

(** X26.  The catalogs are merged by lower-cased name but the engine looks a
    line's name up exactly.  When the custom catalog has a row under the
    lower-cased name of a line whose spelling differs from the line's, the
    merged catalog has no row for the line (the sample row of that name has
    been replaced), and a line without a price override gets the price 0. *)
Theorem merged_lookup_is_case_sensitive (RT : Runtime)
        (sample custom : list CatalogRow) (ln : DriverLine) (y : CatalogRow) :
  last_with name (toLowerCase (ln_name ln)) custom = Some y ->
  name y <> Some (ln_name ln) ->
  find_name (mergedBy name sample custom) (ln_name ln) = None
  /\ (is_nullish (priceOv ln) = true ->
      line_basePrice (mergedBy name sample custom) ln = VNum n0).
Proof.
  intros Hy Hne.
  assert (F : find_name (mergedBy name sample custom) (ln_name ln) = None).
  { destruct (find_name (mergedBy name sample custom) (ln_name ln)) as [x|] eqn:E;
      [|reflexivity].
    apply find_name_merged in E. destruct E as [En Ex].
    rewrite Hy in Ex. cbn [or_row] in Ex. injection Ex as ->. contradiction. }
  split; [exact F|].
  intro Hov. unfold line_basePrice. rewrite F.
  now rewrite (@coalesce_nullish _ _ Hov).
Qed.

Lemma merged_lookup_is_case_sensitive_witness :
  find_name (mergedBy (RT := Reference.runtime) name
               [fuel_row "Coal" 100] [fuel_row "coal" 150]) "Coal" = None
  /\ (is_nullish VNull = true ->
      line_basePrice (mergedBy (RT := Reference.runtime) name
                        [fuel_row "Coal" 100] [fuel_row "coal" 150])
                     (mkLine 1 "Coal" VNull VNull (VNum n0) (VNum n0) [])
      = VNum n0).
Proof.
  apply (@merged_lookup_is_case_sensitive Reference.runtime
           [fuel_row "Coal" 100] [fuel_row "coal" 150]
           (mkLine 1 "Coal" VNull VNull (VNum n0) (VNum n0) [])
           (fuel_row "coal" 150)).
  - reflexivity.
  - discriminate.
Defined.

(* ================================================================== *)
(** * Further properties: implied costs and saving *)
(* ================================================================== *)


Section ImpliedCostFacts.
Context {RT : Runtime}.
Local Open Scope Qc_scope.

Lemma year_result_implied (w : Wizard) (B yr : Z) (i : nat) :
  let y := year_result w B yr i in
  implied_cost_per_t_wo y
  = (if (direct_t y >? n0)%num then (net_cost_cr y * crore / direct_t y)%num else n0)
  /\ implied_cost_per_t_w y
     = (if (direct_t y >? n0)%num
        then ((net_cost_cr y * crore - num_or0 (carbonPrice w) * direct_t y)
              / direct_t y)%num
        else n0).
Proof.
  unfold year_result.
  destruct (fold_left _ (fuelLines w) _) as [f1 d1].
  destruct (fold_left _ (rawLines w) _) as [f2 d2].
  destruct (fold_left _ (transLines w) _) as [f3 d3].
  destruct (fold_left _ (wasteLines w) _) as [f4 d4].
  destruct (fold_left _ (elecLines w) _) as [f5 d5].
  split; reflexivity.
Qed.

Lemma In_mapi_from (A B : Type) (f : A -> nat -> B) (l : list A) :
  forall i y, In y (mapi_from f i l) -> exists x j, y = f x j.
Proof.
  induction l as [|x t IH]; intros i y H; [destruct H|].
  destruct H as [<- | H]; [now exists x, i | exact (IH _ _ H)].
Qed.

(** Taking the carbon price off a cost per tonne, for a positive finite
    tonnage. *)
Lemma per_tonne_minus_price (N cp : num) (d : Qc) :
  0 < d ->
  ((N - cp * Fin d) / Fin d)%num = (N / Fin d - cp)%num.
Proof.
  intro Hd.
  assert (Hcmp : (d ?= Q2Qc 0) = Gt) by (apply Qcgt_alt; exact Hd).
  assert (Hinf : (PInf * Fin d)%num = PInf /\ (NInf * Fin d)%num = NInf).
  { cbn [JS.mul JS.sign]. rewrite Hcmp. split; reflexivity. }
  destruct Hinf as [HP HN].
  assert (Hdiv : (PInf / Fin d)%num = PInf /\ (NInf / Fin d)%num = NInf).
  { cbn [JS.div JS.sign]. rewrite (Qc_pos_not_neg Hd). split; reflexivity. }
  destruct Hdiv as [DP DN].
  destruct cp as [p| | |]; rewrite ?HP, ?HN.
  - destruct N as [c| | |].
    + change (Fin c - Fin p * Fin d)%num with (Fin (c - p * d)).
      cbn [JS.div]. rewrite (Qc_pos_neq0 Hd).
      change (Fin (c / d) - Fin p)%num with (Fin (c / d - p)).
      f_equal. field. intro E. rewrite E in Hd. discriminate Hd.
    + change (PInf - Fin p * Fin d)%num with PInf. rewrite DP. reflexivity.
    + change (NInf - Fin p * Fin d)%num with NInf. rewrite DN. reflexivity.
    + reflexivity.
  - destruct N as [c| | |].
    + change (Fin c - PInf)%num with NInf. rewrite DN.
      cbn [JS.div]. rewrite (Qc_pos_neq0 Hd). reflexivity.
    + change (PInf - PInf)%num with NaN. rewrite DP. reflexivity.
    + change (NInf - PInf)%num with NInf. rewrite DN. reflexivity.
    + reflexivity.
  - destruct N as [c| | |].
    + change (Fin c - NInf)%num with PInf. rewrite DP.
      cbn [JS.div]. rewrite (Qc_pos_neq0 Hd). reflexivity.
    + change (PInf - NInf)%num with PInf. rewrite DP. reflexivity.
    + change (NInf - NInf)%num with NaN. rewrite DN. reflexivity.
    + reflexivity.
  - destruct N as [c| | |]; try reflexivity.
    + cbn [JS.div JS.mul JS.sign JS.sub JS.neg JS.add]. rewrite (Qc_pos_neq0 Hd). reflexivity.
    + change (PInf - NaN * Fin d)%num with NaN. rewrite DP. reflexivity.
    + change (NInf - NaN * Fin d)%num with NaN. rewrite DN. reflexivity.
Qed.

Lemma implied_costs_of_entry (w : Wizard) (B yr : Z) (i : nat) :
  let y := year_result w B yr i in
  ((direct_t y >? n0)%num = false ->
   implied_cost_per_t_wo y = n0 /\ implied_cost_per_t_w y = n0)
  /\ (forall d : Qc,
        direct_t y = Fin d -> 0 < d ->
        implied_cost_per_t_w y
        = (implied_cost_per_t_wo y - num_or0 (carbonPrice w))%num).
Proof.
  intro y. destruct (year_result_implied w B yr i) as [Ewo Ew].
  fold y in Ewo, Ew. split.
  - intro H. rewrite Ewo, Ew, H. split; reflexivity.
  - intros d Ed Hd.
    assert (Hpos : (direct_t y >? n0)%num = true).
    { rewrite Ed. apply lt_Fin. exact Hd. }
    rewrite Ewo, Ew, Hpos, Ed.
    now apply per_tonne_minus_price.
Qed.

Lemma computed_with_flag (w : Wizard) (b : bool) :
  computed (with_flag w b) = computed w.
Proof. reflexivity. Qed.

Lemma nth_error_mapi_from (A B : Type) (f : A -> nat -> B) (l : list A) :
  forall i k y, nth_error (mapi_from f i l) k = Some y ->
                exists x, y = f x (i + k)%nat.
Proof.
  induction l as [|x t IH]; intros i k y H.
  - destruct k; discriminate.
  - destruct k as [|k]; cbn [mapi_from nth_error] in H.
    + injection H as <-. exists x. now rewrite Nat.add_0_r.
    + destruct (IH _ _ _ H) as (x' & ->). exists x'. f_equal. lia.
Qed.

End ImpliedCostFacts.

(** X24.  For every year of [computed]: when the direct abatement is not
    above 0 both implied costs per tonne are 0; when it is a positive finite
    tonnage, the implied cost with the carbon price is the implied cost
    without it minus the carbon price. *)
Theorem implied_cost_with_carbon_price (RT : Runtime) (YEARS : list Z)
        (BASE_YEAR : Z) (w : Wizard) (y : YearResult) :
  In y (perYear (computed_for YEARS BASE_YEAR w)) ->
  ((direct_t y >? n0) = false ->
   implied_cost_per_t_wo y = n0 /\ implied_cost_per_t_w y = n0)
  /\ (forall d : Qc,
        direct_t y = Fin d -> (0 < d)%Qc ->
        implied_cost_per_t_w y
        = implied_cost_per_t_wo y - num_or0 (carbonPrice w)).
Proof.
  intro H. cbn [perYear computed_for] in H. unfold mapi in H.
  apply In_mapi_from in H. destruct H as (yr & i & ->).
  exact (implied_costs_of_entry w BASE_YEAR yr i).
Qed.

Lemma implied_cost_with_carbon_price_witness :
  let y := year_result (RT := Reference.runtime) reducing_wizard 2025 2030 1 in
  implied_cost_per_t_w y
  = implied_cost_per_t_wo y
    - num_or0 (RT := Reference.runtime) (carbonPrice reducing_wizard).
Proof.
  refine (proj2 (@implied_cost_with_carbon_price Reference.runtime
                   [2025; 2030]%Z 2025%Z reducing_wizard _ _)
                (JS.qc 1 1) _ _).
  - right. left. reflexivity.
  - apply num_eqb_eq. vm_compute. reflexivity.
  - reflexivity.
Defined.

Section SaveFlagFacts.
Context {RT : Runtime}.
Local Open Scope Qc_scope.

Lemma rep_implied_costs (w : Wizard) (d : Qc) :
  rep_direct_t (rep (computed w)) = Fin d -> 0 < d ->
  rep_implied_cost_per_t_w (rep (computed w))
  = (rep_implied_cost_per_t_wo (rep (computed w)) - num_or0 (carbonPrice w))%num.
Proof.
  intros Ed Hd.
  destruct (rep_is_entry w) as (y & Hy & Hrep).
  rewrite Hrep in *. cbn [rep_direct_t rep_implied_cost_per_t_w
                          rep_implied_cost_per_t_wo] in *.
  unfold computed, computed_for, mapi in Hy. cbn [perYear] in Hy.
  apply nth_error_mapi_from in Hy. destruct Hy as (yr & ->).
  exact (proj2 (implied_costs_of_entry w BASE_YEAR yr _) d Ed Hd).
Qed.

Lemma sub_sub_cancel (c p : Qc) (n : num) :
  (Fin (c - p) - (n - Fin p))%num = (Fin c - n)%num.
Proof.
  destruct n as [x| | |]; try reflexivity.
  change (Fin (c - p) - (Fin x - Fin p))%num with (Fin (c - p - (x - p))).
  change (Fin c - Fin x)%num with (Fin (c - x)).
  f_equal. ring.
Qed.

End SaveFlagFacts.

(** X25.  Whether the box "include the carbon price in the saved cost" is
    ticked or not makes no difference to the cost that the curve ranks by:
    for a representative year with a positive finite abatement, a finite
    implied cost and a finite carbon price, both ways of saving succeed
    without confirmation and give the same effective cost, the implied cost
    without carbon price minus the carbon price now. *)
Theorem saved_flag_keeps_effective_cost (RT : Runtime) (w : Wizard)
        (initial_id cpNow : value) (ok ok' : bool) (d c p : Qc) :
  rep_direct_t (rep (computed w)) = Fin d -> (0 < d)%Qc ->
  rep_implied_cost_per_t_wo (rep (computed w)) = Fin c ->
  num_or0 (carbonPrice w) = Fin p ->
  exists m m',
    saveTemplate (with_flag w true) initial_id ok = Some m /\
    saveTemplate (with_flag w false) initial_id ok' = Some m' /\
    effective_cost_of cpNow m = Fin c - num_or0 cpNow /\
    effective_cost_of cpNow m' = Fin c - num_or0 cpNow.
Proof.
  intros Ed Hd Ec Ep.
  pose proof (rep_implied_costs w Ed Hd) as Ew. rewrite Ec, Ep in Ew.
  change (Fin c - Fin p) with (Fin (c - p)%Qc) in Ew.
  unfold saveTemplate. rewrite !computed_with_flag.
  cbn [applyCarbonPriceInSave with_flag].
  rewrite Ed, (Math_max_0_pos Hd).
  replace (Fin d <=? n0) with false.
  2:{ symmetry. destruct (Fin d <=? n0) eqn:E; [|reflexivity].
      apply le_Fin in E. exfalso. exact (Qcle_not_lt _ _ E Hd). }
  cbn [andb]. eexists. eexists. split; [reflexivity|]. split; [reflexivity|].
  unfold effective_cost_of, details_field, opt_field.
  cbn [cost_per_tco2 details saved_cost_includes_carbon_price carbon_price_at_save
       carbonPrice with_flag Boolean].
  rewrite Ew, Ec, Ep.
  rewrite !num_or0_number by discriminate.
  split; [apply sub_sub_cancel | reflexivity].
Qed.

Lemma saved_flag_keeps_effective_cost_witness :
  exists m m',
    saveTemplate (RT := Reference.runtime) (with_flag reducing_wizard true)
                 VUndefined false = Some m /\
    saveTemplate (RT := Reference.runtime) (with_flag reducing_wizard false)
                 VUndefined false = Some m' /\
    effective_cost_of (RT := Reference.runtime) (VNum (JS.of_Z 700)) m
    = Fin (JS.qc 20000000 1) - num_or0 (RT := Reference.runtime) (VNum (JS.of_Z 700)) /\
    effective_cost_of (RT := Reference.runtime) (VNum (JS.of_Z 700)) m'
    = Fin (JS.qc 20000000 1) - num_or0 (RT := Reference.runtime) (VNum (JS.of_Z 700)).
Proof.
  apply (@saved_flag_keeps_effective_cost Reference.runtime reducing_wizard
           VUndefined (VNum (JS.of_Z 700)) false false
           (JS.qc 1 1) (JS.qc 20000000 1) (JS.qc 100 1)).
  - apply num_eqb_eq. vm_compute. reflexivity.
  - reflexivity.
  - apply num_eqb_eq. vm_compute. reflexivity.
  - apply num_eqb_eq. vm_compute. reflexivity.
Defined.

Section SaveWizardFacts.
Context {RT : Runtime}.

Lemma strict_equal_self (a b : value) :
  strict_equal a b = true -> strict_equal b b = true.
Proof.
  destruct a as [| |b1|n|s1], b as [| |b2|n'|s2]; cbn [strict_equal];
    try discriminate; try reflexivity.
  - intros _. apply Bool.eqb_reflx.
  - destruct n as [x| | |], n' as [y| | |]; cbn [JS.num_eqb];
      try discriminate; try reflexivity.
    intros _. apply Qc_eqb_refl.
  - intros _. apply String.eqb_refl.
Qed.

End SaveWizardFacts.

(** X27.  A measure that the wizard saves as new ([initialMeasure] without
    id) reaches [saveWizard] with an own property [id] that is undefined;
    in [{ id, ...obj }] that property replaces the fresh id.  The measure is
    appended with id undefined, and saving it once more appends a second
    copy instead of updating the first. *)
Theorem new_template_measure_has_no_id (RT : Runtime) (w : Wizard) (ok : bool)
        (m : Measure) (measures : list Measure) :
  saveTemplate w VUndefined ok = Some m ->
  m_id m = VUndefined
  /\ saveWizard measures m = (measures ++ [m])%list
  /\ saveWizard (saveWizard measures m) m = (measures ++ [m; m])%list.
Proof.
  intro H. unfold saveTemplate in H.
  destruct (_ && _) in H; [discriminate|]. injection H as <-.
  cbn [m_id]. split; [reflexivity|].
  unfold saveWizard, spread_over_id. cbn [m_id is_nullish negb].
  split; [reflexivity|]. now rewrite <- app_assoc.
Qed.

Lemma new_template_measure_has_no_id_witness :
  exists m,
    saveTemplate (RT := Reference.runtime) reducing_wizard VUndefined false = Some m
    /\ m_id m = VUndefined
    /\ saveWizard (RT := Reference.runtime) [measure_with (VNum n1) VUndefined VUndefined] m
       = [measure_with (VNum n1) VUndefined VUndefined; m].
Proof.
  destruct (@saveTemplate Reference.runtime reducing_wizard VUndefined false)
    as [m|] eqn:E.
  - exists m. split; [reflexivity|].
    destruct (@new_template_measure_has_no_id Reference.runtime reducing_wizard
                false m [measure_with (VNum n1) VUndefined VUndefined] E)
      as (A & B & _).
    split; [exact A | exact B].
  - exfalso. vm_compute in E. discriminate E.
Defined.

(** X28.  Saving an edited measure (one that has an id) keeps the number of
    measures, and saving the same edit twice is the same as saving it once. *)
Theorem edited_measure_replaces_in_place (RT : Runtime) (measures : list Measure)
        (obj : Measure) :
  is_nullish (m_id obj) = false ->
  List.length (saveWizard measures obj) = List.length measures
  /\ saveWizard (saveWizard measures obj) obj = saveWizard measures obj.
Proof.
  intro H. unfold saveWizard. rewrite H. cbn [negb].
  split; [apply length_map|].
  rewrite map_map. apply map_ext. intro m. unfold spread_over.
  destruct (strict_equal (m_id m) (m_id obj)) eqn:E.
  - now rewrite (strict_equal_self _ _ E).
  - now rewrite E.
Qed.

Lemma edited_measure_replaces_in_place_witness :
  let obj := measure_with (VNum (JS.of_Z 7)) (VBool false) VUndefined in
  List.length (saveWizard (RT := Reference.runtime) [measure_with (VNum n1) VUndefined VUndefined] obj)
  = 1%nat
  /\ saveWizard (RT := Reference.runtime)
       (saveWizard (RT := Reference.runtime) [measure_with (VNum n1) VUndefined VUndefined] obj) obj
     = saveWizard (RT := Reference.runtime) [measure_with (VNum n1) VUndefined VUndefined] obj.
Proof.
  apply (@edited_measure_replaces_in_place Reference.runtime
           [measure_with (VNum n1) VUndefined VUndefined]
           (measure_with (VNum (JS.of_Z 7)) (VBool false) VUndefined)).
  reflexivity.
Defined.

(* ================================================================== *)
(** * Further properties: CSV rows *)
(* ================================================================== *)


Section CsvFacts.

Lemma push_char_app (cur : string) (c : ascii) (s : string) :
  (push_char cur c ++ s)%string = (cur ++ String c s)%string.
Proof.
  unfold push_char. induction cur as [|a cur IH]; cbn [String.append].
  - reflexivity.
  - now rewrite IH.
Qed.

Lemma append_empty (s : string) : (s ++ EmptyString)%string = s.
Proof. induction s as [|a s IH]; cbn [String.append]; [reflexivity | now rewrite IH]. Qed.

Lemma append_assoc (a b c : string) :
  ((a ++ b) ++ c)%string = (a ++ (b ++ c))%string.
Proof. induction a as [|x a IH]; cbn [String.append]; [reflexivity | now rewrite IH]. Qed.

(** A cell written without quotes is read back character by character. *)
Lemma parse_plain (s rest : string) :
  needs_quotes s = false ->
  forall result cur,
    parse_chars (s ++ rest) result cur false
    = parse_chars rest result (cur ++ s) false.
Proof.
  induction s as [|c s IH]; intros Hq result cur.
  - cbn [String.append]. now rewrite append_empty.
  - cbn [needs_quotes] in Hq.
    apply orb_false_iff in Hq. destruct Hq as [Hq Hs].
    apply orb_false_iff in Hq. destruct Hq as [Hq _].
    apply orb_false_iff in Hq. destruct Hq as [Hd Hc].
    cbn [String.append parse_chars]. rewrite Hd, Hc. cbn [andb].
    rewrite (IH Hs). now rewrite push_char_app.
Qed.

(** Inside quotes, the doubled text up to the closing quote is read back as
    the text. *)
Lemma parse_quoted (s rest : string) :
  cell_end rest ->
  forall result cur,
    parse_chars (double_quotes s ++ String dquote rest) result cur true
    = parse_chars rest result (cur ++ s) false.
Proof.
  intro Hend. induction s as [|c s IH]; intros result cur.
  - cbn [double_quotes String.append parse_chars].
    rewrite Ascii.eqb_refl, append_empty.
    destruct Hend as [-> | (t & ->)]; [reflexivity|].
    replace (Ascii.eqb comma dquote) with false by reflexivity. reflexivity.
  - cbn [double_quotes]. destruct (Ascii.eqb c dquote) eqn:E.
    + apply Ascii.eqb_eq in E. subst c.
      cbn [String.append parse_chars]. rewrite !Ascii.eqb_refl.
      rewrite IH. now rewrite push_char_app.
    + cbn [String.append parse_chars]. rewrite E.
      rewrite andb_false_r. rewrite IH. now rewrite push_char_app.
Qed.

(** One escaped cell, followed by the end of the line or a comma. *)
Lemma parse_cell (v : option string) (rest : string) :
  cell_end rest ->
  forall result,
    parse_chars (esc v ++ rest) result EmptyString false
    = parse_chars rest result (cell_text v) false.
Proof.
  intros Hend result. destruct v as [s|]; [|reflexivity].
  cbn [esc cell_text]. destruct (needs_quotes s) eqn:Hq.
  - cbn [String.append parse_chars]. rewrite Ascii.eqb_refl. cbn [negb].
    rewrite append_assoc. cbn [String.append].
    now rewrite (parse_quoted s Hend).
  - now rewrite (parse_plain s rest Hq).
Qed.

Lemma parse_row (cells : list (option string)) :
  cells <> [] ->
  forall result,
    parse_chars (csv_line cells) result EmptyString false
    = (result ++ List.map cell_text cells)%list.
Proof.
  unfold csv_line.
  induction cells as [|v t IH]; intros Hne result; [congruence|].
  destruct t as [|v' t'].
  - cbn [List.map join_comma].
    rewrite <- (append_empty (esc v)).
    rewrite parse_cell by (now left). reflexivity.
  - change (join_comma (List.map esc (v :: v' :: t')))
      with (esc v ++ String comma (join_comma (List.map esc (v' :: t'))))%string.
    rewrite parse_cell by (right; eexists; reflexivity).
    cbn [parse_chars].
    replace (Ascii.eqb comma dquote) with false by reflexivity.
    rewrite Ascii.eqb_refl. cbn [andb negb].
    rewrite IH by discriminate.
    cbn [List.map]. now rewrite <- app_assoc.
Qed.

End CsvFacts.

Section CsvTextFacts.

Lemma split_no_break (s : string) :
  forall cur, has_break s = false -> split_lines s cur = [(cur ++ s)%string].
Proof.
  induction s as [|c s IH]; intros cur H; cbn [split_lines].
  - now rewrite append_empty.
  - cbn [has_break] in H. apply orb_false_iff in H. destruct H as [H Hs].
    apply orb_false_iff in H. destruct H as [Hn Hr]. rewrite Hn, Hr.
    rewrite (IH _ Hs). now rewrite push_char_app.
Qed.

Lemma split_line_feed (s t : string) :
  forall cur, has_break s = false ->
    split_lines (s ++ String newline t) cur
    = (cur ++ s)%string :: split_lines t EmptyString.
Proof.
  induction s as [|c s IH]; intros cur H; cbn [String.append split_lines].
  - rewrite Ascii.eqb_refl. now rewrite append_empty.
  - cbn [has_break] in H. apply orb_false_iff in H. destruct H as [H Hs].
    apply orb_false_iff in H. destruct H as [Hn Hr]. rewrite Hn, Hr.
    rewrite (IH _ Hs). now rewrite push_char_app.
Qed.

Lemma split_join (lines : list string) :
  lines <> [] -> Forall (fun l => has_break l = false) lines ->
  split_lines (join_newline lines) EmptyString = lines.
Proof.
  induction lines as [|x t IH]; intros Hne H; [congruence|].
  inversion H as [|? ? Hx Ht]; subst.
  destruct t as [|y t'].
  - cbn [join_newline]. now rewrite split_no_break.
  - change (join_newline (x :: y :: t'))
      with (x ++ String newline (join_newline (y :: t')))%string.
    rewrite split_line_feed by exact Hx. cbn [String.append].
    f_equal. apply IH; [discriminate | exact Ht].
Qed.

Lemma has_break_app (a b : string) :
  has_break (a ++ b) = has_break a || has_break b.
Proof.
  induction a as [|c a IH]; cbn [String.append has_break]; [reflexivity|].
  rewrite IH. now rewrite !orb_assoc.
Qed.

Lemma has_break_double_quotes (s : string) :
  has_break (double_quotes s) = has_break s.
Proof.
  induction s as [|c s IH]; cbn [double_quotes has_break]; [reflexivity|].
  destruct (Ascii.eqb c dquote) eqn:E.
  - apply Ascii.eqb_eq in E. subst c. cbn [has_break]. rewrite IH. reflexivity.
  - cbn [has_break]. now rewrite IH.
Qed.

Lemma has_break_esc (v : option string) :
  has_break (esc v) = has_break (cell_text v).
Proof.
  destruct v as [s|]; cbn [esc cell_text]; [|reflexivity].
  destruct (needs_quotes s); [|reflexivity].
  cbn [has_break]. rewrite has_break_app, has_break_double_quotes.
  cbn. now rewrite orb_false_r.
Qed.

Lemma has_break_csv_line (cells : list (option string)) :
  Forall (fun v => has_break (cell_text v) = false) cells ->
  has_break (csv_line cells) = false.
Proof.
  unfold csv_line. induction cells as [|v t IH]; intro H; [reflexivity|].
  inversion H as [|? ? Hv Ht]; subst.
  destruct t as [|v' t'].
  - cbn [List.map join_comma]. now rewrite has_break_esc.
  - change (join_comma (List.map esc (v :: v' :: t')))
      with (esc v ++ String comma (join_comma (List.map esc (v' :: t'))))%string.
    rewrite has_break_app, has_break_esc, Hv. cbn [has_break orb].
    replace (Ascii.eqb comma newline) with false by reflexivity.
    replace (Ascii.eqb comma carriage_return) with false by reflexivity.
    cbn [orb]. apply IH. exact Ht.
Qed.

Lemma filter_all (A : Type) (p : A -> bool) (l : list A) :
  Forall (fun x => p x = true) l -> filter p l = l.
Proof.
  induction 1 as [|x t Hx Ht IH]; cbn [filter]; [reflexivity|].
  now rewrite Hx, IH.
Qed.

Lemma assignments_combine (hs : list string) :
  forall pre rest : list string,
    List.length hs = List.length rest ->
    mapi_from (fun h i => (h, nth i (pre ++ rest) EmptyString)) (List.length pre) hs
    = combine hs rest.
Proof.
  induction hs as [|h hs IH]; intros pre rest E; [reflexivity|].
  destruct rest as [|c rest]; [discriminate E|].
  cbn [mapi_from combine]. rewrite nth_middle. f_equal.
  specialize (IH (pre ++ [c])%list rest ltac:(now injection E)).
  rewrite <- app_assoc, length_app in IH. cbn [List.length app] in IH.
  rewrite Nat.add_1_r in IH. exact IH.
Qed.

Lemma row_assignments_combine (hs cells : list string) :
  List.length hs = List.length cells ->
  row_assignments hs cells = combine hs cells.
Proof. intro E. exact (assignments_combine hs [] cells E). Qed.

End CsvTextFacts.

(** X29.  The text written by [jsonToCsv] is read back by [csvToJson]: for
    at least one header and one row, every row with as many cells as there
    are headers, no header or cell holding a line feed or a carriage return,
    and no written line blank, the rows read pair each trimmed header with
    the trimmed text of its cell, in order, whatever commas and quotes the
    cells hold (null and undefined are read as the empty string). *)
Theorem csv_round_trip (trim : string -> string) (headers : list string)
        (rows : list (list (option string))) :
  headers <> [] -> rows <> [] ->
  Forall (fun row => List.length row = List.length headers) rows ->
  Forall (fun h => has_break h = false) headers ->
  Forall (Forall (fun v => has_break (cell_text v) = false)) rows ->
  blank trim (csv_line (List.map Some headers)) = false ->
  Forall (fun row => blank trim (csv_line row) = false) rows ->
  csvToJson_rows trim (jsonToCsv_text headers rows)
  = List.map (fun row => combine (List.map trim headers)
                                 (List.map (fun v => trim (cell_text v)) row))
             rows.
Proof.
  intros Hh Hr Hlen Hbh Hbr Hnh Hnr.
  assert (Hrow : forall row, In row rows -> row <> []).
  { intros row Hin E. rewrite Forall_forall in Hlen. specialize (Hlen row Hin).
    subst row. destruct headers; [congruence | discriminate Hlen]. }
  assert (Et : jsonToCsv_text headers rows
               = join_newline (csv_line (List.map Some headers)
                               :: List.map csv_line rows)).
  { unfold jsonToCsv_text. destruct rows as [|r t]; [congruence|]. reflexivity. }
  unfold csvToJson_rows, csv_lines. rewrite Et, split_join.
  - rewrite filter_all.
    + rewrite map_map.
      assert (Eh : parseLine trim (csv_line (List.map Some headers))
                   = List.map trim headers).
      { unfold parseLine. rewrite parse_row.
        - cbn [app]. rewrite !map_map. reflexivity.
        - destruct headers; [congruence | discriminate]. }
      rewrite Eh. apply map_ext_in. intros row Hin.
      unfold parseLine. rewrite (parse_row (Hrow row Hin)). cbn [app].
      rewrite map_map. apply row_assignments_combine.
      rewrite !length_map. rewrite Forall_forall in Hlen. symmetry. now apply Hlen.
    + constructor.
      * fold (blank trim (csv_line (List.map Some headers))). now rewrite Hnh.
      * apply Forall_map. revert Hnr. apply Forall_impl. intros row H.
        fold (blank trim (csv_line row)). now rewrite H.
  - discriminate.
  - constructor.
    + apply has_break_csv_line. apply Forall_map. exact Hbh.
    + apply Forall_map. revert Hbr. apply Forall_impl. intros row H.
      now apply has_break_csv_line.
Qed.

Lemma csv_round_trip_witness :
  csvToJson_rows trim_ascii
    (jsonToCsv_text ["name"; "note"]
       [[Some "Boiler, new"; None];
        [Some (String "a" (String dquote (String "b" EmptyString))); Some " x "]])
  = [[("name", "Boiler, new"); ("note", "")];
     [("name", String "a" (String dquote (String "b" EmptyString))); ("note", "x")]].
Proof.
  apply (@csv_round_trip trim_ascii ["name"; "note"]
           [[Some "Boiler, new"; None];
            [Some (String "a" (String dquote (String "b" EmptyString)));
             Some " x "]]).
  - discriminate.
  - discriminate.
  - repeat constructor.
  - repeat constructor.
  - repeat constructor.
  - reflexivity.
  - repeat constructor.
Defined.
